(** * Verification of the stringifier-cpp serialization core

    The development embeds three parts of the repository:

    - the field-descriptor chain [AttrContainer] (attribute container header),
    - the traversal entry points [serialize], [deserialize], [serializeStruct]
      and [deserializeStruct] of [serializer/serialize.hpp],
    - the collaborators those functions call but whose sources are not part of
      the tree (the convertor and the [Serializer] buffer strategy), modelled
      from the prose specification,
    - the constructor of the chain, [bindSerialize], the type-level functions
      of the two metafunction headers and the container fixture.

    Part I holds the definitions, Part II the lemmas and theorems on the
    chain and the traversal, Part III their instances at sample inputs,
    Part IV the theorems on the rest of the code and Part V their
    instances. *)

From Stdlib Require Import ZArith NArith Lia.
From Stdlib.Strings Require Import Byte.
From stdpp Require Import base tactics option list numbers strings.

Set Default Proof Using "Type".
Set Warnings "-register-all".

(* ===================================================================== *)
(** * Part I. Definitions                                                 *)
(* ===================================================================== *)

(** ** Bytes and native sizes *)

Abbreviation byte := Byte.byte.

#[global] Instance byte_eq_dec : EqDecision byte := Byte.byte_eq_dec.

Definition byte_of_N (n : N) : byte :=
  default Byte.x00 (Byte.of_N (n mod 256)).

(** Little-endian object representation of an unsigned integer on [k]
    bytes, and the number a little-endian byte string denotes. *)
Fixpoint le_bytes (k : nat) (x : N) : list byte :=
  match k with
  | O => []
  | S k' => byte_of_N x :: le_bytes k' (x / 256)
  end.

Fixpoint le_value (bs : list byte) : N :=
  match bs with
  | [] => 0
  | b :: bs' => Byte.to_N b + 256 * le_value bs'
  end.

(** [sizeof(size_t)] and the first value a [size_t] cannot hold. *)
Definition size_t_bytes : nat := 8.
Definition size_t_limit : N := 2 ^ 64.

Definition fits_size_t (n : nat) : bool := (N.of_nat n <? size_t_limit)%N.

(** ** Failures *)

(** [OutOfRange] is the read underrun of the specification.  [InvalidFree]
    stands for the undefined behaviour of [delete] on a pointer that does not
    designate a live allocation (a double free). *)
Inductive error := OutOfRange | InvalidFree.

Inductive Exc (A : Type) : Type :=
  | Ok (a : A)
  | Raise (e : error).
Arguments Ok {A} a.
Arguments Raise {A} e.

(** ** Field types, field values and the free store *)

(** The type categories of the dispatcher.  A raw aggregate is identified
    with its object representation, so [TRaw n] covers every arithmetic type
    and every flat copyable struct of size [n]. *)
Inductive ty : Type :=
  | TRaw (n : nat)
  | TString
  | TArray (n : nat) (t : ty)
  | TVector (t : ty)
  | TPointer (t : ty)
  | TObject (ts : list ty).

Definition loc := nat.

Inductive value : Type :=
  | VRaw (bs : list byte)
  | VString (s : list byte)
  | VSeq (vs : list value)
  | VPtr (p : option loc)
  | VObj (fs : list value).

(** The free store: cell [l] is [Some (Some v)] while the allocation is live,
    [Some None] once it has been deleted, and absent while [l] has never been
    handed out.  [new] never reuses an address. *)
Abbreviation heap := (list (option value)).

Definition live (h : heap) (l : loc) : Prop := ∃ v, h !! l = Some (Some v).
Definition freed (h : heap) (l : loc) : Prop := h !! l = Some None.

(** Values compared up to the addresses of their pointees. *)
Inductive svalue : Type :=
  | SRaw (bs : list byte)
  | SString (s : list byte)
  | SSeq (vs : list svalue)
  | SNull
  | SBox (v : svalue)
  | SObj (fs : list svalue).

Fixpoint default_value (t : ty) : value :=
  match t with
  | TRaw n => VRaw (replicate n Byte.x00)
  | TString => VString []
  | TArray n t' => VSeq (replicate n (default_value t'))
  | TVector _ => VSeq []
  | TPointer _ => VPtr None
  | TObject ts => VObj (map default_value ts)
  end.

Definition is_pointer_v (t : ty) : bool :=
  match t with TPointer _ => true | _ => false end.

(** Field-wise helpers shared by the recursive definitions on [TObject]. *)
Fixpoint zip_fields {A} (f : ty → value → A) (ts : list ty) (fs : list value)
    : list A :=
  match ts, fs with
  | t :: ts', v :: fs' => f t v :: zip_fields f ts' fs'
  | _, _ => []
  end.

Fixpoint all_fields (f : ty → value → bool) (ts : list ty) (fs : list value)
    : bool :=
  match ts, fs with
  | [], [] => true
  | t :: ts', v :: fs' => f t v && all_fields f ts' fs'
  | _, _ => false
  end.

(** [wt h t v]: [v] is a value of static type [t] in the store [h]: sizes
    match, lengths fit [size_t], every pointer is null or live. *)
Fixpoint wt (h : heap) (t : ty) (v : value) {struct t} : bool :=
  match t, v with
  | TRaw n, VRaw bs => bool_decide (length bs = n)
  | TString, VString s => fits_size_t (length s)
  | TArray n t', VSeq vs => bool_decide (length vs = n) && forallb (wt h t') vs
  | TVector t', VSeq vs => fits_size_t (length vs) && forallb (wt h t') vs
  | TPointer _, VPtr None => true
  | TPointer t', VPtr (Some l) =>
      match h !! l with
      | Some (Some v') => wt h t' v'
      | _ => false
      end
  | TObject ts, VObj fs => all_fields (wt h) ts fs
  | _, _ => false
  end.

(** The structure of a value, addresses forgotten. *)
Fixpoint reify (h : heap) (t : ty) (v : value) {struct t} : option svalue :=
  match t, v with
  | TRaw _, VRaw bs => Some (SRaw bs)
  | TString, VString s => Some (SString s)
  | TArray _ t', VSeq vs => SSeq <$> mapM (reify h t') vs
  | TVector t', VSeq vs => SSeq <$> mapM (reify h t') vs
  | TPointer _, VPtr None => Some SNull
  | TPointer t', VPtr (Some l) =>
      match h !! l with
      | Some (Some v') => SBox <$> reify h t' v'
      | _ => None
      end
  | TObject ts, VObj fs =>
      if bool_decide (length ts = length fs)
      then SObj <$> mapM id (zip_fields (reify h) ts fs)
      else None
  | _, _ => None
  end.

(** ** The decoding monad: free store and source view threaded, failures
    propagated.  The store survives a failure, as it does when a C++
    exception unwinds. *)

Definition Dec (A : Type) : Type :=
  heap → list byte → heap * Exc (A * list byte).

Definition ret {A} (a : A) : Dec A := λ h s, (h, Ok (a, s)).

Definition bind {A B} (m : Dec A) (k : A → Dec B) : Dec B :=
  λ h s,
    match m h s with
    | (h', Ok (a, s')) => k a h' s'
    | (h', Raise e) => (h', Raise e)
    end.

Notation "'let*' x ':=' m 'in' k" := (bind m (λ x, k))
  (at level 10, x name, m at level 100, k at level 200, only parsing).

(** Modelled from the spec: the cursor's [read(n)] of section 4.1, absent from
    the tree: [n] bytes from the current position, the position advanced, and
    [OutOfRange] when fewer than [n] bytes remain. *)
Definition read (n : nat) : Dec (list byte) :=
  λ h s,
    if decide (n ≤ length s)
    then (h, Ok (take n s, drop n s))
    else (h, Raise OutOfRange).

Definition read_size : Dec nat :=
  let* bs := read size_t_bytes in ret (N.to_nat (le_value bs)).

(** [new T()]: a fresh cell holding a default-constructed value. *)
Definition alloc (v : value) : Dec loc :=
  λ h s, (h ++ [Some v], Ok (length h, s)).

Definition store (l : loc) (v : value) : Dec unit :=
  λ h s, (<[l := Some v]> h, Ok (tt, s)).

(** [delete p] for a non-null [p]. *)
Definition cpp_delete (l : loc) : Dec unit :=
  λ h s,
    match h !! l with
    | Some (Some _) => (<[l := None]> h, Ok (tt, s))
    | _ => (h, Raise InvalidFree)
    end.

Definition destroy (cur : value) : Dec unit :=
  match cur with
  | VPtr (Some l) => cpp_delete l
  | _ => ret tt
  end.

Fixpoint decode_each (d : Dec value) (n : nat) : Dec (list value) :=
  match n with
  | O => ret []
  | S n' => let* v := d in let* vs := decode_each d n' in ret (v :: vs)
  end.

Fixpoint decode_fields (d : ty → value → Dec value) (ts : list ty)
    (curs : list value) : Dec (list value) :=
  match ts with
  | [] => ret []
  | t :: ts' =>
      let* f := d t (hd (default_value t) curs) in
      let* fs := decode_fields d ts' (tl curs) in
      ret (f :: fs)
  end.

Definition fields_of (v : value) : list value :=
  match v with VObj fs => fs | _ => [] end.

Fixpoint all_curs (f : ty → value → bool) (ts : list ty) (curs : list value)
    : bool :=
  match ts with
  | [] => true
  | t :: ts' => f t (hd (default_value t) curs) && all_curs f ts' (tl curs)
  end.

(** [no_owned t cur]: the destination [cur] of a decode at type [t] holds no
    owned pointee the decode would have to destroy: a pointer field is null,
    and so are the pointer members of a nested object. *)
Fixpoint no_owned (t : ty) (cur : value) {struct t} : bool :=
  match t with
  | TPointer _ =>
      match cur with
      | VPtr (Some _) => false
      | _ => true
      end
  | TObject ts => all_curs no_owned ts (fields_of cur)
  | _ => true
  end.

(** Two stores agree on the cells [a ≤ i < b]. *)
Definition agree (a b : nat) (h h' : heap) : Prop :=
  ∀ i, a ≤ i < b → h' !! i = h !! i.

Module Convertor.

(** Modelled from the spec: the type-category dispatcher of section 4.2
    (the convertor header is absent from the tree), in its positional
    binary form of section 6: raw aggregates verbatim, strings and
    variable-size containers behind a native-size length, fixed-size
    containers without one, owned pointers behind a presence flag, nested
    objects inline. *)
Fixpoint encode (h : heap) (t : ty) (v : value) {struct t} : list byte :=
  match t, v with
  | TRaw _, VRaw bs => bs
  | TString, VString s =>
      le_bytes size_t_bytes (N.of_nat (length s)) ++ s
  | TArray _ t', VSeq vs => concat (map (encode h t') vs)
  | TVector t', VSeq vs =>
      le_bytes size_t_bytes (N.of_nat (length vs))
        ++ concat (map (encode h t') vs)
  | TPointer _, VPtr None => [Byte.x00]
  | TPointer t', VPtr (Some l) =>
      match h !! l with
      | Some (Some v') => Byte.x01 :: encode h t' v'
      | _ => [Byte.x01]
      end
  | TObject ts, VObj fs => concat (zip_fields (encode h) ts fs)
  | _, _ => []
  end.

(** Modelled from the spec: decode of section 4.2.  [cur] is the field
    being decoded into.  An owned pointer reads the flag, destroys the
    value the field holds, and when the flag says present allocates a
    default-constructed pointee, decodes into it and takes ownership.
    Containers rebuild their elements; a nested object decodes into its own
    fields. *)
Fixpoint decode (t : ty) (cur : value) {struct t} : Dec value :=
  match t with
  | TRaw n => let* bs := read n in ret (VRaw bs)
  | TString =>
      let* n := read_size in
      let* bs := read n in
      ret (VString bs)
  | TArray n t' =>
      let* vs := decode_each (decode t' (default_value t')) n in
      ret (VSeq vs)
  | TVector t' =>
      let* n := read_size in
      let* vs := decode_each (decode t' (default_value t')) n in
      ret (VSeq vs)
  | TPointer t' =>
      let* flag := read 1 in
      let* _ := destroy cur in
      if bool_decide (flag = [Byte.x00]) then ret (VPtr None)
      else
        let* l := alloc (default_value t') in
        let* v := decode t' (default_value t') in
        let* _ := store l v in
        ret (VPtr (Some l))
  | TObject ts =>
      let* fs := decode_fields decode ts (fields_of cur) in
      ret (VObj fs)
  end.

End Convertor.

(** The interface [AttrContainer] uses of its [Conv] template parameter:
    [serialize(reference, str)] appends to [str]; [deserialize(str, reference)]
    consumes a prefix of the view and returns the new value of the field. *)
Record Conv : Type := {
  conv_serialize : heap → ty → value → list byte → list byte;
  conv_deserialize : ty → value → Dec value;
}.

(** Modelled from the spec: the convertor a chain is instantiated with (the
    convertor header is absent from the tree): [serialize] appends the
    encoding of section 4.2 to the string, [deserialize] is its decode. *)
Definition spec_convertor : Conv := {|
  conv_serialize := λ h t v str, str ++ Convertor.encode h t v;
  conv_deserialize := Convertor.decode;
|}.

(** ** The field-descriptor chain *)

Module AttrContainer.

(** One node of [AttrContainer<Conv, H, Types...>]: [attr_type] is the
    static type [H], [reference] the content of the host field the node is
    bound to (the fields bound to one chain are distinct members of the
    host, so updating the slot is updating the field), [name] its
    identifier.  The chain [next] is the tail of the list; the primary
    template, with no type left, is the empty list. *)
Record node : Type := {
  attr_type : ty;
  reference : value;
  name : string;
}.

Definition set_reference (r : value) (a : node) : node :=
  {| attr_type := attr_type a; reference := r; name := name a |}.

(** [std::string serialize(std::string &str) const] *)
Fixpoint serialize (conv : Conv) (h : heap) (c : list node)
    (str : list byte) : list byte :=
  match c with
  | [] => str
  | a :: next =>
      let str := conv_serialize conv h (attr_type a) (reference a) str in
      match next with
      | [] => str
      | _ :: _ => serialize conv h next str
      end
  end.

(** The [if constexpr (std::is_pointer_v<H>)] block of [deserialize]. *)
Definition release (a : node) (h : heap) : node * heap * Exc unit :=
  if is_pointer_v (attr_type a) then
    match reference a with
    | VPtr (Some l) =>
        match cpp_delete l h [] with
        | (h', Ok _) => (set_reference (VPtr None) a, h', Ok tt)
        | (h', Raise e) => (a, h', Raise e)
        end
    | _ => (a, h, Ok tt)
    end
  else (a, h, Ok tt).

(** [void deserialize(std::string_view &str)].  The result is the chain
    with its fields as the call leaves them, the free store, and the view
    when the call returns or the failure when it throws. *)
Fixpoint deserialize (conv : Conv) (c : list node) (h : heap)
    (str : list byte) : list node * heap * Exc (list byte) :=
  match c with
  | [] => ([], h, Ok str)
  | a :: next =>
      match release a h with
      | (a1, h1, Raise e) => (a1 :: next, h1, Raise e)
      | (a1, h1, Ok _) =>
          match conv_deserialize conv (attr_type a1) (reference a1) h1 str with
          | (h2, Raise e) => (a1 :: next, h2, Raise e)
          | (h2, Ok (r, str')) =>
              let '(next', h3, res) := deserialize conv next h2 str' in
              (set_reference r a1 :: next', h3, res)
          end
      end
  end.

End AttrContainer.

(** ** Buffers *)

(** The static properties of [decltype(mem)] the traversal branches on:
    [mtf::is_serializer_bytes_v] and the concept [concepts::Resizeable]. *)
Record mem_t : Type := {
  is_serializer_bytes_v : bool;
  Resizeable : bool;
}.

(** A buffer: [mem.size()] and the bytes found from [mem.data()] on.  Reads
    and writes through [data()] are not bounds-checked, so [mem_data] is total:
    past [mem_size] it gives the bytes that follow the buffer in memory. *)
Record Mem : Type := {
  mem_size : nat;
  mem_data : nat → byte;
}.

Definition bytes_at (m : Mem) (pos n : nat) : list byte :=
  map (mem_data m) (seq pos n).

Definition contents (m : Mem) : list byte := bytes_at m 0 (mem_size m).

(** [mem.resize(n)]: bytes gained are value-initialised. *)
Definition resize (n : nat) (m : Mem) : Mem := {|
  mem_size := n;
  mem_data := λ i,
    if bool_decide (mem_size m ≤ i < n) then Byte.x00 else mem_data m i;
|}.

(** [std::memcpy(mem.data() + pos, bs, |bs|)] *)
Definition memcpy (pos : nat) (bs : list byte) (m : Mem) : Mem := {|
  mem_size := mem_size m;
  mem_data := λ i,
    if bool_decide (pos ≤ i < pos + length bs)
    then default Byte.x00 (bs !! (i - pos))
    else mem_data m i;
|}.

(** ** Strategies and the traversal engine *)

(** A strategy instance [Ser serializer(mem, pos)]: the buffer it is bound
    to, its cursor, and the free store its operations read and allocate in. *)
Record Ser : Type := {
  mem : Mem;
  pos : nat;
  world : heap;
}.

Definition Act (A : Type) : Type := Ser → Ser * Exc A.

(** The operations [serialize] and [deserialize] call on their [Ser]
    template parameter. *)
Record Strategy (A : Type) : Type := {
  serialize_ : A → Act unit;
  deserialize_ : A → Act A;
}.
Arguments serialize_ {A} _ _ _.
Arguments deserialize_ {A} _ _ _.

Inductive Phases := Serialization | Deserialization.

(** [tools::Context<Phase, Ser>(serializer)] *)
Record Context : Type := {
  phase : Phases;
  serializer : Ser;
}.

(** An argument of the pack [args]: a phase-aware callable (the arguments
    for which [SerializerFunction(args, serializer)] holds) or a plain
    value. *)
Inductive Arg (A : Type) : Type :=
  | Plain (a : A)
  | Function (f : Context → Ser * Exc unit).
Arguments Plain {A} a.
Arguments Function {A} f.

Section Traversal.
Context {A : Type} (strategy : Strategy A).

(** The body of the lambda of [serialize], for one argument. *)
Definition serialize_arg (arg : Arg A) : Act unit :=
  λ s,
    match arg with
    | Function f => f {| phase := Serialization; serializer := s |}
    | Plain a => serialize_ strategy a s
    end.

(** The fold expression [(f(args), ...)] over the comma operator: the
    first argument is evaluated, then the rest of the pack. *)
Fixpoint serialize_fold (args : list (Arg A)) : Act unit :=
  λ s,
    match args with
    | [] => (s, Ok tt)
    | arg :: rest =>
        match serialize_arg arg s with
        | (s', Ok _) => serialize_fold rest s'
        | (s', Raise e) => (s', Raise e)
        end
    end.

(** [serialize<Ser>(mem, pos, args...)]: the strategy state as the call
    leaves it (its buffer is [mem], passed by reference) and the position
    returned. *)
Definition serialize (mt : mem_t) (m : Mem) (p : nat) (h : heap)
    (args : list (Arg A)) : Ser * Exc nat :=
  let first_level := bool_decide (p = 0) in
  match serialize_fold args {| mem := m; pos := p; world := h |} with
  | (s, Raise e) => (s, Raise e)
  | (s, Ok _) =>
      let s' :=
        if negb (is_serializer_bytes_v mt) && Resizeable mt
        then
          if first_level
          then {| mem := resize (pos s) (mem s); pos := pos s;
                  world := world s |}
          else s
        else s in
      (s', Ok (pos s'))
  end.

Definition deserialize_arg (arg : Arg A) : Ser → Ser * Exc (Arg A) :=
  λ s,
    match arg with
    | Function f =>
        match f {| phase := Deserialization; serializer := s |} with
        | (s', Ok _) => (s', Ok arg)
        | (s', Raise e) => (s', Raise e)
        end
    | Plain a =>
        match deserialize_ strategy a s with
        | (s', Ok a') => (s', Ok (Plain a'))
        | (s', Raise e) => (s', Raise e)
        end
    end.

(** The fold of [deserialize]; the arguments are references, so the call
    leaves the pack updated. *)
Fixpoint deserialize_fold (args : list (Arg A))
    : Ser → list (Arg A) * Ser * Exc unit :=
  λ s,
    match args with
    | [] => ([], s, Ok tt)
    | arg :: rest =>
        match deserialize_arg arg s with
        | (s', Ok arg') =>
            let '(rest', s'', r) := deserialize_fold rest s' in
            (arg' :: rest', s'', r)
        | (s', Raise e) => (arg :: rest, s', Raise e)
        end
    end.

(** [deserialize<Ser>(mem, pos, args...)] *)
Definition deserialize (m : Mem) (p : nat) (h : heap)
    (args : list (Arg A)) : list (Arg A) * Ser * Exc nat :=
  match deserialize_fold args {| mem := m; pos := p; world := h |} with
  | (args', s, Raise e) => (args', s, Raise e)
  | (args', s, Ok _) => (args', s, Ok (pos s))
  end.

End Traversal.

(** ** The buffer strategy *)

Module Serializer.

Section Binary.
(** [slack n] is the room the growth policy leaves past the [n] bytes a
    write needs; [mt] the static properties of the buffer type. *)
Variable slack : nat → nat.
Variable mt : mem_t.

(** Modelled from the spec: [append] of the [Serializer] class (absent
    from the tree), the cursor's [write] of section 4.1: the bytes land at
    the current position, the position advances, and the storage grows
    when the write would pass its end. *)
Definition append (bs : list byte) (s : Ser) : Ser :=
  let need := pos s + length bs in
  let m :=
    if Resizeable mt && bool_decide (mem_size (mem s) < need)
    then resize (need + slack need) (mem s)
    else mem s in
  {| mem := memcpy (pos s) bs m; pos := need; world := world s |}.

(** Modelled from the spec: the default per-argument encode operation of
    the strategy (section 4.4): the convertor's encoding of the argument
    is written at the cursor. *)
Definition serialize_ (a : ty * value) : Act unit :=
  λ s, (append (Convertor.encode (world s) a.1 a.2) s, Ok tt).

(** Modelled from the spec: the default per-argument decode operation:
    the convertor decodes from the bytes that remain between the cursor
    and the end of the buffer, reads being bounds-checked (section 4.1),
    and the cursor advances past what was consumed. *)
Definition deserialize_ (a : ty * value) : Act (ty * value) :=
  λ s,
    let src := bytes_at (mem s) (pos s) (mem_size (mem s) - pos s) in
    match Convertor.decode a.1 a.2 (world s) src with
    | (h', Ok (v, rest)) =>
        ({| mem := mem s; pos := pos s + (length src - length rest);
            world := h' |}, Ok (a.1, v))
    | (h', Raise e) =>
        ({| mem := mem s; pos := pos s; world := h' |}, Raise e)
    end.

Definition strategy : Strategy (ty * value) :=
  Build_Strategy (ty * value) serialize_ deserialize_.

End Binary.

End Serializer.

(** ** The struct fast path *)

(** What the fast path needs of the object type [T]: [sizeof(T)], the object
    representation of a value and the value a representation denotes.
    [valid] singles out the values an object of the type can hold (integer
    members within their range). *)
Class Layout (T : Type) : Type := {
  sizeof : nat;
  valid : T → Prop;
  to_bytes : T → list byte;
  of_bytes : list byte → T;
}.
Arguments sizeof T {_}.

(** The constraint [std::is_trivially_copyable_v<T> &&
    std::is_trivially_copy_assignable_v<T>]: the representation has the
    static size and copying it copies the value. *)
Class TriviallyCopyable (T : Type) `{Layout T} : Prop := {
  to_bytes_length : ∀ obj : T, length (to_bytes obj) = sizeof T;
  of_to_bytes : ∀ obj : T, valid obj → of_bytes (to_bytes obj) = obj;
}.

Section StructFastPath.
Variable slack : nat → nat.
Variable mt : mem_t.

(** [serializeStruct<T>(mem, pos, obj)]: the buffer as the call leaves it
    and the position returned. *)
Definition serializeStruct {T : Type} `{TriviallyCopyable T}
    (m : Mem) (p : nat) (obj : T) : Mem * nat :=
  let nb_bytes := sizeof T in
  let serializer := {| mem := m; pos := p; world := [] |} in
  let serializer :=
    Serializer.append slack mt (take nb_bytes (to_bytes obj)) serializer in
  (mem serializer, pos serializer).

End StructFastPath.

(** [deserializeStruct<T>(mem, pos, obj)]: the value assigned to [*obj] and
    the position returned.  The function has no [requires] clause and no
    throwing path.  This is the function as the fast path uses it: on a type
    whose assignment copies the object representation, at a position of the
    buffer, where [pos + sizeof(T)] does not leave [size_t];
    [deserializeStruct_into] below is the function on any type and any
    position. *)
Definition deserializeStruct {T : Type} `{Layout T} (m : Mem) (p : nat)
    : Exc (T * nat) :=
  Ok (of_bytes (bytes_at m p (sizeof T)), p + sizeof T).

(** [T::operator=], which the assignment [*obj = src] runs: the value it
    leaves in [*obj], from the value [*obj] held and the source. *)
Class CopyAssignable (T : Type) : Type := {
  assign : T → T → T;
}.




(** The aggregate of the struct fast-path test, two [int32] members, with
    the object representation it has on a little-endian target: each member
    in two's complement on four bytes, wrap-around written out. *)
Module Point.

Record t : Type := { x : Z; y : Z }.

Definition in_int32 (z : Z) : Prop := (- 2 ^ 31 ≤ z < 2 ^ 31)%Z.

Definition int32_bytes (z : Z) : list byte :=
  le_bytes 4 (Z.to_N (z mod 2 ^ 32)).

Definition int32_of_bytes (bs : list byte) : Z :=
  let u := Z.of_N (le_value bs) in
  if (u <? 2 ^ 31)%Z then u else (u - 2 ^ 32)%Z.

#[global] Instance layout : Layout t := {|
  sizeof := 8;
  valid p := in_int32 (x p) ∧ in_int32 (y p);
  to_bytes p := int32_bytes (x p) ++ int32_bytes (y p);
  of_bytes bs :=
    {| x := int32_of_bytes (take 4 bs); y := int32_of_bytes (drop 4 bs) |};
|}.

End Point.

(** The assignment of [Point] is the implicit one. *)
#[global] Instance Point_copy_assignable : CopyAssignable Point.t := {|
  assign _ src := src;
|}.

(** A class that is not trivially copyable: two [int32] members, and an
    assignment operator of its own that takes the value of the source and
    keeps the identifier of the object assigned to,
    [Tagged &operator=(const Tagged &o) { value = o.value; return *this; }]. *)
Module Tagged.

Record t : Type := { value : Z; id : Z }.

#[global] Instance layout : Layout t := {|
  sizeof := 8;
  valid o := Point.in_int32 (value o) ∧ Point.in_int32 (id o);
  to_bytes o := Point.int32_bytes (value o) ++ Point.int32_bytes (id o);
  of_bytes bs :=
    {| value := Point.int32_of_bytes (take 4 bs);
       id := Point.int32_of_bytes (drop 4 bs) |};
|}.

#[global] Instance copy_assignable : CopyAssignable t := {|
  assign obj src := {| value := value src; id := id obj |};
|}.

End Tagged.

(** ** Vocabulary of the statements *)

(** Decoding [v]'s encoding into [cur] succeeds from any store and before any
    suffix: the suffix is left in the view, the store only gains cells, and
    the decoded value has the structure of [v] in every store that keeps the
    cells gained. *)
Definition roundtrips (hs : heap) (t : ty) (v cur : value) : Prop :=
  ∀ (h : heap) (rest : list byte),
    ∃ v' h',
      Convertor.decode t cur h (Convertor.encode hs t v ++ rest)
        = (h', Ok (v', rest))
      ∧ h `prefix_of` h'
      ∧ ∀ h'', agree (length h) (length h') h' h'' →
               reify h'' t v' = reify hs t v.

(** Decoding any strict prefix of [v]'s encoding raises [OutOfRange]. *)
Definition underruns (hs : heap) (t : ty) (v cur : value) : Prop :=
  ∀ (k : nat) (h : heap),
    k < length (Convertor.encode hs t v) →
    ∃ h', Convertor.decode t cur h (take k (Convertor.encode hs t v))
          = (h', Raise OutOfRange).

(** A decoding step that never frees and never overwrites a cell that
    existed: whatever the source holds, and whether it returns or throws, the
    store it leaves extends the store it found. *)
Definition extends_store {A} (m : Dec A) : Prop :=
  ∀ (h : heap) (s : list byte), h `prefix_of` (m h s).1.

(** The bytes a chain appends, field after field. *)
Definition chain_encoding (hs : heap) (c : list AttrContainer.node)
    : list byte :=
  concat (map (λ a, Convertor.encode hs (AttrContainer.attr_type a)
                      (AttrContainer.reference a)) c).

Definition chain_wt (hs : heap) (c : list AttrContainer.node) : bool :=
  forallb (λ a, wt hs (AttrContainer.attr_type a) (AttrContainer.reference a))
    c.

(** The allocation a node owns: the pointee of a non-null pointer field. *)
Definition owned (a : AttrContainer.node) : list loc :=
  if is_pointer_v (AttrContainer.attr_type a) then
    match AttrContainer.reference a with
    | VPtr (Some l) => [l]
    | _ => []
    end
  else [].

Definition owned_locs (c : list AttrContainer.node) : list loc :=
  concat (map owned c).

Definition liveb (h : heap) (l : loc) : bool :=
  match h !! l with
  | Some (Some _) => true
  | _ => false
  end.

(** A chain a decode may run on: its pointer fields own pairwise distinct
    live allocations (exclusive ownership), and its other fields hold no
    owned pointee. *)
Definition dest_ok (h : heap) (d : list AttrContainer.node) : bool :=
  bool_decide (NoDup (owned_locs d))
  && forallb (liveb h) (owned_locs d)
  && forallb (λ a, is_pointer_v (AttrContainer.attr_type a)
                   || no_owned (AttrContainer.attr_type a)
                        (AttrContainer.reference a)) d.

(** Every pointer field of the chain is null or designates a live
    allocation. *)
Definition no_dangling (h : heap) (c : list AttrContainer.node) : Prop :=
  ∀ l, l ∈ owned_locs c → live h l.

(** The traversal as the specification words it: a left fold of one step
    per argument over the pack, the step dispatching on the kind of the
    argument; once a step has thrown, the arguments that follow are not
    evaluated. *)
Definition serialize_step {A} (strategy : Strategy A)
    (acc : Ser * Exc unit) (arg : Arg A) : Ser * Exc unit :=
  match acc with
  | (s, Ok _) =>
      match arg with
      | Function f => f {| phase := Serialization; serializer := s |}
      | Plain a => serialize_ strategy a s
      end
  | (s, Raise e) => (s, Raise e)
  end.

Definition deserialize_step {A} (strategy : Strategy A)
    (acc : list (Arg A) * Ser * Exc unit) (arg : Arg A)
    : list (Arg A) * Ser * Exc unit :=
  match acc with
  | (done, s, Ok _) =>
      match arg with
      | Function f =>
          match f {| phase := Deserialization; serializer := s |} with
          | (s', Ok _) => (done ++ [arg], s', Ok tt)
          | (s', Raise e) => (done ++ [arg], s', Raise e)
          end
      | Plain a =>
          match deserialize_ strategy a s with
          | (s', Ok a') => (done ++ [Plain a'], s', Ok tt)
          | (s', Raise e) => (done ++ [arg], s', Raise e)
          end
      end
  | (done, s, Raise e) => (done ++ [arg], s, Raise e)
  end.

(** A phase-aware callable that runs [on_serialize] in the encode phase and
    [on_deserialize] in the decode phase. *)
Definition by_phase (on_serialize on_deserialize : Ser → Ser * Exc unit)
    (ctx : Context) : Ser * Exc unit :=
  match phase ctx with
  | Serialization => on_serialize (serializer ctx)
  | Deserialization => on_deserialize (serializer ctx)
  end.

(** An argument that does not shrink the buffer of the strategy it is run
    on: any plain argument qualifies here, a callable when it leaves the
    buffer at least as long as it found it. *)
Definition keeps_size {A} (arg : Arg A) : Prop :=
  match arg with
  | Plain _ => True
  | Function f =>
      ∀ ctx, mem_size (mem (serializer ctx)) ≤ mem_size (mem (f ctx).1)
  end.

(** The bytes of a record: the encodings of its arguments, in order. *)
Definition record_encoding (hs : heap) (args : list (ty * value))
    : list byte :=
  concat (map (λ a, Convertor.encode hs a.1 a.2) args).

Definition record_wt (hs : heap) (args : list (ty * value)) : bool :=
  forallb (λ a, wt hs a.1 a.2) args.

(** Variables a record can be decoded into: none owns a pointee. *)
Definition vars_ok (vars : list (ty * value)) : bool :=
  forallb (λ a, no_owned a.1 a.2) vars.

(** [outs] are the values of [args], up to the addresses of pointees. *)
Definition same_values (hs h' : heap) (args outs : list (ty * value)) : Prop :=
  Forall2 (λ a o,
             o.1 = a.1
             ∧ is_Some (reify hs a.1 a.2)
             ∧ reify h' a.1 o.2 = reify hs a.1 a.2) args outs.

(** ** Sample data *)

Module Sample.

Definition int32_le (b : byte) : value :=
  VRaw [b; Byte.x00; Byte.x00; Byte.x00].

(** [std::vector<uint8_t>], [tools::Bytes<uint8_t>] as the guard of
    [serialize] treats it (a serializer [Bytes] that satisfies
    [Resizeable]), and [std::array<uint8_t, N>]. *)
Definition std_vector : mem_t :=
  {| is_serializer_bytes_v := false; Resizeable := true |}.
Definition tools_Bytes : mem_t :=
  {| is_serializer_bytes_v := true; Resizeable := true |}.
Definition std_array : mem_t :=
  {| is_serializer_bytes_v := false; Resizeable := false |}.

Definition zeros (n : nat) : Mem :=
  {| mem_size := n; mem_data := λ _, Byte.x00 |}.

(** The growth policy that doubles what a write needs. *)
Definition doubling (n : nat) : nat := n.

(** A free store with two live [int] cells, and a host object with one
    member of each category. *)
Definition store0 : heap :=
  [Some (int32_le Byte.x2a); Some (int32_le Byte.x05)].

Definition field (t : ty) (v : value) (id : string) : AttrContainer.node :=
  {| AttrContainer.attr_type := t;
     AttrContainer.reference := v;
     AttrContainer.name := id |}.

Definition host_x := field (TRaw 4) (int32_le Byte.x07) "x".
Definition host_s := field TString (VString [Byte.x68; Byte.x69]) "s".
Definition host_vec2D :=
  field (TVector (TVector (TRaw 4)))
    (VSeq [VSeq [int32_le Byte.x01; int32_le Byte.x02];
           VSeq [int32_le Byte.x03]]) "vec2D".
Definition host_p := field (TPointer (TRaw 4)) (VPtr (Some 0)) "p".
Definition host_q := field (TPointer (TRaw 4)) (VPtr None) "q".
Definition host_arr :=
  field (TArray 2 (TRaw 4)) (VSeq [int32_le Byte.x08; int32_le Byte.x09]) "arr".
Definition host_obj :=
  field (TObject [TRaw 4; TPointer (TRaw 4)])
    (VObj [int32_le Byte.x0a; VPtr (Some 1)]) "obj".

Definition host : list AttrContainer.node :=
  [host_x; host_s; host_vec2D; host_p; host_q; host_arr; host_obj].

(** A second object of the same class, whose members [p] and [q] are the
    other way round: [q] owns cell 0 and [p] is null. *)
Definition other_x := field (TRaw 4) (int32_le Byte.x00) "x".
Definition other_s := field TString (VString []) "s".
Definition other_vec2D := field (TVector (TVector (TRaw 4))) (VSeq []) "vec2D".
Definition other_p := field (TPointer (TRaw 4)) (VPtr None) "p".
Definition other_q := field (TPointer (TRaw 4)) (VPtr (Some 0)) "q".
Definition other_arr :=
  field (TArray 2 (TRaw 4)) (VSeq [int32_le Byte.x00; int32_le Byte.x00]) "arr".
Definition other_obj :=
  field (TObject [TRaw 4; TPointer (TRaw 4)])
    (VObj [int32_le Byte.x00; VPtr None]) "obj".

Definition other : list AttrContainer.node :=
  [other_x; other_s; other_vec2D; other_p; other_q; other_arr; other_obj].

(** The aggregate of the struct fast-path test. *)
Definition point : Point.t := {| Point.x := 7; Point.y := -3 |}.

(** A callable that leaves the strategy as it found it. *)
Definition idle : Context → Ser * Exc unit := λ ctx, (serializer ctx, Ok tt).

(** Two records for one buffer, and the variables they are decoded into. *)
Definition record1 : list (ty * value) :=
  [(TRaw 4, int32_le Byte.x07); (TString, VString [Byte.x68; Byte.x69])].
Definition record2 : list (ty * value) :=
  [(TVector (TRaw 4), VSeq [int32_le Byte.x01; int32_le Byte.x02]);
   (TPointer (TRaw 4), VPtr (Some 0))].
Definition vars1 : list (ty * value) :=
  [(TRaw 4, int32_le Byte.x00); (TString, VString [])].
Definition vars2 : list (ty * value) :=
  [(TVector (TRaw 4), VSeq []); (TPointer (TRaw 4), VPtr None)].

End Sample.

(** ** Construction of a chain *)

(** The operations of [std::string] the constructor uses. *)
Module std_string.

(** [s.find(ch)]: the index of the first occurrence; [None] is [npos]. *)
Fixpoint find (ch : Ascii.ascii) (s : string) : option nat :=
  match s with
  | EmptyString => None
  | String a s' => if Ascii.eqb a ch then Some 0 else S <$> find ch s'
  end.

(** The first [n] characters of [s], all of them when it is shorter. *)
Fixpoint first_n (n : nat) (s : string) : string :=
  match n, s with
  | S n', String a s' => String a (first_n n' s')
  | _, _ => EmptyString
  end.

(** The characters of [s] from position [pos] on. *)
Fixpoint from (pos : nat) (s : string) : string :=
  match pos, s with
  | S pos', String _ s' => from pos' s'
  | _, _ => s
  end.

(** [s.substr(pos, count)]: the characters from [pos], at most [count] of
    them ([None] for the default [npos]); [std::out_of_range] when [pos] is
    past the size. *)
Definition substr (pos : nat) (count : option nat) (s : string)
    : Exc string :=
  if decide (pos ≤ String.length s)
  then Ok (match count with
           | Some n => first_n n (from pos s)
           | None => from pos s
           end)
  else Raise OutOfRange.

End std_string.

Import Stdlib.Strings.Ascii.

Section Construction.
(** [parser::nextId], whose header is not part of the tree: the position in
    the identifier string at which the identifiers of the tail start. *)
Variable nextId : string → nat.

(** [AttrContainer(H &head, Types &...types, const std::string &idsStr)]:
    the members are initialised in the order of their declaration,
    [reference], [name], then [next] by the constructor of the tail; with
    no type left the constructor [AttrContainer(std::string const &)] has
    an empty body.  A [substr] that throws ends the construction. *)
Fixpoint AttrContainer_ctor (fields : list (ty * value)) (idsStr : string)
    : Exc (list AttrContainer.node) :=
  match fields with
  | [] => Ok []
  | (H, head) :: types =>
      match std_string.substr 0 (std_string.find ","%char idsStr) idsStr with
      | Raise e => Raise e
      | Ok name =>
          match std_string.substr (nextId idsStr) None idsStr with
          | Raise e => Raise e
          | Ok ids =>
              match AttrContainer_ctor types ids with
              | Raise e => Raise e
              | Ok next =>
                  Ok ({| AttrContainer.attr_type := H;
                         AttrContainer.reference := head;
                         AttrContainer.name := name |} :: next)
              end
          end
      end
  end.

End Construction.

(** ** Bound serializers *)

(** [bindSerialize<Ser>(obj, accessors...)]: the function returned.  It
    holds [obj] by reference, so [obj] is the object as it is when the
    function is called; [pos] is [None] when the call leaves the position to
    its default. *)
Definition bindSerialize {A O : Type} (strategy : Strategy A)
    (accessors : list (O → Arg A))
    : O → mem_t → Mem → option nat → heap → Ser * Exc nat :=
  λ obj mt mem pos h,
    serialize strategy mt mem (default 0 pos) h
      (map (λ accessor, accessor obj) accessors).

(** ** Types, as the metafunctions see them *)

Module Cpp.

Inductive refkind := NoRef | LRef | RRef.

Definition refkind_eqb (a b : refkind) : bool :=
  match a, b with
  | NoRef, NoRef | LRef, LRef | RRef, RRef => true
  | _, _ => false
  end.

(** What the type of a member function carries besides its result and its
    parameters: its [const] and [volatile] qualifiers, its ref-qualifier,
    [noexcept], and a trailing C ellipsis. *)
Record fn_quals : Type := {
  fn_const : bool;
  fn_volatile : bool;
  fn_ref : refkind;
  fn_noexcept : bool;
  fn_variadic : bool;
}.

(** A member function declared with none of them. *)
Definition no_quals : fn_quals := {|
  fn_const := false; fn_volatile := false; fn_ref := NoRef;
  fn_noexcept := false; fn_variadic := false;
|}.

Definition fn_quals_eqb (a b : fn_quals) : bool :=
  Bool.eqb (fn_const a) (fn_const b)
  && Bool.eqb (fn_volatile a) (fn_volatile b)
  && refkind_eqb (fn_ref a) (fn_ref b)
  && Bool.eqb (fn_noexcept a) (fn_noexcept b)
  && Bool.eqb (fn_variadic a) (fn_variadic b).

(** The object types, without their top-level [const]: fundamental types,
    classes (with the two properties [std::is_polymorphic] and
    [std::is_abstract] report), pointers to a possibly [const] pointee,
    instances of class templates whose parameters are all types,
    [std::array<T, N>], and pointers to member functions (of a class [C],
    with result [R], parameters [Params...] and the qualifiers of the
    function).  A type is an object type with its [const] qualifier, or a
    reference to one; [volatile] objects are left out.  An instance of a
    class template stands for a class without virtual functions, as the
    instances of the standard templates the headers name are; a class that
    has some is written as a [Class]. *)
Inductive otype : Type :=
  | Fund (name : string)
  | Class (name : string) (polymorphic abstract : bool)
  | Ptr (c : bool) (pointee : otype)
  | Tmpl (name : string) (args : list (refkind * bool * otype))
  | StdArray (c : bool) (elem : otype) (n : nat)
  | MemFn (ret : refkind * bool * otype) (cls : otype)
      (params : list (refkind * bool * otype)) (quals : fn_quals).

Definition type : Type := refkind * bool * otype.

Definition plain (o : otype) : type := (NoRef, false, o).

(** Identity of types, for [std::is_same]. *)
Definition type_eqb_with (f : otype → otype → bool)
    (x y : refkind * bool * otype) : bool :=
  let '(r1, c1, o1) := x in
  let '(r2, c2, o2) := y in
  refkind_eqb r1 r2 && Bool.eqb c1 c2 && f o1 o2.

Fixpoint pack_eqb_with (f : otype → otype → bool)
    (l1 l2 : list (refkind * bool * otype)) : bool :=
  match l1, l2 with
  | [], [] => true
  | x :: l1', y :: l2' => type_eqb_with f x y && pack_eqb_with f l1' l2'
  | _, _ => false
  end.

Fixpoint otype_eqb (a b : otype) {struct a} : bool :=
  match a, b with
  | Fund n1, Fund n2 => String.eqb n1 n2
  | Class n1 p1 a1, Class n2 p2 a2 =>
      String.eqb n1 n2 && Bool.eqb p1 p2 && Bool.eqb a1 a2
  | Ptr c1 o1, Ptr c2 o2 => Bool.eqb c1 c2 && otype_eqb o1 o2
  | Tmpl n1 l1, Tmpl n2 l2 =>
      String.eqb n1 n2 && pack_eqb_with otype_eqb l1 l2
  | StdArray c1 o1 k1, StdArray c2 o2 k2 =>
      Bool.eqb c1 c2 && otype_eqb o1 o2 && Nat.eqb k1 k2
  | MemFn r1 o1 l1 q1, MemFn r2 o2 l2 q2 =>
      type_eqb_with otype_eqb r1 r2 && otype_eqb o1 o2
      && pack_eqb_with otype_eqb l1 l2 && fn_quals_eqb q1 q2
  | _, _ => false
  end.

(** [std::is_same_v] *)
Definition is_same (x y : type) : bool := type_eqb_with otype_eqb x y.

(** [std::remove_reference_t] *)
Definition remove_reference (T : type) : type := (NoRef, T.1.2, T.2).

(** [std::remove_const_t]: the top-level [const] of an object type; a
    reference type has none. *)
Definition remove_const (T : type) : type :=
  match T with
  | (NoRef, _, o) => (NoRef, false, o)
  | _ => T
  end.

(** [std::is_pointer_v]: pointers, whatever their own qualifier. *)
Definition is_pointer (T : type) : bool :=
  match T with
  | (NoRef, _, Ptr _ _) => true
  | _ => false
  end.

(** [std::remove_pointer_t] *)
Definition remove_pointer (T : type) : type :=
  match T with
  | (NoRef, _, Ptr c o) => (NoRef, c, o)
  | _ => T
  end.

(** [std::is_polymorphic_v] and [std::is_abstract_v]: properties of the
    class, whatever its qualifier; no other type has them, and the
    instances of class templates written with [Tmpl] are those without
    virtual functions. *)
Definition is_polymorphic (T : type) : bool :=
  match T with
  | (NoRef, _, Class _ p _) => p
  | _ => false
  end.

Definition is_abstract (T : type) : bool :=
  match T with
  | (NoRef, _, Class _ _ a) => a
  | _ => false
  end.

(** How a class template whose parameters are all types is declared, as far
    as naming an instance from a list of arguments goes: the number of its
    parameters before the pack, those with a default argument included, and
    whether it ends in a parameter pack.  [std::tuple] is declared with a
    pack alone, [std::pair] with two parameters. *)
Record template : Type := {
  params : nat;
  pack : bool;
}.

(** A template declared with a parameter pack and nothing else. *)
Definition pack_alone (d : template) : bool := pack d && (params d =? 0).

(** The standard types the metafunctions name.  [std::string] is the
    instance [std::basic_string<char>] with its default traits and
    allocator, [std::unique_ptr<T>] the instance with the default deleter. *)
Definition char : type := plain (Fund "char").
Definition std_string : otype :=
  Tmpl "std::basic_string"
    [char; plain (Tmpl "std::char_traits" [char]);
     plain (Tmpl "std::allocator" [char])].
Definition shared_ptr (T : type) : otype := Tmpl "std::shared_ptr" [T].
Definition default_delete (T : type) : otype := Tmpl "std::default_delete" [T].
Definition unique_ptr_with (T D : type) : otype :=
  Tmpl "std::unique_ptr" [T; D].
Definition unique_ptr (T : type) : otype :=
  unique_ptr_with T (plain (default_delete T)).
Definition Bytes (T : type) : otype := Tmpl "serializer::tools::Bytes" [T].
Definition pair (T1 T2 : type) : otype := Tmpl "std::pair" [T1; T2].
Definition tuple (Types : list type) : otype := Tmpl "std::tuple" Types.

(** The declarations of the standard templates named above; a template
    that is not listed is taken with one parameter. *)
Definition std_templates (name : string) : template :=
  if String.eqb name "std::tuple" then {| params := 0; pack := true |}
  else if String.eqb name "std::pair" then {| params := 2; pack := false |}
  else if String.eqb name "std::unique_ptr"
  then {| params := 2; pack := false |}
  else if String.eqb name "std::basic_string"
  then {| params := 3; pack := false |}
  else {| params := 1; pack := false |}.

End Cpp.

(** ** The metafunctions of the older header (namespace [serializer::mtf]) *)

Module Metafunctions.
Import Cpp.

(** [base_t<T>] *)
Definition base_t (T : type) : type := remove_const (remove_reference T).

(** [contains<T, Types...>::value] *)
Fixpoint contains (T : type) (Types : list type) : bool :=
  match Types with
  | [] => false
  | H :: Tail => is_same T H || contains T Tail
  end.

(** [contains_v<T, Types...>] *)
Definition contains_v (T : type) (Types : list type) : bool :=
  contains T Types.

(** [is_concrete_ptr_v<T>] *)
Definition is_concrete_ptr_v (T : type) : bool :=
  is_pointer (remove_reference T) &&
  negb (is_polymorphic (remove_pointer (base_t T))) &&
  negb (is_abstract (remove_pointer (base_t T))).

(** [is_string_v<T>] *)
Definition is_string_v (T : type) : bool :=
  is_same (remove_reference T) (plain std_string).

(** [is_shared<SP>]: the specialisation for [std::shared_ptr<T>] derives
    from [std::true_type], the primary template from [std::false_type]. *)
Definition is_shared (SP : type) : bool :=
  match SP with
  | (NoRef, false, Tmpl name [_]) => String.eqb name "std::shared_ptr"
  | _ => false
  end.

(** [is_shared_v<SP>] *)
Definition is_shared_v (SP : type) : bool := is_shared SP.

(** [is_unique<SP>]: the specialisation is for [std::unique_ptr<T>], the
    instance whose deleter is the default one. *)
Definition is_unique (SP : type) : bool :=
  match SP with
  | (NoRef, false, Tmpl name [T; D]) =>
      String.eqb name "std::unique_ptr"
      && is_same D (plain (default_delete T))
  | _ => false
  end.

(** [is_unique_v<SP>] *)
Definition is_unique_v (SP : type) : bool := is_unique SP.

(** [is_smart<SP>], with its two specialisations. *)
Definition is_smart (SP : type) : bool :=
  match SP with
  | (NoRef, false, Tmpl name [_]) => String.eqb name "std::shared_ptr"
  | (NoRef, false, Tmpl name [T; D]) =>
      String.eqb name "std::unique_ptr"
      && is_same D (plain (default_delete T))
  | _ => false
  end.

(** [is_smart_ptr_v<SP>] *)
Definition is_smart_ptr_v (SP : type) : bool := is_smart SP.

Section Templates.
(** The declaration of each class template, by its name. *)
Variable decl : string → template.

(** [tuple_push_front<H, T>::type]; the primary template is only declared,
    so the member exists for instances [T<Types...>] alone.  [Types] being
    all the arguments of the instance, [T<H, Types...>] has one argument
    more: it names a type when the template ends in a pack, and is
    ill-formed otherwise. *)
Definition tuple_push_front (H T : type) : option type :=
  match T with
  | (NoRef, false, Tmpl name Types) =>
      if pack (decl name) then Some (plain (Tmpl name (H :: Types)))
      else None
  | _ => None
  end.

(** [T<Types...>] on the pack without its head names the instance over
    [Types] when the pack of the template takes over every argument left out
    and no other parameter is left without one.  Otherwise the type is
    ill-formed, or it is completed by default arguments into an instance
    with as many arguments as before, on which the recursion of
    [remove_const_tuple] does not end; the member [type] exists in neither
    case. *)
Definition names_instance (name : string) (Types : list type) : bool :=
  pack (decl name) && (params (decl name) <=? length Types).

(** [remove_const_tuple<T<Types...>>::type], by recursion on the pack; the
    specialisation for [std::pair<T1, T2>] is the more specialised one and
    is selected for a pair. *)
Fixpoint remove_const_tuple_pack (name : string) (Types : list type)
    : option type :=
  match Types with
  | [] => Some (plain (Tmpl name []))
  | H :: Types =>
      match String.eqb name "std::pair", Types with
      | true, [T2] =>
          Some (plain (Tmpl name [remove_const H; remove_const T2]))
      | _, _ =>
          if names_instance name Types
          then
            tail ← remove_const_tuple_pack name Types;
            tuple_push_front (remove_const H) tail
          else None
      end
  end.

(** [remove_const_tuple_t<T>] *)
Definition remove_const_tuple (T : type) : option type :=
  match T with
  | (NoRef, false, Tmpl name Types) => remove_const_tuple_pack name Types
  | _ => None
  end.

End Templates.

(** [is_std_array<T>] *)
Definition is_std_array (T : type) : bool :=
  match T with
  | (NoRef, false, StdArray _ _ _) => true
  | _ => false
  end.

(** [is_std_array_v<T>] *)
Definition is_std_array_v (T : type) : bool := is_std_array T.

End Metafunctions.

(** ** The metafunctions of [serializer/meta/type_transform.hpp] and of the
    type checks that follow it.  [contains], [tuple_push_front],
    [remove_const_tuple], [is_shared], [is_unique] and [is_std_array] have
    the text of the older header. *)

Module Mtf.
Import Cpp.

(** [base_t<T>] *)
Definition base_t (T : type) : type := remove_const (remove_reference T).

(** [contains_v<T, Types...>] *)
Definition contains_v (T : type) (Types : list type) : bool :=
  Metafunctions.contains (base_t T) Types.

(** [is_concrete_ptr_v<T>] *)
Definition is_concrete_ptr_v (T : type) : bool :=
  is_pointer (base_t T) &&
  negb (is_polymorphic (remove_pointer (base_t T))) &&
  negb (is_abstract (remove_pointer (base_t T))).

(** [is_string_v<T>] *)
Definition is_string_v (T : type) : bool :=
  is_same (base_t T) (plain std_string).

(** [is_shared_v<SP>] *)
Definition is_shared_v (SP : type) : bool :=
  Metafunctions.is_shared (base_t SP).

(** [is_unique_v<SP>] *)
Definition is_unique_v (SP : type) : bool :=
  Metafunctions.is_unique (base_t SP).

(** [is_smart_ptr_v<SP>] *)
Definition is_smart_ptr_v (SP : type) : bool :=
  is_shared_v SP || is_unique_v SP.

(** [is_std_array_v<T>] *)
Definition is_std_array_v (T : type) : bool :=
  Metafunctions.is_std_array (base_t T).

(** [is_serializer_bytes<T>] *)
Definition is_serializer_bytes (T : type) : bool :=
  match T with
  | (NoRef, false, Tmpl name [_]) =>
      String.eqb name "serializer::tools::Bytes"
  | _ => false
  end.

(** [is_serializer_bytes_v<T>] *)
Definition is_serializer_bytes_v (T : type) : bool :=
  is_serializer_bytes (base_t T).

(** [is_setter<T>]: the specialisation is for the type of a pointer to a
    member function of one parameter, written with no qualifier at all. *)
Definition is_setter (T : type) : bool :=
  match T with
  | (NoRef, false, MemFn _ _ [_] quals) => fn_quals_eqb quals no_quals
  | _ => false
  end.

(** [is_setter_v<T>] *)
Definition is_setter_v (T : type) : bool := is_setter T.

(** [setter_arg_type_t<T>]; the primary template is only declared. *)
Definition setter_arg_type (T : type) : option type :=
  match T with
  | (NoRef, false, MemFn _ _ [Arg] quals) =>
      if fn_quals_eqb quals no_quals then Some Arg else None
  | _ => None
  end.

End Mtf.

(** A position function for identifier strings: past the first comma, the
    end of the string when it holds none. *)
Definition past_comma (s : string) : nat :=
  match std_string.find "," s with
  | Some i => S i
  | None => String.length s
  end.

(** ** The container fixture *)

Module WithContainer.

Section Fixture.
(** [Simple] is the class of the fixture's header that is not part of the
    tree; [double] stands for the floating-point values, which the class
    only stores. *)
Context {Simple double : Type}.

(** The members, an [int] as the integer it holds. *)
Record t : Type := {
  emptyVec : list Z;
  vec : list Z;
  lst : list double;
  classVec : list Simple;
  vec2D : list (list Z);
  arr : list Z;
}.

(** [WithContainer()]: the default member initialisers; [std::array<int,
    10> arr = {}] holds ten zeros. *)
Definition init : t := {|
  emptyVec := []; vec := []; lst := []; classVec := []; vec2D := [];
  arr := replicate 10 0%Z;
|}.

Definition addSimple (simple : Simple) (o : t) : t := {|
  emptyVec := emptyVec o; vec := vec o; lst := lst o;
  classVec := classVec o ++ [simple]; vec2D := vec2D o; arr := arr o;
|}.

Definition addDouble (d : double) (o : t) : t := {|
  emptyVec := emptyVec o; vec := vec o; lst := lst o ++ [d];
  classVec := classVec o; vec2D := vec2D o; arr := arr o;
|}.

Definition addInt (i : Z) (o : t) : t := {|
  emptyVec := emptyVec o; vec := vec o ++ [i]; lst := lst o;
  classVec := classVec o; vec2D := vec2D o; arr := arr o;
|}.

(** [addVec(std::vector<int> &&vec)]: inside the function the parameter
    is an lvalue, [push_back] copies it. *)
Definition addVec (v : list Z) (o : t) : t := {|
  emptyVec := emptyVec o; vec := vec o; lst := lst o;
  classVec := classVec o; vec2D := vec2D o ++ [v]; arr := arr o;
|}.

(** [addArr(int i, int n) { arr[i] = n; }]: [operator[]] checks no bound;
    [None] is the undefined behaviour of an index outside the array. *)
Definition addArr (i n : Z) (o : t) : option t :=
  if decide (0 ≤ i < 10)%Z
  then Some {|
    emptyVec := emptyVec o; vec := vec o; lst := lst o;
    classVec := classVec o; vec2D := vec2D o;
    arr := <[Z.to_nat i := n]> (arr o);
  |}
  else None.

Definition getEmptyVec (o : t) : list Z := emptyVec o.
Definition getVec (o : t) : list Z := vec o.
Definition getLst (o : t) : list double := lst o.
Definition getClassVec (o : t) : list Simple := classVec o.
Definition getVec2D (o : t) : list (list Z) := vec2D o.
Definition getArr (o : t) : list Z := arr o.

(** A call of one of the mutators, and a sequence of calls on one object;
    the sequence stops at the first call with undefined behaviour. *)
Inductive call : Type :=
  | AddSimple (simple : Simple)
  | AddDouble (d : double)
  | AddInt (i : Z)
  | AddVec (v : list Z)
  | AddArr (i n : Z).

Definition run1 (c : call) (o : t) : option t :=
  match c with
  | AddSimple simple => Some (addSimple simple o)
  | AddDouble d => Some (addDouble d o)
  | AddInt i => Some (addInt i o)
  | AddVec v => Some (addVec v o)
  | AddArr i n => addArr i n o
  end.

Fixpoint run (cs : list call) (o : t) : option t :=
  match cs with
  | [] => Some o
  | c :: cs => o' ← run1 c o; run cs o'
  end.

(** The values a sequence of calls passes to each mutator, in the order of
    the calls; for [addArr], those written to the element [k]. *)
Definition ints (cs : list call) : list Z :=
  omap (λ c, match c with AddInt i => Some i | _ => None end) cs.

Definition doubles (cs : list call) : list double :=
  omap (λ c, match c with AddDouble d => Some d | _ => None end) cs.

Definition simples (cs : list call) : list Simple :=
  omap (λ c, match c with AddSimple s => Some s | _ => None end) cs.

Definition vecs (cs : list call) : list (list Z) :=
  omap (λ c, match c with AddVec v => Some v | _ => None end) cs.

Definition written (k : nat) (cs : list call) : list Z :=
  omap (λ c, match c with
             | AddArr i n => if decide (i = Z.of_nat k) then Some n else None
             | _ => None
             end) cs.

End Fixture.

Arguments t : clear implicits.
Arguments call : clear implicits.

End WithContainer.

(* ===================================================================== *)
(** * Part II. Lemmas and theorems                                        *)
(* ===================================================================== *)

(** ** Little-endian sizes *)

Lemma to_N_byte_of_N (n : N) : Byte.to_N (byte_of_N n) = (n mod 256)%N.
Proof.
  unfold byte_of_N.
  destruct (Byte.of_N (n mod 256)) as [b|] eqn:E; simpl.
  - by apply Byte.to_of_N.
  - apply Byte.of_N_None_iff in E.
    pose proof (N.mod_upper_bound n 256). lia.
Qed.

Lemma length_le_bytes (k : nat) (x : N) : length (le_bytes k x) = k.
Proof. revert x. induction k as [|k IH]; intros x; simpl; [done|]. by rewrite IH. Qed.

Lemma le_value_le_bytes (k : nat) (x : N) :
  (x < 256 ^ N.of_nat k)%N → le_value (le_bytes k x) = x.
Proof.
  revert x. induction k as [|k IH]; intros x Hx.
  - simpl in *. lia.
  - cbn [le_bytes le_value]. rewrite to_N_byte_of_N, IH.
    + pose proof (N.div_mod x 256). lia.
    + rewrite Nat2N.inj_succ, N.pow_succ_r' in Hx.
      apply N.Div0.div_lt_upper_bound; lia.
Qed.

Lemma le_value_size (n : nat) :
  fits_size_t n = true →
  N.to_nat (le_value (le_bytes size_t_bytes (N.of_nat n))) = n.
Proof.
  unfold fits_size_t, size_t_limit. intros H%N.ltb_lt.
  rewrite le_value_le_bytes; [lia|].
  unfold size_t_bytes. change (256 ^ N.of_nat 8)%N with (2 ^ 64)%N. done.
Qed.

(** ** Structural induction on field types *)

Lemma ty_ind' (P : ty → Prop) :
  (∀ n, P (TRaw n)) →
  P TString →
  (∀ n t, P t → P (TArray n t)) →
  (∀ t, P t → P (TVector t)) →
  (∀ t, P t → P (TPointer t)) →
  (∀ ts, Forall P ts → P (TObject ts)) →
  ∀ t, P t.
Proof.
  intros Hraw Hstr Harr Hvec Hptr Hobj.
  fix IH 1.
  intros [n| |n t|t|t|ts];
    [apply Hraw | apply Hstr | apply Harr, IH | apply Hvec, IH
    | apply Hptr, IH | ].
  apply Hobj. induction ts as [|t ts IHts]; constructor; [apply IH | apply IHts].
Qed.

(** ** The primitives of the decoding monad *)

Lemma read_app (bs rest : list byte) (h : heap) :
  read (length bs) h (bs ++ rest) = (h, Ok (bs, rest)).
Proof.
  unfold read. rewrite decide_True by (rewrite length_app; lia).
  by rewrite take_app_length, drop_app_length.
Qed.

Lemma read_one (b : byte) (bs rest : list byte) (h : heap) :
  read 1 h ((b :: bs) ++ rest) = (h, Ok ([b], bs ++ rest)).
Proof. exact (read_app [b] (bs ++ rest) h). Qed.

Lemma read_cons (b : byte) (s : list byte) (h : heap) :
  read 1 h (b :: s) = (h, Ok ([b], s)).
Proof. exact (read_app [b] s h). Qed.

Lemma read_underrun (n : nat) (h : heap) (s : list byte) :
  length s < n → read n h s = (h, Raise OutOfRange).
Proof. intros H. unfold read. by rewrite decide_False by lia. Qed.

Lemma read_size_app (n : nat) (rest : list byte) (h : heap) :
  fits_size_t n = true →
  read_size h (le_bytes size_t_bytes (N.of_nat n) ++ rest) = (h, Ok (n, rest)).
Proof.
  intros Hn. unfold read_size, bind.
  rewrite <- (length_le_bytes size_t_bytes (N.of_nat n)) at 1.
  rewrite read_app. unfold ret. by rewrite le_value_size.
Qed.

Lemma prefix_of_insert_ge (h h' : heap) (l : nat) (c : option value) :
  h `prefix_of` h' → length h ≤ l → h `prefix_of` <[l := c]> h'.
Proof.
  intros [k ->] Hl. exists (<[l - length h := c]> k).
  by rewrite insert_app_r_alt.
Qed.

Lemma prefix_of_lookup (h h' : heap) (i : nat) :
  h `prefix_of` h' → i < length h → h' !! i = h !! i.
Proof. intros [k ->] Hi. by rewrite lookup_app_l. Qed.

Lemma agree_weaken (a b a' b' : nat) (h h' : heap) :
  agree a b h h' → a ≤ a' → b' ≤ b → agree a' b' h h'.
Proof. intros H ?? i Hi. apply H. lia. Qed.

Lemma agree_prefix (a b : nat) (h1 h2 h' : heap) :
  h1 `prefix_of` h2 → agree a (length h2) h2 h' → b ≤ length h1 →
  agree a b h1 h'.
Proof.
  intros Hp H Hb i Hi. rewrite H.
  - apply prefix_of_lookup; [done | lia].
  - apply prefix_length in Hp. lia.
Qed.

(** ** The convertor round trip *)

Lemma decode_each_roundtrip (hs : heap) (t : ty) (vs : list value) :
  Forall (λ v, roundtrips hs t v (default_value t)) vs →
  ∀ (h : heap) (rest : list byte),
    ∃ vs' h',
      decode_each (Convertor.decode t (default_value t)) (length vs) h
          (concat (map (Convertor.encode hs t) vs) ++ rest)
        = (h', Ok (vs', rest))
      ∧ h `prefix_of` h'
      ∧ ∀ h'', agree (length h) (length h') h' h'' →
               mapM (reify h'' t) vs' = mapM (reify hs t) vs.
Proof.
  induction 1 as [|v vs Hv _ IH]; intros h rest.
  - exists [], h. by repeat split.
  - cbn [length map concat decode_each]. rewrite <- app_assoc.
    destruct (Hv h (concat (map (Convertor.encode hs t) vs) ++ rest))
      as (v' & h1 & Hd & Hp1 & Hr1).
    destruct (IH h1 rest) as (vs' & h2 & Hds & Hp2 & Hr2).
    exists (v' :: vs'), h2. unfold bind at 1. rewrite Hd.
    unfold bind at 1. rewrite Hds. unfold ret. split; [done|].
    split; [by etrans|].
    intros h'' Hag. cbn [mapM]. 
    pose proof (prefix_length _ _ Hp1). pose proof (prefix_length _ _ Hp2).
    rewrite Hr1, Hr2; [done| |].
    + eapply agree_weaken; [done|lia..].
    + eapply agree_prefix; [done| |done]. eapply agree_weaken; [done|lia..].
Qed.

Lemma all_fields_length (f : ty → value → bool) (ts : list ty)
    (fs : list value) :
  all_fields f ts fs = true → length ts = length fs.
Proof.
  revert fs. induction ts as [|t ts IH]; intros [|v fs]; simpl; try done.
  intros [_ H]%andb_true_iff. f_equal. by apply IH.
Qed.

Lemma decode_fields_roundtrip (hs : heap) (ts : list ty) :
  Forall (λ t, ∀ v cur, wt hs t v = true → no_owned t cur = true →
               roundtrips hs t v cur) ts →
  ∀ (fs curs : list value),
    all_fields (wt hs) ts fs = true →
    all_curs no_owned ts curs = true →
    ∀ (h : heap) (rest : list byte),
      ∃ fs' h',
        decode_fields Convertor.decode ts curs h
            (concat (zip_fields (Convertor.encode hs) ts fs) ++ rest)
          = (h', Ok (fs', rest))
        ∧ h `prefix_of` h'
        ∧ length fs' = length ts
        ∧ ∀ h'', agree (length h) (length h') h' h'' →
                 mapM id (zip_fields (reify h'') ts fs')
                 = mapM id (zip_fields (reify hs) ts fs).
Proof.
  induction 1 as [|t ts Ht _ IH]; intros fs curs Hwt Hno h rest.
  - destruct fs; [|done]. exists [], h. by repeat split.
  - destruct fs as [|v fs]; [done|].
    cbn [all_fields all_curs] in Hwt, Hno.
    apply andb_true_iff in Hwt as [Hwt1 Hwt2].
    apply andb_true_iff in Hno as [Hno1 Hno2].
    cbn [zip_fields concat decode_fields]. rewrite <- app_assoc.
    destruct (Ht v _ Hwt1 Hno1 h
                (concat (zip_fields (Convertor.encode hs) ts fs) ++ rest))
      as (v' & h1 & Hd & Hp1 & Hr1).
    destruct (IH fs (tl curs) Hwt2 Hno2 h1 rest)
      as (fs' & h2 & Hds & Hp2 & Hlen & Hr2).
    exists (v' :: fs'), h2. unfold bind at 1. rewrite Hd.
    unfold bind at 1. rewrite Hds. unfold ret. split; [done|].
    split; [by etrans|]. split; [by cbn; rewrite Hlen|].
    intros h'' Hag. cbn [zip_fields mapM id].
    pose proof (prefix_length _ _ Hp1). pose proof (prefix_length _ _ Hp2).
    rewrite Hr2 by (eapply agree_weaken; [done|lia..]).
    rewrite Hr1; [done|].
    eapply agree_prefix; [done| |done]. eapply agree_weaken; [done|lia..].
Qed.

Lemma forallb_Forall_true {X} (f : X → bool) (l : list X) :
  forallb f l = true → Forall (λ x, f x = true) l.
Proof.
  induction l as [|x l IH]; simpl; [by constructor|].
  intros [??]%andb_true_iff. constructor; auto.
Qed.

(** The convertor decodes what it encoded: whatever follows the encoding in
    the source is left in the view, the store only gains cells, and the value
    decoded has the structure of the value encoded in every store that keeps
    the cells gained. *)
Lemma no_owned_default (t : ty) : no_owned t (default_value t) = true.
Proof.
  induction t as [n| |n t IH|t IH|t IH|ts IH] using ty_ind'; try done.
  cbn. induction IH as [|t ts Ht _ IHts]; [done|].
  cbn. by rewrite Ht, IHts.
Qed.

Lemma decode_encode (t : ty) :
  ∀ (hs : heap) (v cur : value),
    wt hs t v = true → no_owned t cur = true → roundtrips hs t v cur.
Proof.
  induction t as [n| |n t IH|t IH|t IH|ts IH] using ty_ind';
    intros hs v cur Hwt Hno h rest.
  - (* raw aggregate *)
    destruct v as [bs| | | |]; try done. cbn in Hwt.
    apply bool_decide_eq_true in Hwt as <-.
    exists (VRaw bs), h. cbn [Convertor.encode Convertor.decode].
    unfold bind. rewrite read_app. by repeat split.
  - (* string *)
    destruct v as [|s| | |]; try done. cbn in Hwt.
    exists (VString s), h. cbn [Convertor.encode Convertor.decode].
    unfold bind. rewrite <- app_assoc.
    rewrite read_size_app, read_app by done. by repeat split.
  - (* fixed-size container *)
    destruct v as [| |vs| |]; try done. cbn in Hwt.
    apply andb_true_iff in Hwt as [<-%bool_decide_eq_true Hvs].
    apply forallb_Forall_true in Hvs.
    destruct (decode_each_roundtrip hs t vs) with (h := h) (rest := rest)
      as (vs' & h' & Hd & Hp & Hr).
    { eapply Forall_impl; [done|]. intros v Hv. apply IH; [done|].
      apply no_owned_default. }
    exists (VSeq vs'), h'. cbn [Convertor.encode Convertor.decode].
    unfold bind. rewrite Hd. unfold ret.
    repeat split; [done|]. intros h'' Hag. cbn [reify]. by rewrite Hr.
  - (* variable-size container *)
    destruct v as [| |vs| |]; try done. cbn in Hwt.
    apply andb_true_iff in Hwt as [Hlen Hvs].
    apply forallb_Forall_true in Hvs.
    destruct (decode_each_roundtrip hs t vs) with (h := h) (rest := rest)
      as (vs' & h' & Hd & Hp & Hr).
    { eapply Forall_impl; [done|]. intros v Hv. apply IH; [done|].
      apply no_owned_default. }
    exists (VSeq vs'), h'. cbn [Convertor.encode Convertor.decode].
    unfold bind at 1. rewrite <- app_assoc.
    rewrite read_size_app by done. unfold bind. rewrite Hd. unfold ret.
    repeat split; [done|]. intros h'' Hag. cbn [reify]. by rewrite Hr.
  - (* owned pointer *)
    assert (destroy cur = ret tt) as Hdes.
    { destruct cur as [| | |[?|]|]; done. }
    destruct v as [| | |[l|]|]; try done; cbn in Hwt;
      cbn [Convertor.encode Convertor.decode].
    + destruct (hs !! l) as [[v0|]|] eqn:Hl; try done.
      destruct (IH hs v0 (default_value t) Hwt (no_owned_default t))
        with (h := h ++ [Some (default_value t)]) (rest := rest)
        as (v' & h2 & Hd & Hp & Hr).
      exists (VPtr (Some (length h))), (<[length h := Some v']> h2).
      unfold bind at 1. rewrite read_one.
      unfold bind at 1. rewrite Hdes. unfold ret at 1.
      rewrite bool_decide_eq_false_2 by done.
      unfold bind at 1. unfold alloc at 1.
      unfold bind at 1. rewrite Hd.
      unfold bind, store, ret.
      pose proof (prefix_length _ _ Hp) as Hlen. rewrite length_app in Hlen.
      cbn in Hlen.
      split; [done|]. split.
      { apply prefix_of_insert_ge; [|done]. etrans; [|done]. by apply prefix_app_r. }
      intros h'' Hag. rewrite length_insert in Hag. cbn [reify].
      rewrite Hag, list_lookup_insert_eq, Hl by lia.
      rewrite Hr; [done|]. intros i Hi. rewrite length_app in Hi. cbn in Hi.
      rewrite Hag by lia. apply list_lookup_insert_ne. lia.
    + exists (VPtr None), h.
      unfold bind at 1. rewrite (read_one Byte.x00 []).
      unfold bind at 1. rewrite Hdes. unfold ret at 1.
      rewrite bool_decide_eq_true_2 by done. by repeat split.
  - (* nested object *)
    destruct v as [| | | |fs]; try done. cbn in Hwt.
    cbn [no_owned] in Hno.
    destruct (decode_fields_roundtrip hs ts) with
      (fs := fs) (curs := fields_of cur) (h := h) (rest := rest)
      as (fs' & h' & Hd & Hp & Hlen & Hr); [|done..|].
    { eapply Forall_impl; [done|]. intros t Ht v c ??. by apply Ht. }
    exists (VObj fs'), h'. cbn [Convertor.encode Convertor.decode].
    unfold bind. rewrite Hd. unfold ret.
    repeat split; [done|]. intros h'' Hag. cbn [reify].
    rewrite Hlen, Hr by done.
    by rewrite (all_fields_length _ _ _ Hwt).
Qed.

Lemma wt_reify (t : ty) :
  ∀ (h : heap) (v : value), wt h t v = true → is_Some (reify h t v).
Proof.
  induction t as [n| |n t IH|t IH|t IH|ts IH] using ty_ind'; intros h v Hwt.
  - by destruct v.
  - by destruct v.
  - destruct v as [| |vs| |]; try done. cbn in *.
    apply andb_true_iff in Hwt as [_ Hvs%forallb_Forall_true].
    apply fmap_is_Some, mapM_is_Some.
    eapply Forall_impl; [done|]. intros v Hv. by apply IH.
  - destruct v as [| |vs| |]; try done. cbn in *.
    apply andb_true_iff in Hwt as [_ Hvs%forallb_Forall_true].
    apply fmap_is_Some, mapM_is_Some.
    eapply Forall_impl; [done|]. intros v Hv. by apply IH.
  - destruct v as [| | |[l|]|]; try done; cbn in *.
    destruct (h !! l) as [[v0|]|]; try done.
    apply fmap_is_Some. by apply IH.
  - destruct v as [| | | |fs]; try done. cbn in *.
    rewrite bool_decide_eq_true_2 by by eapply all_fields_length.
    apply fmap_is_Some. revert fs Hwt.
    induction IH as [|t ts Ht _ IHts]; intros [|v fs] Hwt; try done.
    cbn in Hwt. apply andb_true_iff in Hwt as [H1 H2].
    cbn. destruct (Ht h v H1) as [s ->]. destruct (IHts fs H2) as [ss ->].
    by eexists.
Qed.

(** ** The chain: encoding *)

Lemma chain_encoding_cons (hs : heap) (a : AttrContainer.node)
    (c : list AttrContainer.node) :
  chain_encoding hs (a :: c)
  = Convertor.encode hs (AttrContainer.attr_type a) (AttrContainer.reference a)
      ++ chain_encoding hs c.
Proof. done. Qed.

(** The chain appends the encodings of its fields in declaration order. *)
Lemma serialize_chain (hs : heap) (c : list AttrContainer.node)
    (str : list byte) :
  AttrContainer.serialize spec_convertor hs c str = str ++ chain_encoding hs c.
Proof.
  revert str. induction c as [|a c IH]; intros str.
  - by rewrite app_nil_r.
  - cbn [AttrContainer.serialize]. destruct c as [|b c].
    + cbn. by rewrite app_nil_r.
    + rewrite IH, chain_encoding_cons. cbn [conv_serialize spec_convertor].
      by rewrite <- app_assoc.
Qed.

(** For any convertor, serialising a chain is serialising its head and then
    its tail: the guard on [sizeof...(Types)] only skips a call that does
    nothing. *)
Lemma serialize_cons (conv : Conv) (hs : heap) (a : AttrContainer.node)
    (c : list AttrContainer.node) (str : list byte) :
  AttrContainer.serialize conv hs (a :: c) str
  = AttrContainer.serialize conv hs c
      (conv_serialize conv hs (AttrContainer.attr_type a)
         (AttrContainer.reference a) str).
Proof. by destruct c. Qed.

Lemma serialize_app (conv : Conv) (hs : heap)
    (c1 c2 : list AttrContainer.node) (str : list byte) :
  AttrContainer.serialize conv hs (c1 ++ c2) str
  = AttrContainer.serialize conv hs c2 (AttrContainer.serialize conv hs c1 str).
Proof.
  revert str. induction c1 as [|a c1 IH]; intros str; [done|].
  rewrite <- app_comm_cons, !serialize_cons. apply IH.
Qed.

Lemma release_no_owner (a : AttrContainer.node) (h : heap) :
  owned a = [] → AttrContainer.release a h = (a, h, Ok tt).
Proof.
  unfold owned, AttrContainer.release.
  destruct (is_pointer_v _); [|done].
  by destruct (AttrContainer.reference a) as [| | |[?|]|].
Qed.

Lemma release_owner (a : AttrContainer.node) (h : heap) (l : loc) (v : value) :
  owned a = [l] → h !! l = Some (Some v) →
  AttrContainer.release a h
  = (AttrContainer.set_reference (VPtr None) a, <[l := None]> h, Ok tt).
Proof.
  unfold owned, AttrContainer.release.
  destruct (is_pointer_v _); [|done].
  destruct (AttrContainer.reference a) as [| | |[?|]|]; try done.
  intros [= ->] Hl. unfold cpp_delete. by rewrite Hl.
Qed.

Lemma owned_cases (a : AttrContainer.node) :
  owned a = []
  ∨ ∃ l, owned a = [l]
         ∧ AttrContainer.reference a = VPtr (Some l)
         ∧ is_pointer_v (AttrContainer.attr_type a) = true.
Proof.
  unfold owned. destruct (is_pointer_v _); [|by left].
  destruct (AttrContainer.reference a) as [| | |[l|]|]; eauto.
Qed.

Lemma no_owned_not_owner (a : AttrContainer.node) :
  owned a = [] →
  is_pointer_v (AttrContainer.attr_type a)
  || no_owned (AttrContainer.attr_type a) (AttrContainer.reference a) = true →
  no_owned (AttrContainer.attr_type a) (AttrContainer.reference a) = true.
Proof.
  unfold owned. destruct (AttrContainer.attr_type a); cbn; try done.
  by destruct (AttrContainer.reference a) as [| | |[l|]|].
Qed.

Lemma liveb_true (h : heap) (l : loc) :
  liveb h l = true ↔ live h l.
Proof.
  unfold liveb, live. destruct (h !! l) as [[v|]|]; split;
    try done; try (intros [? [=]]); eauto.
Qed.

Lemma live_lt (h : heap) (l : loc) : live h l → l < length h.
Proof. intros [v Hv]. by eapply lookup_lt_Some. Qed.

Lemma release_spec (b : AttrContainer.node) (h : heap) :
  (∀ l, l ∈ owned b → live h l) →
  is_pointer_v (AttrContainer.attr_type b)
  || no_owned (AttrContainer.attr_type b) (AttrContainer.reference b) = true →
  ∃ b1 h1,
    AttrContainer.release b h = (b1, h1, Ok tt)
    ∧ AttrContainer.attr_type b1 = AttrContainer.attr_type b
    ∧ AttrContainer.name b1 = AttrContainer.name b
    ∧ no_owned (AttrContainer.attr_type b) (AttrContainer.reference b1) = true
    ∧ owned b1 = []
    ∧ length h1 = length h
    ∧ (∀ i, i ∉ owned b → h1 !! i = h !! i)
    ∧ (∀ i, i ∈ owned b → h1 !! i = Some None).
Proof.
  intros Hlive Hno.
  destruct (owned_cases b) as [Hb | (l & Hb & Href & Hptr)].
  - exists b, h. rewrite release_no_owner by done.
    repeat split; try done.
    + by apply no_owned_not_owner.
    + rewrite Hb. by intros i ?%elem_of_nil.
  - destruct (Hlive l) as [v Hv]; [rewrite Hb; by left|].
    exists (AttrContainer.set_reference (VPtr None) b), (<[l := None]> h).
    rewrite (release_owner b h l v) by done.
    repeat split; try done.
    + cbn. by destruct (AttrContainer.attr_type b).
    + unfold owned. cbn. by destruct (is_pointer_v _).
    + by rewrite length_insert.
    + intros i Hi. apply list_lookup_insert_ne. rewrite Hb in Hi.
      intros ->. apply Hi. by left.
    + intros i Hi. rewrite Hb in Hi. apply list_elem_of_singleton in Hi as ->.
      apply list_lookup_insert_eq. by eapply lookup_lt_Some.
Qed.

(** Decoding a chain's encoding into a chain of the same types: every field
    is decoded, the view is left on what followed the encoding, the pointees
    the destination owned are freed, no other cell that existed is touched,
    and each field has the structure of the field encoded. *)
Lemma deserialize_chain (hs : heap) (c : list AttrContainer.node) :
  chain_wt hs c = true →
  ∀ (d : list AttrContainer.node) (h : heap) (n : nat) (rest : list byte),
    map AttrContainer.attr_type d = map AttrContainer.attr_type c →
    NoDup (owned_locs d) →
    (∀ l, l ∈ owned_locs d → l < n ∧ live h l) →
    n ≤ length h →
    forallb (λ a, is_pointer_v (AttrContainer.attr_type a)
                  || no_owned (AttrContainer.attr_type a)
                       (AttrContainer.reference a)) d = true →
    ∃ d' h',
      AttrContainer.deserialize spec_convertor d h
          (chain_encoding hs c ++ rest) = (d', h', Ok rest)
      ∧ map AttrContainer.attr_type d' = map AttrContainer.attr_type d
      ∧ map AttrContainer.name d' = map AttrContainer.name d
      ∧ length h ≤ length h'
      ∧ agree n (length h) h h'
      ∧ (∀ l, l < n → l ∉ owned_locs d → h' !! l = h !! l)
      ∧ (∀ l, l ∈ owned_locs d → h' !! l = Some None)
      ∧ Forall2 (λ a a',
           ∀ h'', agree (length h) (length h') h' h'' →
                  reify h'' (AttrContainer.attr_type a)
                    (AttrContainer.reference a')
                  = reify hs (AttrContainer.attr_type a)
                      (AttrContainer.reference a)) c d'.
Proof.
  induction c as [|a c IH]; intros Hwt d h n rest Hty Hnd Hlive Hn Hno.
  - destruct d; [|done]. exists [], h. cbn.
    split; [done|]. split; [done|]. split; [done|]. split; [done|].
    split; [by intros ??|]. split; [done|].
    split; [by intros l ?%elem_of_nil|constructor].
  - destruct d as [|b d]; [done|].
    cbn in Hwt. apply andb_true_iff in Hwt as [Hwta Hwtc].
    cbn in Hty. injection Hty as Htb Hty.
    cbn in Hno. apply andb_true_iff in Hno as [Hnob Hnod].
    unfold owned_locs in Hnd, Hlive. cbn [map concat] in Hnd, Hlive.
    fold (owned_locs d) in Hnd, Hlive.
    apply NoDup_app in Hnd as (_ & Hdisj & Hndd).
    destruct (release_spec b h) as (b1 & h1 & Hrel & Hb1t & Hb1n & Hb1no
                                    & _ & Hlen1 & Hkeep1 & Hfree1); [|done|].
    { intros l Hl. apply Hlive. apply elem_of_app. by left. }
    rewrite chain_encoding_cons, <- app_assoc.
    destruct (decode_encode (AttrContainer.attr_type a) hs
                (AttrContainer.reference a) (AttrContainer.reference b1))
      with (h := h1) (rest := chain_encoding hs c ++ rest)
      as (v' & h2 & Hdec & Hp & Hfoot); [done|by rewrite <- Htb|].
    pose proof (prefix_length _ _ Hp) as Hlen2.
    destruct (IH Hwtc d h2 n rest) as
      (d' & h' & Hd & Hdt & Hdn & Hlen' & Hag' & Hframe' & Hfreed' & Hvals);
      [done|done| |lia|done|].
    { intros l Hl. destruct (Hlive l) as [Hln Hll]; [apply elem_of_app; by right|].
      split; [done|]. destruct Hll as [w Hw]. exists w.
      rewrite (prefix_of_lookup h1 h2) by (done || lia).
      rewrite Hkeep1; [done|]. intros Hin. by eapply Hdisj. }
    exists (AttrContainer.set_reference v' b1 :: d'), h'.
    cbn [AttrContainer.deserialize]. rewrite Hrel.
    cbn [conv_deserialize spec_convertor]. rewrite Hb1t, Htb, Hdec, Hd.
    split; [done|]. split; [cbn; by rewrite Hb1t, Hdt|].
    split; [cbn; by rewrite Hb1n, Hdn|].
    split; [lia|].
    assert (∀ i, i < length h → i ∉ owned b → h2 !! i = h !! i) as Hold.
    { intros i Hi Hnot. rewrite (prefix_of_lookup h1 h2) by (done || lia).
      by apply Hkeep1. }
    assert (∀ i, i ∈ owned b → i < n) as Hownlt.
    { intros i Hi. apply Hlive, elem_of_app. by left. }
    split.
    { intros i Hi. rewrite Hag' by lia. apply Hold; [lia|].
      intros Hin%Hownlt. lia. }
    split.
    { intros l Hl Hnot. rewrite Hframe'; [|done|].
      - apply Hold; [lia|]. intros ?. apply Hnot, elem_of_app. by left.
      - intros ?. apply Hnot, elem_of_app. by right. }
    split.
    { intros l [Hl|Hl]%elem_of_app; [|by apply Hfreed'].
      rewrite Hframe'.
      - pose proof (Hownlt _ Hl).
        rewrite (prefix_of_lookup h1 h2) by (done || lia). by apply Hfree1.
      - by apply Hownlt.
      - intros ?. by eapply Hdisj. }
    constructor.
    + intros h'' Hag. cbn [AttrContainer.reference AttrContainer.set_reference].
      apply Hfoot. intros i Hi. rewrite Hag by lia. apply Hag'. lia.
    + eapply Forall2_impl; [done|]. cbn. intros x y Hxy h'' Hag.
      apply Hxy. eapply agree_weaken; [done|lia..].
Qed.

Lemma dest_ok_elim (h : heap) (d : list AttrContainer.node) :
  dest_ok h d = true →
  NoDup (owned_locs d)
  ∧ (∀ l, l ∈ owned_locs d → l < length h ∧ live h l)
  ∧ forallb (λ a, is_pointer_v (AttrContainer.attr_type a)
                  || no_owned (AttrContainer.attr_type a)
                       (AttrContainer.reference a)) d = true.
Proof.
  unfold dest_ok. intros [[Hnd Hlive]%andb_true_iff Hno]%andb_true_iff.
  apply bool_decide_eq_true in Hnd. apply forallb_Forall_true in Hlive.
  repeat split; try done.
  - eapply live_lt, liveb_true. rewrite Forall_forall in Hlive. by apply Hlive.
  - apply liveb_true. rewrite Forall_forall in Hlive. by apply Hlive.
Qed.

(** C1.  Round trip.  For every chain [c] of well-formed fields, of whatever
    supported types: the convertor decodes each field's encoding back to a
    value of the same structure (from any store, before any suffix), and
    decoding what the chain [c] serialised into a chain [d] of the same type
    sequence succeeds, consumes the whole string, keeps types and names, and
    leaves in every field, in declaration order, a value structurally equal
    to the field of [c] it was encoded from. *)
Theorem roundtrip_chain (hs h : heap) (c d : list AttrContainer.node) :
  chain_wt hs c = true →
  map AttrContainer.attr_type d = map AttrContainer.attr_type c →
  dest_ok h d = true →
  Forall (λ a, ∀ cur,
            no_owned (AttrContainer.attr_type a) cur = true →
            roundtrips hs (AttrContainer.attr_type a)
              (AttrContainer.reference a) cur) c
  ∧ ∃ d' h',
      AttrContainer.deserialize spec_convertor d h
        (AttrContainer.serialize spec_convertor hs c []) = (d', h', Ok [])
      ∧ map AttrContainer.attr_type d' = map AttrContainer.attr_type c
      ∧ map AttrContainer.name d' = map AttrContainer.name d
      ∧ Forall2 (λ a a',
           is_Some (reify hs (AttrContainer.attr_type a)
                      (AttrContainer.reference a))
           ∧ reify h' (AttrContainer.attr_type a) (AttrContainer.reference a')
             = reify hs (AttrContainer.attr_type a)
                 (AttrContainer.reference a)) c d'.
Proof.
  intros Hwt Hty (Hnd & Hlive & Hno)%dest_ok_elim. split.
  - apply forallb_Forall_true in Hwt. eapply Forall_impl; [done|].
    intros a Ha cur Hcur. by apply decode_encode.
  - destruct (deserialize_chain hs c Hwt d h (length h) [])
      as (d' & h' & Hd & Hdt & Hdn & _ & _ & _ & _ & Hvals); try done.
    exists d', h'. rewrite serialize_chain. cbn [app].
    rewrite app_nil_r in Hd. split; [done|]. split; [congruence|].
    split; [done|].
    apply forallb_Forall_true in Hwt.
    clear -Hwt Hvals. induction Hvals as [|a a' c d' Ha _ IH]; [constructor|].
    apply Forall_cons in Hwt as [Hwa Hwc]. constructor; [|by apply IH].
    split; [by apply wt_reify|]. by apply Ha.
Qed.

(** ** The chain: composition *)

Lemma deserialize_app (conv : Conv) (d1 d2 : list AttrContainer.node)
    (h : heap) (str : list byte) :
  AttrContainer.deserialize conv (d1 ++ d2) h str
  = match AttrContainer.deserialize conv d1 h str with
    | (d1', h1, Ok str1) =>
        let '(d2', h2, res) := AttrContainer.deserialize conv d2 h1 str1 in
        (d1' ++ d2', h2, res)
    | (d1', h1, Raise e) => (d1' ++ d2, h1, Raise e)
    end.
Proof.
  revert h str. induction d1 as [|a d1 IH]; intros h str.
  - cbn. by destruct (AttrContainer.deserialize conv d2 h str) as [[??]?].
  - cbn [app AttrContainer.deserialize].
    destruct (AttrContainer.release a h) as [[a1 h1] [[]|e]]; [|done].
    destruct (conv_deserialize conv _ _ h1 str) as [h2 [[r str']|e]]; [|done].
    rewrite IH.
    destruct (AttrContainer.deserialize conv d1 h2 str') as [[d1' h3] [str1|e]];
      [|done].
    by destruct (AttrContainer.deserialize conv d2 h3 str1) as [[??]?].
Qed.

(** C7.  The chain with no field is the identity of encode and decode, for
    every convertor: its [serialize] returns the string it was given, its
    [deserialize] returns with the view, the free store and the (empty) chain
    as they were; running it before or after another chain changes nothing,
    and a last node that skips the call on its empty tail does what the call
    would have done. *)
Theorem empty_chain_identity (conv : Conv) (hs h : heap) (str : list byte)
    (c : list AttrContainer.node) (a : AttrContainer.node) :
  AttrContainer.serialize conv hs [] str = str
  ∧ AttrContainer.deserialize conv [] h str = ([], h, Ok str)
  ∧ AttrContainer.serialize conv hs (c ++ []) str
    = AttrContainer.serialize conv hs [] (AttrContainer.serialize conv hs c str)
  ∧ AttrContainer.serialize conv hs ([] ++ c) str
    = AttrContainer.serialize conv hs c (AttrContainer.serialize conv hs [] str)
  ∧ AttrContainer.serialize conv hs c str
    = AttrContainer.serialize conv hs (c ++ []) str
  ∧ AttrContainer.serialize conv hs [a] str
    = AttrContainer.serialize conv hs []
        (conv_serialize conv hs (AttrContainer.attr_type a)
           (AttrContainer.reference a) str)
  ∧ AttrContainer.deserialize conv (c ++ []) h str
    = AttrContainer.deserialize conv c h str
  ∧ AttrContainer.deserialize conv ([] ++ c) h str
    = AttrContainer.deserialize conv c h str.
Proof.
  repeat split; try done.
  - apply serialize_app.
  - by rewrite app_nil_r.
  - by rewrite app_nil_r.
Qed.

(** ** The chain: pointer fields *)

Lemma decode_pointer_some (t : ty) (hs : heap) (ls : loc) (vs : value)
    (h : heap) (rest : list byte) :
  hs !! ls = Some (Some vs) → wt hs t vs = true →
  ∃ v' h2,
    Convertor.decode (TPointer t) (VPtr None) h
        (Convertor.encode hs (TPointer t) (VPtr (Some ls)) ++ rest)
      = (h2, Ok (VPtr (Some (length h)), rest))
    ∧ h `prefix_of` h2
    ∧ h2 !! length h = Some (Some v')
    ∧ ∀ h'', agree (length h) (length h2) h2 h'' →
             reify h'' t v' = reify hs t vs.
Proof.
  intros Hl Hwt.
  destruct (decode_encode t hs vs (default_value t) Hwt (no_owned_default t))
    with (h := h ++ [Some (default_value t)]) (rest := rest)
    as (v' & h2 & Hd & Hp & Hr).
  pose proof (prefix_length _ _ Hp) as Hlen. rewrite length_app in Hlen.
  cbn in Hlen.
  exists v', (<[length h := Some v']> h2).
  cbn [Convertor.encode Convertor.decode]. rewrite Hl.
  unfold bind at 1. rewrite read_one.
  unfold bind at 1. cbn [destroy]. unfold ret at 1.
  rewrite bool_decide_eq_false_2 by done.
  unfold bind at 1. unfold alloc at 1.
  unfold bind at 1. rewrite Hd. unfold bind, store, ret.
  split; [done|]. split.
  { apply prefix_of_insert_ge; [|done]. etrans; [|done]. by apply prefix_app_r. }
  split; [apply list_lookup_insert_eq; lia|].
  intros h'' Hag. rewrite length_insert in Hag.
  apply Hr. intros i Hi. rewrite length_app in Hi. cbn in Hi.
  rewrite Hag by lia. apply list_lookup_insert_ne. lia.
Qed.

(** C3.  Decoding into a pointer field that owns a live pointee [l].
    (1) For every convertor, the convertor is invoked on the store in which
    [l] has been freed and with the field already null.  (2) With the
    specified convertor, an encoded null pointer leaves the field null and
    the store equal to the old one with [l] freed: nothing is allocated,
    nothing else is freed.  (3) An encoded non-null pointer leaves the field
    on a cell that had never been allocated, holding a value structurally
    equal to the encoded pointee; [l] is freed, once, and every other cell
    that existed is untouched.  In (2) and (3) the traversal goes on with the
    rest of the chain: no fault is raised. *)
Theorem pointer_field_decode (t : ty) (a : AttrContainer.node)
    (next : list AttrContainer.node) (h : heap) (l : loc) (old : value) :
  AttrContainer.attr_type a = TPointer t →
  AttrContainer.reference a = VPtr (Some l) →
  h !! l = Some (Some old) →
  (∀ conv str,
     AttrContainer.deserialize conv (a :: next) h str
     = match conv_deserialize conv (TPointer t) (VPtr None)
               (<[l := None]> h) str with
       | (h2, Raise e) =>
           (AttrContainer.set_reference (VPtr None) a :: next, h2, Raise e)
       | (h2, Ok (r, str')) =>
           let '(next', h3, res) :=
             AttrContainer.deserialize conv next h2 str' in
           (AttrContainer.set_reference r a :: next', h3, res)
       end)
  ∧ (∀ hs rest,
       AttrContainer.deserialize spec_convertor (a :: next) h
         (Convertor.encode hs (TPointer t) (VPtr None) ++ rest)
       = let '(next', h3, res) :=
           AttrContainer.deserialize spec_convertor next (<[l := None]> h) rest
         in (AttrContainer.set_reference (VPtr None) a :: next', h3, res))
  ∧ (∀ hs ls vs rest,
       hs !! ls = Some (Some vs) → wt hs t vs = true →
       ∃ h2 v',
         AttrContainer.deserialize spec_convertor (a :: next) h
           (Convertor.encode hs (TPointer t) (VPtr (Some ls)) ++ rest)
         = (let '(next', h3, res) :=
              AttrContainer.deserialize spec_convertor next h2 rest in
            (AttrContainer.set_reference (VPtr (Some (length h))) a :: next',
             h3, res))
         ∧ h !! length h = None
         ∧ h2 !! length h = Some (Some v')
         ∧ reify h2 t v' = reify hs t vs
         ∧ is_Some (reify hs t vs)
         ∧ h2 !! l = Some None
         ∧ ∀ i, i < length h → i ≠ l → h2 !! i = h !! i).
Proof.
  intros Hty Href Hl.
  assert (∀ conv str,
     AttrContainer.deserialize conv (a :: next) h str
     = match conv_deserialize conv (TPointer t) (VPtr None)
               (<[l := None]> h) str with
       | (h2, Raise e) =>
           (AttrContainer.set_reference (VPtr None) a :: next, h2, Raise e)
       | (h2, Ok (r, str')) =>
           let '(next', h3, res) :=
             AttrContainer.deserialize conv next h2 str' in
           (AttrContainer.set_reference r a :: next', h3, res)
       end) as Hstep.
  { intros conv str. cbn [AttrContainer.deserialize].
    rewrite (release_owner a h l old); [|by unfold owned; rewrite Hty, Href|done].
    cbn [AttrContainer.attr_type AttrContainer.reference
         AttrContainer.set_reference]. rewrite Hty.
    by destruct (conv_deserialize conv _ _ _ str) as [h2 [[r str']|e]]. }
  pose proof (lookup_lt_Some _ _ _ Hl) as Hlt.
  split; [done|]. split.
  - intros hs rest. rewrite Hstep. cbn [conv_deserialize spec_convertor].
    cbn [Convertor.encode Convertor.decode].
    unfold bind at 1. rewrite (read_one Byte.x00 []).
    unfold bind at 1. cbn [destroy]. unfold ret at 1.
    by rewrite bool_decide_eq_true_2 by done.
  - intros hs ls vs rest Hls Hwt.
    destruct (decode_pointer_some t hs ls vs (<[l := None]> h) rest Hls Hwt)
      as (v' & h2 & Hd & Hp & Hcell & Hr).
    rewrite length_insert in Hd, Hcell, Hr.
    exists h2, v'. rewrite Hstep. cbn [conv_deserialize spec_convertor].
    rewrite Hd. split; [done|].
    split; [by apply lookup_ge_None|]. split; [done|].
    split; [by apply Hr|]. split; [by apply wt_reify|].
    split.
    + rewrite (prefix_of_lookup _ _ _ Hp) by (by rewrite length_insert).
      by apply list_lookup_insert_eq.
    + intros i Hi Hne.
      rewrite (prefix_of_lookup _ _ _ Hp) by (by rewrite length_insert).
      by apply list_lookup_insert_ne.
Qed.

(** ** The convertor on arbitrary input *)

Lemma extends_ret {A} (a : A) : extends_store (ret a).
Proof. by intros h s. Qed.

Lemma extends_bind {A B} (m : Dec A) (k : A → Dec B) :
  extends_store m → (∀ a, extends_store (k a)) → extends_store (bind m k).
Proof.
  intros Hm Hk h s. unfold bind. specialize (Hm h s).
  destruct (m h s) as [h' [[a s']|e]]; cbn in *; [|done].
  etrans; [done|]. apply Hk.
Qed.

Lemma extends_read (n : nat) : extends_store (read n).
Proof. intros h s. unfold read. by destruct (decide _). Qed.

Lemma extends_read_size : extends_store read_size.
Proof.
  apply extends_bind; [apply extends_read|]. intros; apply extends_ret.
Qed.

Lemma extends_decode_each (d : Dec value) (n : nat) :
  extends_store d → extends_store (decode_each d n).
Proof.
  intros Hd. induction n as [|n IH]; [apply extends_ret|].
  cbn. apply extends_bind; [done|]. intros v.
  apply extends_bind; [done|]. intros vs. apply extends_ret.
Qed.

Lemma extends_destroy (t : ty) (cur : value) :
  no_owned (TPointer t) cur = true → destroy cur = ret tt.
Proof. by destruct cur as [| | |[?|]|]. Qed.

(** New pointee: allocate, decode into the cell, take ownership. *)
Lemma extends_new (t : ty) (d : Dec value) :
  extends_store d →
  extends_store
    (bind (alloc (default_value t))
       (λ l, bind d (λ v, bind (store l v) (λ _, ret (VPtr (Some l)))))).
Proof.
  intros Hd h s. unfold bind at 1. unfold alloc at 1. unfold bind at 1.
  specialize (Hd (h ++ [Some (default_value t)]) s).
  destruct (d _ s) as [h2 [[v s']|e]]; cbn in *.
  - apply prefix_of_insert_ge; [|done]. etrans; [|done]. by apply prefix_app_r.
  - etrans; [|done]. by apply prefix_app_r.
Qed.

Lemma decode_extends (t : ty) :
  ∀ cur, no_owned t cur = true → extends_store (Convertor.decode t cur).
Proof.
  induction t as [n| |n t IH|t IH|t IH|ts IH] using ty_ind'; intros cur Hno;
    cbn [Convertor.decode].
  - apply extends_bind; [apply extends_read|]. intros; apply extends_ret.
  - apply extends_bind; [apply extends_read_size|]. intros n.
    apply extends_bind; [apply extends_read|]. intros; apply extends_ret.
  - apply extends_bind; [|intros; apply extends_ret].
    apply extends_decode_each, IH, no_owned_default.
  - apply extends_bind; [apply extends_read_size|]. intros n.
    apply extends_bind; [|intros; apply extends_ret].
    apply extends_decode_each, IH, no_owned_default.
  - apply extends_bind; [apply extends_read|]. intros flag.
    rewrite (extends_destroy t cur Hno).
    apply extends_bind; [apply extends_ret|]. intros _.
    destruct (bool_decide _); [apply extends_ret|].
    apply extends_new, IH, no_owned_default.
  - apply extends_bind; [|intros; apply extends_ret].
    cbn [no_owned] in Hno. revert Hno. generalize (fields_of cur) as curs.
    induction IH as [|t ts Ht _ IHts]; intros curs Hno; [apply extends_ret|].
    cbn in Hno. apply andb_true_iff in Hno as [H1 H2].
    cbn [decode_fields]. apply extends_bind; [by apply Ht|]. intros f.
    apply extends_bind; [by apply IHts|]. intros fs. apply extends_ret.
Qed.

(** A pointer the convertor returns is null or designates the cell it just
    allocated, which is live. *)
Lemma decode_pointer_result (t : ty) (cur : value) (h h' : heap)
    (s s' : list byte) (v : value) :
  no_owned (TPointer t) cur = true →
  Convertor.decode (TPointer t) cur h s = (h', Ok (v, s')) →
  v = VPtr None ∨ (v = VPtr (Some (length h)) ∧ live h' (length h)).
Proof.
  intros Hno. cbn [Convertor.decode]. rewrite (extends_destroy t cur Hno).
  unfold bind at 1. destruct (read 1 h s) as [h0 [[flag s0]|e]] eqn:Hrd; [|done].
  assert (h0 = h) as ->.
  { unfold read in Hrd. by destruct (decide _); injection Hrd as <-. }
  unfold bind at 1. unfold ret at 1.
  destruct (bool_decide _).
  - intros [= <- <- <-]. by left.
  - unfold bind at 1. unfold alloc at 1. unfold bind at 1.
    pose proof (decode_extends t (default_value t) (no_owned_default t)
                  (h ++ [Some (default_value t)]) s0) as Hp.
    destruct (Convertor.decode t _ _ s0) as [h2 [[w s2]|e]]; [|done].
    cbn in Hp. unfold bind, store, ret. intros [= <- <- <-]. right.
    split; [done|]. exists w. apply list_lookup_insert_eq.
    apply prefix_length in Hp. rewrite length_app in Hp. cbn in Hp. lia.
Qed.

(** ** The chain on arbitrary input *)

Lemma owned_set_reference_decoded (b1 : AttrContainer.node) (h1 h2 : heap)
    (s s' : list byte) (v : value) :
  no_owned (AttrContainer.attr_type b1) (AttrContainer.reference b1) = true →
  Convertor.decode (AttrContainer.attr_type b1) (AttrContainer.reference b1)
    h1 s = (h2, Ok (v, s')) →
  ∀ l, l ∈ owned (AttrContainer.set_reference v b1) →
       l = length h1 ∧ live h2 l.
Proof.
  intros Hno Hd l. unfold owned. cbn.
  destruct (AttrContainer.attr_type b1) as [| | | |t|] eqn:Ht; cbn;
    try by intros ?%elem_of_nil.
  destruct (decode_pointer_result t _ _ _ _ _ _ Hno Hd) as [->|[-> Hlv]].
  - by intros ?%elem_of_nil.
  - by intros ->%list_elem_of_singleton.
Qed.

(** The invariant of [deserialize], for any source and whether the call
    returns or throws: the store only grows, the cells from [n] on that
    existed keep their content, the cells below [n] other than the owned
    pointees keep theirs, and every pointer field of the chain the call
    leaves designates a live cell (one allocated by the call, or a pointee
    of a field the call did not reach). *)
Lemma deserialize_inv (d : list AttrContainer.node) :
  ∀ (h : heap) (n : nat) (str : list byte),
    NoDup (owned_locs d) →
    (∀ l, l ∈ owned_locs d → l < n ∧ live h l) →
    n ≤ length h →
    forallb (λ a, is_pointer_v (AttrContainer.attr_type a)
                  || no_owned (AttrContainer.attr_type a)
                       (AttrContainer.reference a)) d = true →
    ∀ d' h' res,
      AttrContainer.deserialize spec_convertor d h str = (d', h', res) →
      length h ≤ length h'
      ∧ agree n (length h) h h'
      ∧ (∀ l, l < n → l ∉ owned_locs d → h' !! l = h !! l)
      ∧ (∀ l, l ∈ owned_locs d' →
              live h' l ∧ (n ≤ l ∨ l ∈ owned_locs d))
      ∧ (∀ str', res = Ok str' → ∀ l, l ∈ owned_locs d' → n ≤ l).
Proof.
  induction d as [|b d IH]; intros h n str Hnd Hlive Hn Hno d' h' res Hrun.
  - cbn in Hrun. injection Hrun as <- <- <-.
    split; [done|]. split; [by intros ??|]. split; [done|].
    split; [by intros l ?%elem_of_nil|by intros ? _ l ?%elem_of_nil].
  - cbn in Hno. apply andb_true_iff in Hno as [Hnob Hnod].
    unfold owned_locs in Hnd, Hlive. cbn [map concat] in Hnd, Hlive.
    fold (owned_locs d) in Hnd, Hlive.
    apply NoDup_app in Hnd as (_ & Hdisj & Hndd).
    destruct (release_spec b h) as (b1 & h1 & Hrel & Hb1t & Hb1n & Hb1no
                                    & Hb1own & Hlen1 & Hkeep1 & Hfree1);
      [|done|].
    { intros l Hl. apply Hlive. apply elem_of_app. by left. }
    cbn [AttrContainer.deserialize] in Hrun. rewrite Hrel in Hrun.
    cbn [conv_deserialize spec_convertor] in Hrun.
    rewrite <- Hb1t in Hb1no.
    pose proof (decode_extends _ _ Hb1no h1 str) as Hp.
    assert (∀ i, i ∈ owned b → i < n) as Hownlt.
    { intros i Hi. apply Hlive, elem_of_app. by left. }
    destruct (Convertor.decode _ _ h1 str) as [h2 [[v str']|e]] eqn:Hdec;
      cbn in Hp; pose proof (prefix_length _ _ Hp) as Hlen2.
    + assert (∀ l, l ∈ owned_locs d → l < n ∧ live h2 l) as Hlive2.
      { intros l Hl.
        destruct (Hlive l) as [Hln [w Hw]]; [apply elem_of_app; by right|].
        split; [done|]. exists w.
        rewrite (prefix_of_lookup h1 h2) by (done || lia).
        rewrite Hkeep1; [done|]. intros Hin. by eapply Hdisj. }
      destruct (AttrContainer.deserialize spec_convertor d h2 str')
        as [[d'' h3] res'] eqn:Hrest.
      injection Hrun as <- <- <-.
      destruct (IH h2 n str' Hndd Hlive2 ltac:(lia) Hnod _ _ _ Hrest)
        as (Hlen3 & Hag3 & Hframe3 & Hown3 & Hfresh3).
      assert (∀ i, i < length h → i ∉ owned b → h2 !! i = h !! i) as Hold.
      { intros i Hi Hnot. rewrite (prefix_of_lookup h1 h2) by (done || lia).
        by apply Hkeep1. }
      split; [lia|]. split.
      { intros i Hi. rewrite Hag3 by lia. apply Hold; [lia|].
        intros Hin%Hownlt. lia. }
      split.
      { intros l Hl Hnot. rewrite Hframe3; [|done|].
        - apply Hold; [lia|]. intros ?. apply Hnot, elem_of_app. by left.
        - intros ?. apply Hnot, elem_of_app. by right. }
      split.
      { intros l. unfold owned_locs. cbn [map concat]. fold (owned_locs d'').
        intros [Hl|Hl]%elem_of_app.
        - destruct (owned_set_reference_decoded _ _ _ _ _ _ Hb1no Hdec l Hl)
            as [-> [w Hw]].
          split; [|left; lia]. exists w. rewrite Hag3; [done|].
          apply lookup_lt_Some in Hw. lia.
        - destruct (Hown3 l Hl) as [? [?|?]]; split; try done; [by left|].
          right. apply elem_of_app. by right. }
      intros s0 -> l. unfold owned_locs. cbn [map concat]. fold (owned_locs d'').
      intros [Hl|Hl]%elem_of_app.
      * destruct (owned_set_reference_decoded _ _ _ _ _ _ Hb1no Hdec l Hl)
          as [-> _]. lia.
      * by eapply Hfresh3.
    + injection Hrun as <- <- <-.
      split; [lia|]. split.
      { intros i Hi. rewrite (prefix_of_lookup h1 h2) by (done || lia).
        apply Hkeep1. intros Hin%Hownlt. lia. }
      split.
      { intros l Hl Hnot. rewrite (prefix_of_lookup h1 h2) by (done || lia).
        apply Hkeep1. intros ?. apply Hnot, elem_of_app. by left. }
      split; [|done].
      intros l. unfold owned_locs. cbn [map concat]. fold (owned_locs d).
      rewrite Hb1own. cbn [app]. intros Hl.
      destruct (Hlive l) as [Hln [w Hw]]; [apply elem_of_app; by right|].
      split; [|right; apply elem_of_app; by right].
      exists w. rewrite (prefix_of_lookup h1 h2) by (done || lia).
      rewrite Hkeep1; [done|]. intros Hin. by eapply Hdisj.
Qed.

Lemma owned_locs_cons (a : AttrContainer.node) (c : list AttrContainer.node) :
  owned_locs (a :: c) = owned a ++ owned_locs c.
Proof. done. Qed.

Lemma owned_locs_app (c1 c2 : list AttrContainer.node) :
  owned_locs (c1 ++ c2) = owned_locs c1 ++ owned_locs c2.
Proof. unfold owned_locs. by rewrite map_app, concat_app. Qed.

Lemma live_prefix (h h' : heap) (l : loc) :
  h `prefix_of` h' → live h l → live h' l.
Proof.
  intros Hp [v Hv]. exists v. rewrite (prefix_of_lookup h h'); [done..|].
  by eapply lookup_lt_Some.
Qed.

(** C10.  The pointer fields at the observable points of a chain decode.
    [d1] are the fields the decode has gone through, [a] the field it is at,
    [d2] the fields to come; the source is arbitrary.  When the decode of
    [d1] returns or throws, no pointer field of the chain dangles.  When it
    has returned: the release of [a] succeeds and leaves the field null with
    its old pointee freed, and nothing dangles when the convertor is entered;
    if the convertor throws, the exception leaves [deserialize] with the
    field null and nothing dangling; if it returns, nothing dangles once its
    result is stored. *)
Theorem pointer_fields_never_dangle (d1 d2 : list AttrContainer.node)
    (a : AttrContainer.node) (h : heap) (str : list byte) :
  dest_ok h (d1 ++ a :: d2) = true →
  ∀ d1' h1 res,
    AttrContainer.deserialize spec_convertor d1 h str = (d1', h1, res) →
    no_dangling h1 (d1' ++ a :: d2)
    ∧ ∀ str1, res = Ok str1 →
        ∃ a1 h2,
          AttrContainer.release a h1 = (a1, h2, Ok tt)
          ∧ owned a1 = []
          ∧ (∀ l, l ∈ owned a →
                  AttrContainer.reference a1 = VPtr None ∧ freed h2 l)
          ∧ no_dangling h2 (d1' ++ a1 :: d2)
          ∧ ∀ h3 r,
              conv_deserialize spec_convertor (AttrContainer.attr_type a1)
                (AttrContainer.reference a1) h2 str1 = (h3, r) →
              match r with
              | Raise e =>
                  AttrContainer.deserialize spec_convertor
                    (d1 ++ a :: d2) h str = (d1' ++ a1 :: d2, h3, Raise e)
                  ∧ no_dangling h3 (d1' ++ a1 :: d2)
              | Ok (v, _) =>
                  no_dangling h3
                    (d1' ++ AttrContainer.set_reference v a1 :: d2)
              end.
Proof.
  intros (Hnd & Hlive & Hno)%dest_ok_elim d1' h1 res Hrun.
  rewrite owned_locs_app, owned_locs_cons in Hnd, Hlive.
  apply NoDup_app in Hnd as (Hnd1 & Hdisj1 & Hnd2).
  apply NoDup_app in Hnd2 as (_ & Hdisja & _).
  rewrite forallb_app in Hno. apply andb_true_iff in Hno as [Hno1 Hno2].
  cbn in Hno2. apply andb_true_iff in Hno2 as [Hnoa _].
  destruct (deserialize_inv d1 h (length h) str Hnd1) with
    (d' := d1') (h' := h1) (res := res)
    as (Hlen1 & _ & Hframe1 & Hown1 & Hfresh1); try done.
  { intros l Hl. apply Hlive, elem_of_app. by left. }
  assert (∀ l, l ∈ owned a ++ owned_locs d2 → l < length h ∧ live h1 l)
    as Hrest.
  { intros l Hl. destruct (Hlive l) as [Hlt [w Hw]]; [apply elem_of_app; by right|].
    split; [done|]. exists w. rewrite Hframe1; [done..|].
    intros ?. by eapply Hdisj1. }
  split.
  { intros l. rewrite owned_locs_app, owned_locs_cons.
    intros [Hl|Hl]%elem_of_app; [by apply Hown1 | by apply Hrest]. }
  intros str1 ->.
  destruct (release_spec a h1) as (a1 & h2 & Hrel & Hat & Han & Hano & Haown
                                   & Hlen2 & Hkeep2 & Hfree2); [|done|].
  { intros l Hl. apply Hrest, elem_of_app. by left. }
  exists a1, h2. split; [done|]. split; [done|].
  assert (∀ l, l ∈ owned_locs d1' ++ owned_locs d2 → live h2 l) as Hlive2.
  { intros l Hl. assert (l ∉ owned a) as Hnot.
    { apply elem_of_app in Hl as [Hl|Hl].
      - intros Hin. pose proof (Hfresh1 _ eq_refl l Hl).
        destruct (Hrest l); [apply elem_of_app; by left|]. lia.
      - intros Hin. by eapply Hdisja. }
    unfold live. rewrite Hkeep2 by done.
    apply elem_of_app in Hl as [Hl|Hl]; [by apply Hown1|].
    apply Hrest, elem_of_app. by right. }
  split.
  { intros l Hl. split; [|by apply Hfree2].
    destruct (owned_cases a) as [Ha | (l' & Ha & Href & Hptr)].
    - rewrite Ha in Hl. by apply elem_of_nil in Hl.
    - destruct (Hrest l') as [_ [w Hw]]; [apply elem_of_app; left; rewrite Ha; by left|].
      rewrite (release_owner a h1 l' w Ha Hw) in Hrel. by injection Hrel as <- _. }
  split.
  { intros l. rewrite owned_locs_app, owned_locs_cons, Haown. cbn [app].
    intros Hl. by apply Hlive2, elem_of_app, elem_of_app. }
  intros h3 r Hconv. cbn [conv_deserialize spec_convertor] in Hconv.
  rewrite <- Hat in Hano.
  pose proof (decode_extends _ _ Hano h2 str1) as Hp. rewrite Hconv in Hp.
  cbn in Hp.
  destruct r as [[v str2]|e].
  - intros l. rewrite owned_locs_app, owned_locs_cons.
    intros [Hl|[Hl|Hl]%elem_of_app]%elem_of_app.
    + eapply live_prefix; [done|]. apply Hlive2, elem_of_app. by left.
    + by destruct (owned_set_reference_decoded _ _ _ _ _ _ Hano Hconv l Hl).
    + eapply live_prefix; [done|]. apply Hlive2, elem_of_app. by right.
  - split.
    + rewrite deserialize_app, Hrun. cbn [AttrContainer.deserialize].
      rewrite Hrel. cbn [conv_deserialize spec_convertor]. by rewrite Hconv.
    + intros l. rewrite owned_locs_app, owned_locs_cons, Haown. cbn [app].
      intros Hl. eapply live_prefix; [done|].
      by apply Hlive2, elem_of_app, elem_of_app.
Qed.

(** ** The convertor on a truncated encoding *)

Lemma read_take (n k : nat) (bs : list byte) (h : heap) :
  k < n → read n h (take k bs) = (h, Raise OutOfRange).
Proof. intros Hk. apply read_underrun. rewrite length_take. lia. Qed.

Lemma read_size_take (k : nat) (bs : list byte) (h : heap) :
  k < size_t_bytes → read_size h (take k bs) = (h, Raise OutOfRange).
Proof. intros Hk. unfold read_size, bind. by rewrite read_take. Qed.

Lemma take_app_cases {X} (k : nat) (l1 l2 : list X) :
  (k < length l1 ∧ take k (l1 ++ l2) = take k l1)
  ∨ (length l1 ≤ k ∧ take k (l1 ++ l2) = l1 ++ take (k - length l1) l2).
Proof.
  destruct (decide (k < length l1)).
  - left. split; [done|]. rewrite take_app_le by lia. done.
  - right. split; [lia|]. rewrite take_app_ge by lia. done.
Qed.

Lemma decode_each_truncated (hs : heap) (t : ty) (vs : list value) :
  Forall (λ v, roundtrips hs t v (default_value t)
               ∧ underruns hs t v (default_value t)) vs →
  ∀ (k : nat) (h : heap),
    k < length (concat (map (Convertor.encode hs t) vs)) →
    ∃ h', decode_each (Convertor.decode t (default_value t)) (length vs) h
            (take k (concat (map (Convertor.encode hs t) vs)))
          = (h', Raise OutOfRange).
Proof.
  induction 1 as [|v vs [Hrt Hur] _ IH]; intros k h Hk; [cbn in Hk; lia|].
  cbn [map concat length decode_each] in *. rewrite length_app in Hk.
  destruct (take_app_cases k (Convertor.encode hs t v)
              (concat (map (Convertor.encode hs t) vs))) as [[Hlt ->]|[Hge ->]].
  - destruct (Hur k h Hlt) as [h' Hd]. exists h'. unfold bind. by rewrite Hd.
  - destruct (Hrt h (take (k - length (Convertor.encode hs t v))
                       (concat (map (Convertor.encode hs t) vs))))
      as (v' & h1 & Hd & _).
    destruct (IH (k - length (Convertor.encode hs t v)) h1) as [h' Hds]; [lia|].
    exists h'. unfold bind at 1. rewrite Hd. unfold bind at 1. by rewrite Hds.
Qed.

Lemma decode_fields_truncated (hs : heap) (ts : list ty) :
  Forall (λ t, ∀ v cur, wt hs t v = true → no_owned t cur = true →
               roundtrips hs t v cur ∧ underruns hs t v cur) ts →
  ∀ (fs curs : list value),
    all_fields (wt hs) ts fs = true →
    all_curs no_owned ts curs = true →
    ∀ (k : nat) (h : heap),
      k < length (concat (zip_fields (Convertor.encode hs) ts fs)) →
      ∃ h', decode_fields Convertor.decode ts curs h
              (take k (concat (zip_fields (Convertor.encode hs) ts fs)))
            = (h', Raise OutOfRange).
Proof.
  induction 1 as [|t ts Ht _ IH]; intros fs curs Hwt Hno k h Hk.
  - destruct fs; [cbn in Hk; lia|done].
  - destruct fs as [|v fs]; [done|].
    cbn [all_fields all_curs] in Hwt, Hno.
    apply andb_true_iff in Hwt as [Hwt1 Hwt2].
    apply andb_true_iff in Hno as [Hno1 Hno2].
    destruct (Ht v _ Hwt1 Hno1) as [Hrt Hur].
    cbn [zip_fields concat decode_fields] in *. rewrite length_app in Hk.
    destruct (take_app_cases k (Convertor.encode hs t v)
                (concat (zip_fields (Convertor.encode hs) ts fs)))
      as [[Hlt ->]|[Hge ->]].
    + destruct (Hur k h Hlt) as [h' Hd]. exists h'. unfold bind. by rewrite Hd.
    + destruct (Hrt h (take (k - length (Convertor.encode hs t v))
                         (concat (zip_fields (Convertor.encode hs) ts fs))))
        as (v' & h1 & Hd & _).
      destruct (IH fs (tl curs) Hwt2 Hno2
                  (k - length (Convertor.encode hs t v)) h1) as [h' Hds]; [lia|].
      exists h'. unfold bind at 1. rewrite Hd. unfold bind at 1. by rewrite Hds.
Qed.

(** Decoding a strict prefix of an encoding runs out of bytes: the convertor
    raises [OutOfRange]. *)
Lemma decode_truncated (t : ty) :
  ∀ (hs : heap) (v cur : value),
    wt hs t v = true → no_owned t cur = true → underruns hs t v cur.
Proof.
  induction t as [n| |n t IH|t IH|t IH|ts IH] using ty_ind';
    intros hs v cur Hwt Hno k h Hk.
  - destruct v as [bs| | | |]; try done. cbn in Hwt.
    apply bool_decide_eq_true in Hwt as <-.
    exists h. cbn [Convertor.encode Convertor.decode] in *.
    unfold bind. by rewrite read_take.
  - destruct v as [|s| | |]; try done. cbn in Hwt.
    cbn [Convertor.encode Convertor.decode] in *.
    rewrite length_app, length_le_bytes in Hk. exists h.
    destruct (take_app_cases k (le_bytes size_t_bytes (N.of_nat (length s))) s)
      as [[Hlt ->]|[Hge ->]]; rewrite length_le_bytes in *.
    + unfold bind. by rewrite read_size_take.
    + unfold bind at 1. rewrite read_size_app by done.
      unfold bind. rewrite read_take; [done|lia].
  - destruct v as [| |vs| |]; try done. cbn in Hwt.
    apply andb_true_iff in Hwt as [<-%bool_decide_eq_true Hvs].
    apply forallb_Forall_true in Hvs.
    cbn [Convertor.encode Convertor.decode] in *.
    destruct (decode_each_truncated hs t vs) with (k := k) (h := h)
      as [h' Hd]; [|done|].
    { eapply Forall_impl; [done|]. intros v Hv. cbn in Hv.
      split; [apply decode_encode|apply IH]; done || apply no_owned_default. }
    exists h'. unfold bind. by rewrite Hd.
  - destruct v as [| |vs| |]; try done. cbn in Hwt.
    apply andb_true_iff in Hwt as [Hlen Hvs].
    apply forallb_Forall_true in Hvs.
    cbn [Convertor.encode Convertor.decode] in *.
    rewrite length_app, length_le_bytes in Hk.
    destruct (take_app_cases k (le_bytes size_t_bytes (N.of_nat (length vs)))
                (concat (map (Convertor.encode hs t) vs)))
      as [[Hlt ->]|[Hge ->]]; rewrite length_le_bytes in *.
    + exists h. unfold bind. by rewrite read_size_take.
    + destruct (decode_each_truncated hs t vs) with
        (k := k - size_t_bytes) (h := h) as [h' Hd]; [|lia|].
      { eapply Forall_impl; [done|]. intros v Hv. cbn in Hv.
        split; [apply decode_encode|apply IH]; done || apply no_owned_default. }
      exists h'. unfold bind at 1. rewrite read_size_app by done.
      unfold bind. by rewrite Hd.
  - assert (destroy cur = ret tt) as Hdes by by apply (extends_destroy t).
    destruct v as [| | |[l|]|]; try done; cbn in Hwt;
      cbn [Convertor.encode Convertor.decode] in *.
    + destruct (hs !! l) as [[v0|]|] eqn:Hl; try done.
      destruct k as [|k].
      * exists h. unfold bind. by rewrite read_take by lia.
      * cbn [length] in Hk.
        destruct (IH hs v0 (default_value t) Hwt (no_owned_default t) k
                    (h ++ [Some (default_value t)])) as [h' Hd]; [lia|].
        exists h'. cbn [take]. unfold bind at 1. rewrite read_cons.
        unfold bind at 1. rewrite Hdes. unfold ret at 1.
        rewrite bool_decide_eq_false_2 by done.
        unfold bind at 1. unfold alloc at 1. unfold bind at 1. by rewrite Hd.
    + exists h. cbn in Hk. assert (k = 0) as -> by lia.
      unfold bind. by rewrite read_take by lia.
  - destruct v as [| | | |fs]; try done. cbn in Hwt. cbn [no_owned] in Hno.
    cbn [Convertor.encode Convertor.decode] in *.
    destruct (decode_fields_truncated hs ts) with
      (fs := fs) (curs := fields_of cur) (k := k) (h := h) as [h' Hd];
      try done.
    { eapply Forall_impl; [done|]. intros t Ht v c ??. cbn in Ht.
      split; [by apply decode_encode | by apply Ht]. }
    exists h'. unfold bind. by rewrite Hd.
Qed.

(** C4, as amended.  A read that asks for more bytes than the view holds
    raises [OutOfRange].  When the source of a chain decode is the encoding
    of the fields [c1] followed by a strict prefix of the encoding of the
    next field [a], [deserialize] throws [OutOfRange] at that field: the
    fields to come, [d2], are left as they were, the field at which the read
    failed owns nothing, and every field decoded before it holds a value
    structurally equal to the one encoded. *)
Theorem underrun_raises_at_field (hs h : heap)
    (c1 d1 d2 : list AttrContainer.node) (a b : AttrContainer.node) (k : nat) :
  chain_wt hs (c1 ++ [a]) = true →
  map AttrContainer.attr_type d1 = map AttrContainer.attr_type c1 →
  AttrContainer.attr_type b = AttrContainer.attr_type a →
  dest_ok h (d1 ++ b :: d2) = true →
  k < length (Convertor.encode hs (AttrContainer.attr_type a)
                (AttrContainer.reference a)) →
  (∀ n h0 s, length s < n → read n h0 s = (h0, Raise OutOfRange))
  ∧ ∃ d1' b1 h',
      AttrContainer.deserialize spec_convertor (d1 ++ b :: d2) h
        (chain_encoding hs c1
           ++ take k (Convertor.encode hs (AttrContainer.attr_type a)
                        (AttrContainer.reference a)))
      = (d1' ++ b1 :: d2, h', Raise OutOfRange)
      ∧ owned b1 = []
      ∧ AttrContainer.attr_type b1 = AttrContainer.attr_type b
      ∧ map AttrContainer.attr_type d1' = map AttrContainer.attr_type c1
      ∧ Forall2 (λ x x',
           is_Some (reify hs (AttrContainer.attr_type x)
                      (AttrContainer.reference x))
           ∧ reify h' (AttrContainer.attr_type x) (AttrContainer.reference x')
             = reify hs (AttrContainer.attr_type x)
                 (AttrContainer.reference x)) c1 d1'.
Proof.
  intros Hwt Hty Htb (Hnd & Hlive & Hno)%dest_ok_elim Hk.
  split; [intros; by apply read_underrun|].
  unfold chain_wt in Hwt. rewrite forallb_app in Hwt.
  apply andb_true_iff in Hwt as [Hwt1 Hwta]. cbn in Hwta.
  rewrite andb_true_r in Hwta.
  rewrite owned_locs_app, owned_locs_cons in Hnd, Hlive.
  apply NoDup_app in Hnd as (Hnd1 & Hdisj1 & _).
  rewrite forallb_app in Hno. apply andb_true_iff in Hno as [Hno1 Hno2].
  cbn in Hno2. apply andb_true_iff in Hno2 as [Hnob _].
  destruct (deserialize_chain hs c1 Hwt1 d1 h (length h)
              (take k (Convertor.encode hs (AttrContainer.attr_type a)
                         (AttrContainer.reference a))))
    as (d1' & h1 & Hd & Hdt & _ & Hlen1 & _ & Hframe1 & _ & Hvals);
    try done.
  { intros l Hl. apply Hlive, elem_of_app. by left. }
  destruct (release_spec b h1) as (b1 & h2 & Hrel & Hb1t & _ & Hb1no & Hb1own
                                   & Hlen2 & Hkeep2 & _); [|done|].
  { intros l Hl.
    destruct (Hlive l) as [Hlt [w Hw]]; [apply elem_of_app; right; apply elem_of_app; by left|].
    exists w. rewrite Hframe1; [done..|]. intros ?.
    eapply Hdisj1; [done|]. apply elem_of_app. by left. }
  rewrite Htb in Hb1no.
  destruct (decode_truncated _ hs _ _ Hwta Hb1no k h2 Hk) as [h3 Hdec].
  pose proof (decode_extends _ _ Hb1no h2
                (take k (Convertor.encode hs (AttrContainer.attr_type a)
                           (AttrContainer.reference a)))) as Hp.
  rewrite Hdec in Hp. cbn in Hp.
  exists d1', b1, h3. rewrite deserialize_app, Hd.
  cbn [AttrContainer.deserialize]. rewrite Hrel.
  cbn [conv_deserialize spec_convertor]. rewrite Hb1t, Htb, Hdec.
  split; [done|]. split; [done|]. split; [done|]. split; [congruence|].
  apply forallb_Forall_true in Hwt1.
  assert (agree (length h) (length h1) h1 h3) as Hag.
  { intros i Hi. rewrite (prefix_of_lookup h2 h3) by (done || lia).
    apply Hkeep2. intros Hin.
    destruct (Hlive i); [apply elem_of_app; right; apply elem_of_app; by left|].
    lia. }
  clear -Hwt1 Hvals Hag.
  induction Hvals as [|x x' c d' Hx _ IH]; [constructor|].
  apply Forall_cons in Hwt1 as [Hwx Hwc]. constructor; [|by apply IH].
  split; [by apply wt_reify|]. by apply Hx.
Qed.

(** ** The traversal engine *)

Section TraversalFacts.
Context {A : Type} (strategy : Strategy A).

Lemma serialize_fold_foldl (args : list (Arg A)) (s : Ser) :
  serialize_fold strategy args s
  = foldl (serialize_step strategy) (s, Ok tt) args.
Proof.
  revert s. induction args as [|arg args IH]; intros s; [done|].
  cbn [serialize_fold foldl]. unfold serialize_arg.
  unfold serialize_step at 2.
  destruct arg as [a|f].
  - destruct (serialize_ strategy a s) as [s' [[]|e]]; [apply IH|].
    clear. induction args as [|arg args IH]; [done|]. by cbn.
  - destruct (f _) as [s' [[]|e]]; [apply IH|].
    clear. induction args as [|arg args IH]; [done|]. by cbn.
Qed.

Lemma deserialize_foldl_raise (args done : list (Arg A)) (s : Ser)
    (e : error) :
  foldl (deserialize_step strategy) (done, s, Raise e) args
  = (done ++ args, s, Raise e).
Proof.
  revert done. induction args as [|arg args IH]; intros done; cbn.
  - by rewrite app_nil_r.
  - by rewrite IH, <- app_assoc.
Qed.

Lemma deserialize_fold_foldl_gen (args done : list (Arg A)) (s : Ser) :
  foldl (deserialize_step strategy) (done, s, Ok tt) args
  = (let '(args', s', r) := deserialize_fold strategy args s in
     (done ++ args', s', r)).
Proof.
  revert done s. induction args as [|arg args IH]; intros done s.
  - cbn. by rewrite app_nil_r.
  - cbn [foldl deserialize_fold]. unfold deserialize_arg.
    unfold deserialize_step at 2.
    destruct arg as [a|f].
    + destruct (deserialize_ strategy a s) as [s' [a'|e]].
      * rewrite IH.
        destruct (deserialize_fold strategy args s') as [[args' s''] r].
        by rewrite <- app_assoc.
      * by rewrite deserialize_foldl_raise, <- app_assoc.
    + destruct (f _) as [s' [[]|e]].
      * rewrite IH.
        destruct (deserialize_fold strategy args s') as [[args' s''] r].
        by rewrite <- app_assoc.
      * by rewrite deserialize_foldl_raise, <- app_assoc.
Qed.

Lemma deserialize_fold_foldl (args : list (Arg A)) (s : Ser) :
  deserialize_fold strategy args s
  = foldl (deserialize_step strategy) ([], s, Ok tt) args.
Proof.
  rewrite deserialize_fold_foldl_gen.
  by destruct (deserialize_fold strategy args s) as [[??]?].
Qed.

End TraversalFacts.

(** C8.  Both traversals fold the pack left to right, one step per argument.
    In [serialize] the step on a callable invokes it on a context whose phase
    is [Serialization] and whose strategy is the bound one, and the step on
    any other argument is the strategy's [serialize_]; in [deserialize] the
    phase is [Deserialization] and the default operation [deserialize_].  A
    callable that branches on the phase therefore runs its encode branch in
    [serialize] and its decode branch in [deserialize]. *)
Theorem fold_dispatch {A : Type} (strategy : Strategy A) (mt : mem_t)
    (m : Mem) (p : nat) (h : heap) (args : list (Arg A)) (s : Ser) (a : A)
    (f : Context → Ser * Exc unit)
    (on_ser on_deser : Ser → Ser * Exc unit) :
  serialize_fold strategy args s
    = foldl (serialize_step strategy) (s, Ok tt) args
  ∧ deserialize_fold strategy args s
    = foldl (deserialize_step strategy) ([], s, Ok tt) args
  ∧ serialize_arg strategy (Function f) s
    = f {| phase := Serialization; serializer := s |}
  ∧ serialize_arg strategy (Plain a) s = serialize_ strategy a s
  ∧ deserialize_arg strategy (Function f) s
    = (let '(s', r) := f {| phase := Deserialization; serializer := s |} in
       (s', match r with Ok _ => Ok (Function f) | Raise e => Raise e end))
  ∧ deserialize_arg strategy (Plain a) s
    = (let '(s', r) := deserialize_ strategy a s in
       (s', match r with Ok a' => Ok (Plain a') | Raise e => Raise e end))
  ∧ serialize_arg strategy (Function (by_phase on_ser on_deser)) s = on_ser s
  ∧ (deserialize_arg strategy (Function (by_phase on_ser on_deser)) s).1
    = (on_deser s).1
  ∧ (serialize strategy mt m p h args).2
    = (let '(s', r) :=
         foldl (serialize_step strategy)
           ({| mem := m; pos := p; world := h |}, Ok tt) args in
       match r with Ok _ => Ok (pos s') | Raise e => Raise e end)
  ∧ (deserialize strategy m p h args).2
    = (let '(_, s', r) :=
         foldl (deserialize_step strategy)
           ([], {| mem := m; pos := p; world := h |}, Ok tt) args in
       match r with Ok _ => Ok (pos s') | Raise e => Raise e end).
Proof.
  split; [apply serialize_fold_foldl|].
  split; [apply deserialize_fold_foldl|].
  split; [done|]. split; [done|].
  split; [cbn; by destruct (f _) as [? [[]|?]]|].
  split; [cbn; by destruct (deserialize_ strategy a s) as [? [?|?]]|].
  split; [done|].
  split; [cbn; unfold by_phase; cbn; by destruct (on_deser s) as [? [[]|?]]|].
  split.
  - unfold serialize. rewrite <- serialize_fold_foldl.
    destruct (serialize_fold strategy args _) as [s' [[]|e]]; [|done].
    cbn. by repeat destruct (_ : bool).
  - unfold deserialize. rewrite <- deserialize_fold_foldl.
    by destruct (deserialize_fold strategy args _) as [[? s'] [[]|e]].
Qed.

(** ** The trim of [serialize] *)

Lemma mem_size_resize (n : nat) (m : Mem) : mem_size (resize n m) = n.
Proof. done. Qed.

Lemma binary_deserialize_mem (slack : nat → nat) (mt : mem_t)
    (a : ty * value) (s : Ser) :
  mem (Serializer.deserialize_ a s).1 = mem s.
Proof.
  unfold Serializer.deserialize_.
  by destruct (Convertor.decode _ _ _ _) as [h' [[v rest]|e]].
Qed.

Lemma deserialize_fold_keeps_size (slack : nat → nat) (mt : mem_t)
    (args : list (Arg (ty * value))) (s : Ser) :
  Forall keeps_size args →
  mem_size (mem s)
  ≤ mem_size (mem (deserialize_fold (Serializer.strategy slack mt) args s).1.2).
Proof.
  intros Hargs. revert s. induction Hargs as [|arg args Harg _ IH]; intros s;
    [done|].
  cbn [deserialize_fold]. unfold deserialize_arg.
  destruct arg as [a|f].
  - pose proof (binary_deserialize_mem slack mt a s) as Hm.
    cbn [deserialize_ Serializer.strategy].
    destruct (Serializer.deserialize_ a s) as [s' [a'|e]]; cbn in Hm.
    + specialize (IH s').
      destruct (deserialize_fold _ args s') as [[args' s''] r]. cbn in *.
      by rewrite <- Hm.
    + cbn. by rewrite Hm.
  - specialize (Harg {| phase := Deserialization; serializer := s |}).
    cbn in Harg. destruct (f _) as [s' [[]|e]]; cbn in *; [|done].
    specialize (IH s').
    destruct (deserialize_fold _ args s') as [[args' s''] r]. cbn in *. lia.
Qed.

(** C2 as stated fails: a buffer of the library's own [Bytes] type supports
    resizing, yet [serialize] at position zero does not resize it to the
    final cursor position: a [Bytes] of sixteen bytes is still sixteen bytes
    long after four bytes were serialised at its start, where a
    [std::vector] is cut down to four. *)
Lemma resizable_bytes_buffer_not_trimmed :
  Resizeable Sample.tools_Bytes = true
  ∧ (∃ s,
       serialize (Serializer.strategy Sample.doubling Sample.tools_Bytes)
         Sample.tools_Bytes (Sample.zeros 16) 0 []
         [Plain (TRaw 4, Sample.int32_le Byte.x07)] = (s, Ok 4)
       ∧ mem_size (mem s) = 16
       ∧ mem_size (mem s) ≠ 4)
  ∧ (∃ s,
       serialize (Serializer.strategy Sample.doubling Sample.std_vector)
         Sample.std_vector (Sample.zeros 16) 0 []
         [Plain (TRaw 4, Sample.int32_le Byte.x07)] = (s, Ok 4)
       ∧ mem_size (mem s) = 4).
Proof.
  split; [done|]. split.
  - eexists. split; [reflexivity|]. by split.
  - eexists. split; [reflexivity|]. done.
Qed.

(** C2, as amended.  When the fold of [serialize] completes: at starting
    position zero, on a buffer type that is resizable and is not a serializer
    [Bytes], the buffer is the fold's buffer resized to the final cursor
    position, so its size is exactly that position; at a non-zero starting
    position, and on every other buffer type, the call returns the fold's
    state untouched.  When the fold throws, nothing is resized.
    [deserialize] adds no step to its fold, and with the buffer strategy
    and arguments that do not shrink the buffer themselves, the buffer it
    leaves is never shorter than the one it was given, whether it returns or
    throws. *)
Theorem trim_only_at_first_level {A : Type} (strategy : Strategy A)
    (slack : nat → nat) (mt : mem_t) (m : Mem) (p : nat) (h : heap)
    (args : list (Arg A)) (args' : list (Arg (ty * value))) :
  (∀ s, serialize_fold strategy args {| mem := m; pos := p; world := h |}
        = (s, Ok tt) →
     (p = 0 → Resizeable mt = true → is_serializer_bytes_v mt = false →
        serialize strategy mt m p h args
        = ({| mem := resize (pos s) (mem s); pos := pos s; world := world s |},
           Ok (pos s))
        ∧ mem_size (mem (serialize strategy mt m p h args).1) = pos s)
     ∧ (p ≠ 0 → serialize strategy mt m p h args = (s, Ok (pos s)))
     ∧ (Resizeable mt = false ∨ is_serializer_bytes_v mt = true →
        serialize strategy mt m p h args = (s, Ok (pos s))))
  ∧ (∀ s e, serialize_fold strategy args {| mem := m; pos := p; world := h |}
            = (s, Raise e) →
       serialize strategy mt m p h args = (s, Raise e))
  ∧ (deserialize strategy m p h args).1
    = (deserialize_fold strategy args {| mem := m; pos := p; world := h |}).1
  ∧ (Forall keeps_size args' →
     mem_size m
     ≤ mem_size (mem (deserialize (Serializer.strategy slack mt) m p h
                        args').1.2)).
Proof.
  split; [|split; [|split]].
  - intros s Hfold. unfold serialize. rewrite Hfold. split; [|split].
    + intros -> -> ->. by cbn.
    + intros Hp. rewrite bool_decide_eq_false_2 by done.
      by destruct (negb _ && _).
    + intros [-> | ->]; [by rewrite andb_false_r|done].
  - intros s e Hfold. unfold serialize. by rewrite Hfold.
  - unfold deserialize.
    by destruct (deserialize_fold strategy args _) as [[? ?] [[]|?]].
  - intros Hargs. unfold deserialize.
    pose proof (deserialize_fold_keeps_size slack mt args'
                  {| mem := m; pos := p; world := h |} Hargs) as Hle.
    by destruct (deserialize_fold _ args' _) as [[? ?] [[]|?]].
Qed.

(** ** Buffers *)

Lemma length_bytes_at (m : Mem) (p n : nat) : length (bytes_at m p n) = n.
Proof. unfold bytes_at. by rewrite length_map, length_seq. Qed.

Lemma lookup_bytes_at (m : Mem) (p n i : nat) :
  i < n → bytes_at m p n !! i = Some (mem_data m (p + i)).
Proof.
  intros Hi. unfold bytes_at. by rewrite list_lookup_fmap, lookup_seq_lt.
Qed.

Lemma bytes_at_ext (m m' : Mem) (p n : nat) :
  (∀ i, p ≤ i < p + n → mem_data m' i = mem_data m i) →
  bytes_at m' p n = bytes_at m p n.
Proof.
  intros H. apply list_eq_same_length with n; try apply length_bytes_at.
  intros i x y Hi. rewrite !lookup_bytes_at by done.
  intros [= <-] [= <-]. apply H. lia.
Qed.

Lemma bytes_at_app (m : Mem) (p n1 n2 : nat) :
  bytes_at m p (n1 + n2) = bytes_at m p n1 ++ bytes_at m (p + n1) n2.
Proof. unfold bytes_at. by rewrite seq_app, map_app. Qed.

Lemma bytes_at_memcpy (m : Mem) (p : nat) (bs : list byte) :
  bytes_at (memcpy p bs m) p (length bs) = bs.
Proof.
  apply list_eq_same_length with (length bs); [done|apply length_bytes_at|].
  intros i x y Hi. rewrite lookup_bytes_at by done. cbn.
  rewrite bool_decide_eq_true_2 by lia.
  replace (p + i - p) with i by lia.
  intros [= <-] Hy. by rewrite Hy.
Qed.

Lemma mem_data_memcpy_other (m : Mem) (p : nat) (bs : list byte) (i : nat) :
  ¬ (p ≤ i < p + length bs) → mem_data (memcpy p bs m) i = mem_data m i.
Proof. intros H. cbn. by rewrite bool_decide_eq_false_2. Qed.

Lemma mem_data_resize_old (m : Mem) (n i : nat) :
  i < mem_size m → mem_data (resize n m) i = mem_data m i.
Proof. intros H. cbn. rewrite bool_decide_eq_false_2; [done|lia]. Qed.

(** What [append] guarantees when the cursor is within the buffer and the
    buffer can take the write (it can grow, or it has the room). *)
Lemma append_spec (slack : nat → nat) (mt : mem_t) (bs : list byte) (s : Ser) :
  pos s ≤ mem_size (mem s) →
  Resizeable mt = true ∨ pos s + length bs ≤ mem_size (mem s) →
  let s' := Serializer.append slack mt bs s in
  pos s' = pos s + length bs
  ∧ world s' = world s
  ∧ pos s' ≤ mem_size (mem s')
  ∧ mem_size (mem s) ≤ mem_size (mem s')
  ∧ bytes_at (mem s') (pos s) (length bs) = bs
  ∧ ∀ i, i < pos s → mem_data (mem s') i = mem_data (mem s) i.
Proof.
  intros Hpos Hroom. unfold Serializer.append. cbn zeta.
  set (need := pos s + length bs).
  set (m1 := if Resizeable mt && bool_decide (mem_size (mem s) < need)
             then resize (need + slack need) (mem s) else mem s).
  assert (mem_size (mem s) ≤ mem_size m1 ∧ need ≤ mem_size m1
          ∧ ∀ i, i < mem_size (mem s) → mem_data m1 i = mem_data (mem s) i)
    as (Hsz & Hneed & Hold).
  { subst m1. destruct (bool_decide _) eqn:Hlt.
    - apply bool_decide_eq_true in Hlt.
      destruct Hroom as [-> | ?]; [|subst need; lia]. cbn [andb].
      rewrite mem_size_resize. split; [lia|]. split; [lia|].
      intros i Hi. by apply mem_data_resize_old.
    - apply bool_decide_eq_false in Hlt. rewrite andb_false_r.
      split; [done|]. split; [lia|done]. }
  cbn [pos mem world memcpy mem_size]. split; [done|]. split; [done|].
  split; [done|]. split; [done|]. split; [apply bytes_at_memcpy|].
  intros i Hi. rewrite mem_data_memcpy_other by lia. apply Hold. lia.
Qed.

(** ** The struct fast path *)

Lemma int32_roundtrip (z : Z) :
  Point.in_int32 z → Point.int32_of_bytes (Point.int32_bytes z) = z.
Proof.
  unfold Point.in_int32, Point.int32_of_bytes, Point.int32_bytes. intros Hz.
  assert (0 ≤ z mod 2 ^ 32 < 2 ^ 32)%Z as Hm by (apply Z.mod_pos_bound; lia).
  rewrite le_value_le_bytes.
  2:{ change (256 ^ N.of_nat 4)%N with (Z.to_N (2 ^ 32)). lia. }
  rewrite Z2N.id by lia.
  destruct (decide (0 ≤ z)%Z) as [Hpos|Hneg].
  - rewrite Z.mod_small by lia.
    destruct (z <? 2 ^ 31)%Z eqn:E; [done|]. apply Z.ltb_ge in E. lia.
  - replace (z mod 2 ^ 32)%Z with (z + 2 ^ 32)%Z.
    + destruct (z + 2 ^ 32 <? 2 ^ 31)%Z eqn:E; [|lia].
      apply Z.ltb_lt in E. lia.
    + apply Z.mod_unique with (-1)%Z; lia.
Qed.

#[global] Instance Point_trivially_copyable : TriviallyCopyable Point.t.
Proof.
  split.
  - intros obj. cbn [to_bytes sizeof Point.layout]. unfold Point.int32_bytes.
    by rewrite length_app, !length_le_bytes.
  - intros [x y] [Hx Hy]. cbn [valid to_bytes of_bytes Point.layout
                               Point.x Point.y] in *.
    rewrite take_app_length' by (symmetry; apply length_le_bytes).
    rewrite drop_app_length' by (symmetry; apply length_le_bytes).
    by rewrite !int32_roundtrip.
Qed.

Lemma append_bytes (slack : nat → nat) (mt : mem_t) (bs : list byte) (s : Ser) :
  let s' := Serializer.append slack mt bs s in
  pos s' = pos s + length bs
  ∧ bytes_at (mem s') (pos s) (length bs) = bs
  ∧ mem_size (mem s) ≤ mem_size (mem s')
  ∧ (Resizeable mt = true ∨ pos s + length bs ≤ mem_size (mem s) →
     pos s' ≤ mem_size (mem s'))
  ∧ ∀ i, i < mem_size (mem s) → ¬ (pos s ≤ i < pos s + length bs) →
         mem_data (mem s') i = mem_data (mem s) i.
Proof.
  unfold Serializer.append. cbn zeta.
  set (need := pos s + length bs).
  cbn [pos mem world memcpy mem_size].
  split; [done|]. split; [apply bytes_at_memcpy|].
  destruct (Resizeable mt) eqn:Hres; cbn [andb].
  - destruct (bool_decide _) eqn:Hlt.
    + apply bool_decide_eq_true in Hlt. rewrite mem_size_resize.
      split; [lia|]. split; [lia|].
      intros i Hi Hout. rewrite mem_data_memcpy_other by done.
      by apply mem_data_resize_old.
    + apply bool_decide_eq_false in Hlt.
      split; [done|]. split; [lia|].
      intros i Hi Hout. by rewrite mem_data_memcpy_other.
  - split; [done|]. split; [by intros [?|?]|].
    intros i Hi Hout. by rewrite mem_data_memcpy_other.
Qed.

(** C5.  For a trivially copyable [T] and an object [obj] of [T]:
    [serializeStruct] returns the starting position advanced by [sizeof(T)];
    the [sizeof(T)] bytes from the starting position on are the object
    representation of [obj]; no other byte the buffer held is changed; when
    the buffer can take the write, the bytes written lie within it; and
    [deserializeStruct] at the same position gives back [obj] and the same
    advanced position. *)
Theorem struct_fast_path {T : Type} `{TriviallyCopyable T}
    (slack : nat → nat) (mt : mem_t) (m : Mem) (p : nat) (obj : T) :
  valid obj →
  let '(m', p') := serializeStruct slack mt m p obj in
  p' = p + sizeof T
  ∧ length (to_bytes obj) = sizeof T
  ∧ bytes_at m' p (sizeof T) = to_bytes obj
  ∧ (∀ i, i < mem_size m → ¬ (p ≤ i < p + sizeof T) →
          mem_data m' i = mem_data m i)
  ∧ (Resizeable mt = true ∨ p + sizeof T ≤ mem_size m → p' ≤ mem_size m')
  ∧ deserializeStruct m' p = Ok (obj, p').
Proof.
  intros Hvalid. unfold serializeStruct. cbn zeta.
  pose proof (to_bytes_length obj) as Hlen.
  rewrite firstn_all2 by lia.
  destruct (append_bytes slack mt (to_bytes obj)
              {| mem := m; pos := p; world := [] |})
    as (Hpos & Hbytes & _ & Hroom & Hother).
  cbn [pos mem] in *. rewrite Hlen in *.
  split; [done|]. split; [done|]. split; [done|]. split; [done|].
  split; [done|].
  unfold deserializeStruct. rewrite Hbytes, of_to_bytes by done.
  by rewrite Hpos.
Qed.







(** C4 as stated fails on the struct fast path: [deserializeStruct] on a
    buffer of two bytes, asked for the eight bytes of a [Point], raises
    nothing: it returns a value and the position 8. *)
Lemma deserializeStruct_underrun_not_raised :
  mem_size (Sample.zeros 2) - 0 < sizeof Point.t
  ∧ @deserializeStruct Point.t _ (Sample.zeros 2) 0
    = Ok ({| Point.x := 0; Point.y := 0 |}, 8)
  ∧ @deserializeStruct Point.t _ (Sample.zeros 2) 0 ≠ Raise OutOfRange.
Proof. split; [cbn; lia|]. by split. Qed.

(** ** Records in a buffer *)

Lemma record_encoding_cons (hs : heap) (a : ty * value)
    (args : list (ty * value)) :
  record_encoding hs (a :: args)
  = Convertor.encode hs a.1 a.2 ++ record_encoding hs args.
Proof. done. Qed.

Lemma serialize_fold_plain (slack : nat → nat) (mt : mem_t)
    (args : list (ty * value)) :
  ∀ s : Ser,
    pos s ≤ mem_size (mem s) →
    Resizeable mt = true
    ∨ pos s + length (record_encoding (world s) args) ≤ mem_size (mem s) →
    ∃ s',
      serialize_fold (Serializer.strategy slack mt) (map Plain args) s
        = (s', Ok tt)
      ∧ pos s' = pos s + length (record_encoding (world s) args)
      ∧ world s' = world s
      ∧ pos s' ≤ mem_size (mem s')
      ∧ mem_size (mem s) ≤ mem_size (mem s')
      ∧ bytes_at (mem s') (pos s) (length (record_encoding (world s) args))
        = record_encoding (world s) args
      ∧ ∀ i, i < pos s → mem_data (mem s') i = mem_data (mem s) i.
Proof.
  induction args as [|a args IH]; intros s Hpos Hroom.
  - exists s. cbn. rewrite Nat.add_0_r. by repeat split.
  - rewrite record_encoding_cons, length_app in *.
    set (e := Convertor.encode (world s) a.1 a.2) in *.
    destruct (append_spec slack mt e s Hpos)
      as (Hp1 & Hw1 & Hin1 & Hsz1 & Hb1 & Hold1); [destruct Hroom; [by left|right; lia]|].
    set (s1 := Serializer.append slack mt e s) in *.
    destruct (IH s1 Hin1) as (s' & Hfold & Hp2 & Hw2 & Hin2 & Hsz2 & Hb2 & Hold2).
    { rewrite Hw1. destruct Hroom; [by left|right; lia]. }
    rewrite Hw1 in *.
    exists s'. cbn [map serialize_fold serialize_arg].
    cbn [serialize_ Serializer.strategy]. unfold Serializer.serialize_.
    fold e. fold s1. rewrite Hfold.
    split; [done|]. split; [lia|]. split; [congruence|]. split; [done|].
    split; [lia|]. split.
    + rewrite bytes_at_app. f_equal.
      * etrans; [|exact Hb1]. apply bytes_at_ext. intros i Hi.
        apply Hold2. lia.
      * rewrite <- Hp1. done.
    + intros i Hi. rewrite Hold2 by lia. by apply Hold1.
Qed.

Lemma serialize_record (slack : nat → nat) (mt : mem_t) (m : Mem) (p : nat)
    (hs : heap) (args : list (ty * value)) :
  p ≤ mem_size m →
  Resizeable mt = true ∨ p + length (record_encoding hs args) ≤ mem_size m →
  ∃ s,
    serialize (Serializer.strategy slack mt) mt m p hs (map Plain args)
      = (s, Ok (pos s))
    ∧ pos s = p + length (record_encoding hs args)
    ∧ pos s ≤ mem_size (mem s)
    ∧ (Resizeable mt = true ∨ mem_size m ≤ mem_size (mem s))
    ∧ bytes_at (mem s) p (length (record_encoding hs args))
      = record_encoding hs args
    ∧ ∀ i, i < p → mem_data (mem s) i = mem_data m i.
Proof.
  intros Hp Hroom.
  destruct (serialize_fold_plain slack mt args
              {| mem := m; pos := p; world := hs |})
    as (s & Hfold & Hpos & Hw & Hin & Hsz & Hb & Hold); [done..|].
  cbn [pos mem world] in *. unfold serialize. rewrite Hfold.
  destruct (negb (is_serializer_bytes_v mt) && Resizeable mt) eqn:Hguard.
  - apply andb_true_iff in Hguard as [_ Hres].
    destruct (bool_decide (p = 0)).
    + eexists. split; [reflexivity|]. cbn [pos mem].
      rewrite mem_size_resize.
      split; [done|]. split; [done|]. split; [by left|]. split.
      * etrans; [|exact Hb]. apply bytes_at_ext. intros i Hi.
        apply mem_data_resize_old. lia.
      * intros i Hi. rewrite mem_data_resize_old by lia. by apply Hold.
    + exists s. repeat split; try done. by left.
  - exists s. repeat split; try done. by right.
Qed.

Lemma deserialize_fold_plain (slack : nat → nat) (mt : mem_t) (m : Mem)
    (hs : heap) (args : list (ty * value)) :
  record_wt hs args = true →
  ∀ (vars : list (ty * value)) (p : nat) (h : heap),
    map fst vars = map fst args →
    vars_ok vars = true →
    p + length (record_encoding hs args) ≤ mem_size m →
    bytes_at m p (length (record_encoding hs args)) = record_encoding hs args →
    ∃ outs h',
      deserialize_fold (Serializer.strategy slack mt) (map Plain vars)
          {| mem := m; pos := p; world := h |}
        = (map Plain outs,
           {| mem := m; pos := p + length (record_encoding hs args);
              world := h' |}, Ok tt)
      ∧ h `prefix_of` h'
      ∧ Forall2 (λ a o,
           o.1 = a.1
           ∧ ∀ h'', agree (length h) (length h') h' h'' →
                    reify h'' a.1 o.2 = reify hs a.1 a.2) args outs.
Proof.
  induction args as [|a args IH]; intros Hwt vars p h Hty Hvars Hroom Hbytes.
  - destruct vars; [|done]. exists [], h. cbn. rewrite Nat.add_0_r.
    split; [done|]. split; [done|]. constructor.
  - destruct vars as [|[t cur] vars]; [done|].
    cbn in Hwt. apply andb_true_iff in Hwt as [Hwa Hwt].
    cbn in Hvars. apply andb_true_iff in Hvars as [Hcur Hvars].
    cbn in Hty. injection Hty as -> Hty.
    rewrite record_encoding_cons, length_app in *.
    set (e := Convertor.encode hs a.1 a.2) in *.
    set (n := length (record_encoding hs args)) in *.
    rewrite bytes_at_app in Hbytes.
    apply app_inj_1 in Hbytes as [Hb1 Hb2]; [|apply length_bytes_at].
    destruct (decode_encode a.1 hs a.2 cur Hwa Hcur h
                (bytes_at m (p + length e) (mem_size m - p - length e)))
      as (v' & h1 & Hdec & Hp1 & Hfoot).
    destruct (IH Hwt vars (p + length e) h1 Hty Hvars) as
      (outs & h' & Hfold & Hp2 & Hvals); [lia|done|].
    exists ((a.1, v') :: outs), h'.
    cbn [map deserialize_fold deserialize_arg].
    cbn [deserialize_ Serializer.strategy]. unfold Serializer.deserialize_.
    cbn [pos mem world fst snd].
    replace (mem_size m - p) with (length e + (mem_size m - p - length e))
      by lia.
    rewrite bytes_at_app, Hb1. fold e in Hdec. rewrite Hdec.
    rewrite length_app, !length_bytes_at.
    replace (p + (length e + (mem_size m - p - length e)
                  - (mem_size m - p - length e))) with (p + length e) by lia.
    rewrite Hfold. rewrite Nat.add_assoc.
    split; [done|]. split; [by etrans|].
    pose proof (prefix_length _ _ Hp1). pose proof (prefix_length _ _ Hp2).
    constructor.
    + split; [done|]. intros h'' Hag. apply Hfoot.
      eapply agree_prefix; [done| |done]. eapply agree_weaken; [done|lia..].
    + eapply Forall2_impl; [done|]. cbn. intros x y [Hxy Hr]. split; [done|].
      intros h'' Hag. apply Hr. eapply agree_weaken; [done|lia..].
Qed.

Lemma deserialize_record (slack : nat → nat) (mt : mem_t) (m : Mem) (p : nat)
    (hs h : heap) (args vars : list (ty * value)) :
  record_wt hs args = true →
  map fst vars = map fst args →
  vars_ok vars = true →
  p + length (record_encoding hs args) ≤ mem_size m →
  bytes_at m p (length (record_encoding hs args)) = record_encoding hs args →
  ∃ outs h',
    deserialize (Serializer.strategy slack mt) m p h (map Plain vars)
      = (map Plain outs,
         {| mem := m; pos := p + length (record_encoding hs args);
            world := h' |},
         Ok (p + length (record_encoding hs args)))
    ∧ same_values hs h' args outs.
Proof.
  intros Hwt Hty Hvars Hroom Hbytes.
  destruct (deserialize_fold_plain slack mt m hs args Hwt vars p h)
    as (outs & h' & Hfold & _ & Hvals); try done.
  exists outs, h'. unfold deserialize. rewrite Hfold. split; [done|].
  apply forallb_Forall_true in Hwt. unfold same_values. clear -Hwt Hvals.
  induction Hvals as [|a o args outs [Ho Hr] _ IH]; [constructor|].
  apply Forall_cons in Hwt as [Hwa Hwt]. constructor; [|by apply IH].
  split; [done|]. split; [by apply wt_reify|]. by apply Hr.
Qed.

Lemma serialize_returns_pos {A : Type} (strategy : Strategy A) (mt : mem_t)
    (m : Mem) (p : nat) (h : heap) (args : list (Arg A)) (s : Ser) (q : nat) :
  serialize strategy mt m p h args = (s, Ok q) → q = pos s.
Proof.
  unfold serialize.
  destruct (serialize_fold strategy args _) as [s' [[]|e]]; [|done].
  by intros [= <- <-].
Qed.

Lemma deserialize_returns_pos {A : Type} (strategy : Strategy A)
    (m : Mem) (p : nat) (h : heap) (args args' : list (Arg A)) (s : Ser)
    (q : nat) :
  deserialize strategy m p h args = (args', s, Ok q) → q = pos s.
Proof.
  unfold deserialize.
  destruct (deserialize_fold strategy args _) as [[a' s'] [[]|e]]; [|done].
  by intros [= _ <- <-].
Qed.

(** C6.  Whatever the strategy, the position a call returns is the cursor of
    the strategy when the call ends.  With the buffer strategy, on a buffer
    that can grow or has room for both: serialising a first record at
    position 0 returns [p1], serialising a second record into the buffer the
    first call left, at [p1], returns [p2]; the first record occupies the
    bytes from 0 to [p1] and the second those from [p1] to [p2], all within
    the buffer; and each record is decoded, on its own, from its own starting
    position: the call returns the position where the record ends, with
    variables whose values are structurally equal to the arguments
    serialised. *)
Theorem back_to_back_records (slack : nat → nat) (mt : mem_t) (m : Mem)
    (hs h : heap) (args1 args2 vars1 vars2 : list (ty * value)) :
  record_wt hs args1 = true →
  record_wt hs args2 = true →
  map fst vars1 = map fst args1 →
  map fst vars2 = map fst args2 →
  vars_ok vars1 = true →
  vars_ok vars2 = true →
  Resizeable mt = true
  ∨ length (record_encoding hs args1) + length (record_encoding hs args2)
    ≤ mem_size m →
  (∀ A (strategy : Strategy A) mt' m' p h' args args' s q,
     (serialize strategy mt' m' p h' args = (s, Ok q) → q = pos s)
     ∧ (deserialize strategy m' p h' args = (args', s, Ok q) → q = pos s))
  ∧ ∃ s1 s2 p1 p2,
      serialize (Serializer.strategy slack mt) mt m 0 hs (map Plain args1)
        = (s1, Ok p1)
      ∧ serialize (Serializer.strategy slack mt) mt (mem s1) p1 hs
          (map Plain args2) = (s2, Ok p2)
      ∧ p1 = length (record_encoding hs args1)
      ∧ p2 = p1 + length (record_encoding hs args2)
      ∧ p2 ≤ mem_size (mem s2)
      ∧ bytes_at (mem s2) 0 p1 = record_encoding hs args1
      ∧ bytes_at (mem s2) p1 (p2 - p1) = record_encoding hs args2
      ∧ (∃ outs1 sd1,
           deserialize (Serializer.strategy slack mt) (mem s2) 0 h
             (map Plain vars1) = (map Plain outs1, sd1, Ok p1)
           ∧ same_values hs (world sd1) args1 outs1)
      ∧ (∃ outs2 sd2,
           deserialize (Serializer.strategy slack mt) (mem s2) p1 h
             (map Plain vars2) = (map Plain outs2, sd2, Ok p2)
           ∧ same_values hs (world sd2) args2 outs2).
Proof.
  intros Hwt1 Hwt2 Hty1 Hty2 Hv1 Hv2 Hroom. split.
  { intros. split; [apply serialize_returns_pos|apply deserialize_returns_pos]. }
  set (n1 := length (record_encoding hs args1)) in *.
  set (n2 := length (record_encoding hs args2)) in *.
  destruct (serialize_record slack mt m 0 hs args1)
    as (s1 & Hs1 & Hp1 & Hin1 & Hsz1 & Hb1 & _);
    [lia|destruct Hroom; [by left|right; cbn; fold n1; lia]|].
  fold n1 in Hp1, Hb1. cbn in Hp1.
  destruct (serialize_record slack mt (mem s1) (pos s1) hs args2)
    as (s2 & Hs2 & Hp2 & Hin2 & _ & Hb2 & Hold2); [done| |].
  { fold n2. destruct Hroom as [?|?]; [by left|].
    destruct Hsz1 as [?|?]; [by left|right; lia]. }
  fold n2 in Hp2, Hb2.
  assert (bytes_at (mem s2) 0 n1 = record_encoding hs args1) as Hrec1.
  { etrans; [|exact Hb1]. apply bytes_at_ext. intros i Hi. apply Hold2. lia. }
  exists s1, s2, (pos s1), (pos s2).
  split; [done|]. split; [done|]. split; [done|]. split; [lia|].
  split; [done|]. rewrite Hp1 in *. split; [done|].
  replace (pos s2 - n1) with n2 by lia. split; [done|]. split.
  - destruct (deserialize_record slack mt (mem s2) 0 hs h args1 vars1)
      as (outs & h' & Hd & Hvals); try done; [fold n1; lia|].
    exists outs. eexists. split; [exact Hd|done].
  - destruct (deserialize_record slack mt (mem s2) n1 hs h args2 vars2)
      as (outs & h' & Hd & Hvals); try done; [fold n2; lia|].
    exists outs. eexists. fold n2 in Hd. rewrite <- Hp2 in Hd.
    split; [exact Hd|done].
Qed.

(* ===================================================================== *)
(** * Part III. The theorems at sample inputs                             *)
(* ===================================================================== *)

(** C1 on the sample host object, decoded into a second object of the class
    whose member [q] owns a pointee. *)
Lemma roundtrip_chain_witness :
  chain_wt Sample.store0 Sample.host = true
  ∧ map AttrContainer.attr_type Sample.other
    = map AttrContainer.attr_type Sample.host
  ∧ dest_ok Sample.store0 Sample.other = true
  ∧ ∃ d' h',
      AttrContainer.deserialize spec_convertor Sample.other Sample.store0
        (AttrContainer.serialize spec_convertor Sample.store0 Sample.host [])
      = (d', h', Ok [])
      ∧ map AttrContainer.attr_type d'
        = map AttrContainer.attr_type Sample.host.
Proof.
  assert (chain_wt Sample.store0 Sample.host = true) as H1 by reflexivity.
  assert (map AttrContainer.attr_type Sample.other
          = map AttrContainer.attr_type Sample.host) as H2 by reflexivity.
  assert (dest_ok Sample.store0 Sample.other = true) as H3 by reflexivity.
  destruct (roundtrip_chain Sample.store0 Sample.store0 Sample.host
              Sample.other H1 H2 H3) as [_ (d' & h' & Hd & Ht & _)].
  split; [exact H1|]. split; [exact H2|]. split; [exact H3|].
  exists d', h'. split; [exact Hd | exact Ht].
Defined.

(** C3 on the member [q] of the second object, which owns cell 0: decoding
    an encoded null pointer frees the cell and leaves [q] null; decoding the
    encoding of a pointer to cell 1 leaves [q] on the new cell 2. *)
Lemma pointer_field_decode_witness :
  Sample.store0 !! 0 = Some (Some (Sample.int32_le Byte.x2a))
  ∧ AttrContainer.deserialize spec_convertor [Sample.other_q] Sample.store0
      (Convertor.encode Sample.store0 (TPointer (TRaw 4)) (VPtr None) ++ [])
    = ([AttrContainer.set_reference (VPtr None) Sample.other_q],
       [None; Some (Sample.int32_le Byte.x05)], Ok [])
  ∧ ∃ h2 v',
      AttrContainer.deserialize spec_convertor [Sample.other_q] Sample.store0
        (Convertor.encode Sample.store0 (TPointer (TRaw 4)) (VPtr (Some 1))
           ++ [])
      = ([AttrContainer.set_reference (VPtr (Some 2)) Sample.other_q],
         h2, Ok [])
      ∧ h2 !! 2 = Some (Some v')
      ∧ h2 !! 0 = Some None.
Proof.
  assert (Sample.store0 !! 0 = Some (Some (Sample.int32_le Byte.x2a))) as H0
    by reflexivity.
  destruct (pointer_field_decode (TRaw 4) Sample.other_q [] Sample.store0 0
              (Sample.int32_le Byte.x2a) eq_refl eq_refl H0)
    as (_ & Hnull & Hnew).
  split; [exact H0|]. split; [exact (Hnull Sample.store0 [])|].
  destruct (Hnew Sample.store0 1 (Sample.int32_le Byte.x05) [] eq_refl eq_refl)
    as (h2 & v' & Hd & _ & Hcell & _ & _ & Hfreed & _).
  exists h2, v'. split; [exact Hd|]. split; [exact Hcell | exact Hfreed].
Defined.

(** C4 (amended) on the sample host: its record cut three bytes into the
    encoding of the member [p]. *)
Lemma underrun_raises_at_field_witness :
  chain_wt Sample.store0
    ([Sample.host_x; Sample.host_s; Sample.host_vec2D] ++ [Sample.host_p])
  = true
  ∧ dest_ok Sample.store0
      ([Sample.other_x; Sample.other_s; Sample.other_vec2D]
         ++ Sample.other_p
         :: [Sample.other_q; Sample.other_arr; Sample.other_obj]) = true
  ∧ 3 < length (Convertor.encode Sample.store0 (TPointer (TRaw 4))
                  (VPtr (Some 0)))
  ∧ ∃ d1' b1 h',
      AttrContainer.deserialize spec_convertor Sample.other Sample.store0
        (chain_encoding Sample.store0
           [Sample.host_x; Sample.host_s; Sample.host_vec2D]
         ++ take 3 (Convertor.encode Sample.store0 (TPointer (TRaw 4))
                      (VPtr (Some 0))))
      = (d1' ++ b1 :: [Sample.other_q; Sample.other_arr; Sample.other_obj],
         h', Raise OutOfRange).
Proof.
  assert (chain_wt Sample.store0
            ([Sample.host_x; Sample.host_s; Sample.host_vec2D]
               ++ [Sample.host_p]) = true) as H1 by reflexivity.
  assert (dest_ok Sample.store0
            ([Sample.other_x; Sample.other_s; Sample.other_vec2D]
               ++ Sample.other_p
               :: [Sample.other_q; Sample.other_arr; Sample.other_obj])
          = true) as H2 by reflexivity.
  assert (3 < length (Convertor.encode Sample.store0 (TPointer (TRaw 4))
                        (VPtr (Some 0)))) as H3 by (cbn; lia).
  destruct (underrun_raises_at_field Sample.store0 Sample.store0
              [Sample.host_x; Sample.host_s; Sample.host_vec2D]
              [Sample.other_x; Sample.other_s; Sample.other_vec2D]
              [Sample.other_q; Sample.other_arr; Sample.other_obj]
              Sample.host_p Sample.other_p 3 H1 eq_refl eq_refl H2 H3)
    as (_ & d1' & b1 & h' & Hd & _).
  split; [exact H1|]. split; [exact H2|]. split; [exact H3|].
  exists d1', b1, h'. exact Hd.
Defined.

(** C5 on the aggregate [{x = 7, y = -3}], written at the start of an empty
    [std::vector]. *)
Lemma struct_fast_path_witness :
  valid Sample.point
  ∧ (let '(m', p') :=
       serializeStruct Sample.doubling Sample.std_vector (Sample.zeros 0) 0
         Sample.point in
     p' = 0 + sizeof Point.t
     ∧ bytes_at m' 0 (sizeof Point.t) = to_bytes Sample.point
     ∧ deserializeStruct m' 0 = Ok (Sample.point, p')).
Proof.
  assert (valid Sample.point) as Hv.
  { split; unfold Point.in_int32; cbn; lia. }
  split; [exact Hv|].
  pose proof (struct_fast_path Sample.doubling Sample.std_vector
                (Sample.zeros 0) 0 Sample.point Hv) as H.
  destruct (serializeStruct Sample.doubling Sample.std_vector
              (Sample.zeros 0) 0 Sample.point) as [m' p'].
  destruct H as (Hp & _ & Hb & _ & _ & Hd).
  split; [exact Hp|]. split; [exact Hb | exact Hd].
Defined.


(** C6 on two sample records in an empty [std::vector]. *)
Lemma back_to_back_records_witness :
  record_wt Sample.store0 Sample.record1 = true
  ∧ record_wt Sample.store0 Sample.record2 = true
  ∧ vars_ok Sample.vars1 = true
  ∧ vars_ok Sample.vars2 = true
  ∧ ∃ s1 s2 p1 p2,
      serialize (Serializer.strategy Sample.doubling Sample.std_vector)
        Sample.std_vector (Sample.zeros 0) 0 Sample.store0
        (map Plain Sample.record1) = (s1, Ok p1)
      ∧ serialize (Serializer.strategy Sample.doubling Sample.std_vector)
          Sample.std_vector (mem s1) p1 Sample.store0
          (map Plain Sample.record2) = (s2, Ok p2)
      ∧ bytes_at (mem s2) 0 p1 = record_encoding Sample.store0 Sample.record1
      ∧ bytes_at (mem s2) p1 (p2 - p1)
        = record_encoding Sample.store0 Sample.record2.
Proof.
  assert (record_wt Sample.store0 Sample.record1 = true) as H1 by reflexivity.
  assert (record_wt Sample.store0 Sample.record2 = true) as H2 by reflexivity.
  assert (vars_ok Sample.vars1 = true) as H3 by reflexivity.
  assert (vars_ok Sample.vars2 = true) as H4 by reflexivity.
  destruct (back_to_back_records Sample.doubling Sample.std_vector
              (Sample.zeros 0) Sample.store0 [] Sample.record1 Sample.record2
              Sample.vars1 Sample.vars2 H1 H2 eq_refl eq_refl H3 H4
              (or_introl eq_refl))
    as (_ & s1 & s2 & p1 & p2 & Hs1 & Hs2 & _ & _ & _ & Hb1 & Hb2 & _).
  split; [exact H1|]. split; [exact H2|]. split; [exact H3|].
  split; [exact H4|].
  exists s1, s2, p1, p2.
  split; [exact Hs1|]. split; [exact Hs2|]. split; [exact Hb1 | exact Hb2].
Defined.

(** C10 on the members [x], [q] and [arr] of the second sample object,
    decoded from a record cut inside the encoding of [q]: nothing dangles
    once [x] is decoded, and the exception thrown while [q] is decoded leaves
    [q] null, its old pointee freed, and nothing dangling. *)
Lemma pointer_fields_never_dangle_witness :
  dest_ok Sample.store0
    ([Sample.other_x] ++ Sample.other_q :: [Sample.other_arr]) = true
  ∧ no_dangling Sample.store0
      ([Sample.host_x] ++ Sample.other_q :: [Sample.other_arr])
  ∧ ∃ h3,
      AttrContainer.deserialize spec_convertor
        ([Sample.other_x] ++ Sample.other_q :: [Sample.other_arr])
        Sample.store0
        [Byte.x07; Byte.x00; Byte.x00; Byte.x00; Byte.x01; Byte.x2a]
      = ([Sample.host_x]
           ++ AttrContainer.set_reference (VPtr None) Sample.other_q
           :: [Sample.other_arr], h3, Raise OutOfRange)
      ∧ freed h3 0
      ∧ no_dangling h3
          ([Sample.host_x]
             ++ AttrContainer.set_reference (VPtr None) Sample.other_q
             :: [Sample.other_arr]).
Proof.
  assert (dest_ok Sample.store0
            ([Sample.other_x] ++ Sample.other_q :: [Sample.other_arr])
          = true) as H1 by reflexivity.
  destruct (pointer_fields_never_dangle [Sample.other_x] [Sample.other_arr]
              Sample.other_q Sample.store0
              [Byte.x07; Byte.x00; Byte.x00; Byte.x00; Byte.x01; Byte.x2a]
              H1 [Sample.host_x] Sample.store0 (Ok [Byte.x01; Byte.x2a])
              eq_refl) as (Hbefore & Hat).
  destruct (Hat _ eq_refl) as (a1 & h2 & Hrel & _ & _ & _ & Hconv).
  vm_compute in Hrel. injection Hrel as <- <-.
  specialize (Hconv _ _ eq_refl). cbn beta iota in Hconv.
  destruct Hconv as (Hrun & Hafter).
  split; [exact H1|]. split; [exact Hbefore|].
  eexists. split; [exact Hrun|]. split; [reflexivity | exact Hafter].
Defined.

(** C2 (amended) on an [int] serialised at the start of an empty
    [std::vector]: the buffer grew to eight bytes and is trimmed to four. *)
Lemma trim_only_at_first_level_witness :
  Forall keeps_size
    [Plain (TRaw 4, Sample.int32_le Byte.x00); Function Sample.idle]
  ∧ mem_size
      (mem (serialize (Serializer.strategy Sample.doubling Sample.std_vector)
              Sample.std_vector (Sample.zeros 0) 0 []
              [Plain (TRaw 4, Sample.int32_le Byte.x07)]).1) = 4
  ∧ mem_size (Sample.zeros 4)
    ≤ mem_size
        (mem (deserialize
                (Serializer.strategy Sample.doubling Sample.std_vector)
                (Sample.zeros 4) 0 []
                [Plain (TRaw 4, Sample.int32_le Byte.x00);
                 Function Sample.idle]).1.2).
Proof.
  assert (Forall keeps_size
            [Plain (TRaw 4, Sample.int32_le Byte.x00); Function Sample.idle])
    as Hk.
  { repeat constructor. }
  split; [exact Hk|]. split.
  - destruct (trim_only_at_first_level
                (Serializer.strategy Sample.doubling Sample.std_vector)
                Sample.doubling Sample.std_vector (Sample.zeros 0) 0 []
                [Plain (TRaw 4, Sample.int32_le Byte.x07)] [])
      as (Hfold & _).
    destruct (Hfold _ eq_refl) as (Htrim & _).
    exact (proj2 (Htrim eq_refl eq_refl eq_refl)).
  - destruct (trim_only_at_first_level
                (Serializer.strategy Sample.doubling Sample.std_vector)
                Sample.doubling Sample.std_vector (Sample.zeros 4) 0 []
                [] [Plain (TRaw 4, Sample.int32_le Byte.x00);
                    Function Sample.idle])
      as (_ & _ & _ & Hkeep).
    exact (Hkeep Hk).
Defined.

(** ** The definitions evaluated *)

(** An [int] and a pointer to an [int]: four raw bytes, then the presence
    flag and the four bytes of the pointee. *)
Example record_of_int_and_pointer :
  AttrContainer.serialize spec_convertor Sample.store0
    [Sample.host_x; Sample.host_p] []
  = [Byte.x07; Byte.x00; Byte.x00; Byte.x00;
     Byte.x01; Byte.x2a; Byte.x00; Byte.x00; Byte.x00].
Proof. reflexivity. Qed.

(** A container of containers keeps its row lengths: [[1, 2], [3]]. *)
Example record_of_vec2D :
  Convertor.decode (TVector (TVector (TRaw 4))) (VSeq []) []
    (Convertor.encode [] (TVector (TVector (TRaw 4)))
       (AttrContainer.reference Sample.host_vec2D))
  = ([], Ok (AttrContainer.reference Sample.host_vec2D, [])).
Proof. reflexivity. Qed.

(** Decoding that record into the members [x] and [q] of the second object:
    the cell [q] owned is freed and [q] owns the new cell 2. *)
Example decode_int_and_pointer :
  AttrContainer.deserialize spec_convertor [Sample.other_x; Sample.other_q]
    Sample.store0
    [Byte.x07; Byte.x00; Byte.x00; Byte.x00;
     Byte.x01; Byte.x2a; Byte.x00; Byte.x00; Byte.x00]
  = ([Sample.host_x;
      AttrContainer.set_reference (VPtr (Some 2)) Sample.other_q],
     [None; Some (Sample.int32_le Byte.x05); Some (Sample.int32_le Byte.x2a)],
     Ok []).
Proof. reflexivity. Qed.

(** The same record cut after six bytes: [x] is decoded, the decode of [q]
    throws, and [q] is left null with its old pointee freed. *)
Example decode_truncated_record :
  AttrContainer.deserialize spec_convertor [Sample.other_x; Sample.other_q]
    Sample.store0
    [Byte.x07; Byte.x00; Byte.x00; Byte.x00; Byte.x01; Byte.x2a]
  = ([Sample.host_x;
      AttrContainer.set_reference (VPtr None) Sample.other_q],
     [None; Some (Sample.int32_le Byte.x05);
      Some (default_value (TRaw 4))],
     Raise OutOfRange).
Proof. reflexivity. Qed.

(** The object representation of [{x = 7, y = -3}]. *)
Example point_bytes :
  to_bytes Sample.point
  = [Byte.x07; Byte.x00; Byte.x00; Byte.x00;
     Byte.xfd; Byte.xff; Byte.xff; Byte.xff].
Proof. reflexivity. Qed.

(** An [int] serialised at position 0: a [std::vector] is left with exactly
    its four bytes, a [std::array] of six bytes keeps its size. *)
Example trimmed_std_vector :
  contents
    (mem (serialize (Serializer.strategy Sample.doubling Sample.std_vector)
            Sample.std_vector (Sample.zeros 0) 0 []
            [Plain (TRaw 4, Sample.int32_le Byte.x07)]).1)
  = [Byte.x07; Byte.x00; Byte.x00; Byte.x00].
Proof. reflexivity. Qed.

Example untrimmed_std_array :
  contents
    (mem (serialize (Serializer.strategy Sample.doubling Sample.std_array)
            Sample.std_array (Sample.zeros 6) 0 []
            [Plain (TRaw 4, Sample.int32_le Byte.x07)]).1)
  = [Byte.x07; Byte.x00; Byte.x00; Byte.x00; Byte.x00; Byte.x00].
Proof. reflexivity. Qed.

(* ===================================================================== *)
(** * Part IV. Construction, composition and the type-level functions     *)
(* ===================================================================== *)

(** ** The constructor of the chain *)

Lemma find_lt (ch : Ascii.ascii) (s : string) (i : nat) :
  std_string.find ch s = Some i → i < String.length s.
Proof.
  revert i. induction s as [|a s IH]; intros i; cbn; [done|].
  destruct (Ascii.eqb a ch).
  - intros [= <-]. lia.
  - destruct (std_string.find ch s) as [j|]; cbn; [|done].
    intros [= <-]. specialize (IH j eq_refl). lia.
Qed.

Lemma past_comma_le (s : string) : past_comma s ≤ String.length s.
Proof.
  unfold past_comma.
  destruct (std_string.find "," s) as [i|] eqn:Hi; [|done].
  apply find_lt in Hi. lia.
Qed.

(** The name a node takes: the text before the first comma, or all of the
    string when it has none. *)
Lemma substr_to_comma (ch : Ascii.ascii) (s : string) :
  ∃ id tail,
    std_string.substr 0 (std_string.find ch s) s = Ok id
    ∧ s = (id +:+ tail)
    ∧ std_string.find ch id = None
    ∧ (tail = EmptyString ∨ ∃ tail', tail = String ch tail').
Proof.
  unfold std_string.substr.
  rewrite decide_True by lia.
  replace (std_string.from 0 s) with s by by destruct s.
  induction s as [|a s (id & tail & Hid & Hs & Hno & Htail)].
  - exists EmptyString, EmptyString. cbn. auto.
  - cbn [std_string.find]. destruct (Ascii.eqb a ch) eqn:Ha.
    + apply Ascii.eqb_eq in Ha as ->.
      exists EmptyString, (String ch s). cbn. split_and!; eauto.
    + destruct (std_string.find ch s) as [j|] eqn:Hj; cbn.
      * injection Hid as <-.
        exists (String a (std_string.first_n j s)), tail. cbn.
        rewrite Ha, Hno. cbn. split_and!; [done| |done|done].
        exact (f_equal (String a) Hs).
      * injection Hid as <-. exists (String a s), tail. cbn.
        rewrite Ha, Hno. split_and!; [done| |done|done].
        exact (f_equal (String a) Hs).
Qed.

Lemma ctor_fields (nextId : string → nat) (fields : list (ty * value)) :
  ∀ (idsStr : string) (c : list AttrContainer.node),
    AttrContainer_ctor nextId fields idsStr = Ok c →
    map (λ a, (AttrContainer.attr_type a, AttrContainer.reference a)) c
    = fields.
Proof.
  induction fields as [|[H head] types IH]; intros idsStr c; cbn.
  - by intros [= <-].
  - destruct (std_string.substr 0 _ idsStr) as [id|]; [|done].
    destruct (std_string.substr (nextId idsStr) None idsStr) as [ids|];
      [|done].
    destruct (AttrContainer_ctor nextId types ids) as [next|] eqn:Hnext;
      [|done].
    intros [= <-]. cbn. by rewrite (IH _ _ Hnext).
Qed.

(** Two chains over the same fields behave alike, whatever their names. *)
Lemma serialize_same_fields (conv : Conv) (h : heap)
    (c1 : list AttrContainer.node) :
  ∀ (c2 : list AttrContainer.node) (str : list byte),
    map (λ a, (AttrContainer.attr_type a, AttrContainer.reference a)) c1
    = map (λ a, (AttrContainer.attr_type a, AttrContainer.reference a)) c2 →
    AttrContainer.serialize conv h c1 str
    = AttrContainer.serialize conv h c2 str.
Proof.
  induction c1 as [|a1 c1 IH]; intros [|a2 c2] str Hmap;
    try discriminate Hmap; [done|].
  injection Hmap as Ht Hr Hmap.
  rewrite !serialize_cons, Ht, Hr. by apply IH.
Qed.

Lemma release_same_fields (a1 a2 : AttrContainer.node) (h : heap) :
  AttrContainer.attr_type a1 = AttrContainer.attr_type a2 →
  AttrContainer.reference a1 = AttrContainer.reference a2 →
  (AttrContainer.release a1 h).1.2 = (AttrContainer.release a2 h).1.2
  ∧ (AttrContainer.release a1 h).2 = (AttrContainer.release a2 h).2
  ∧ AttrContainer.attr_type (AttrContainer.release a1 h).1.1
    = AttrContainer.attr_type (AttrContainer.release a2 h).1.1
  ∧ AttrContainer.reference (AttrContainer.release a1 h).1.1
    = AttrContainer.reference (AttrContainer.release a2 h).1.1
  ∧ AttrContainer.name (AttrContainer.release a1 h).1.1
    = AttrContainer.name a1.
Proof.
  intros Ht Hr. unfold AttrContainer.release. rewrite Ht, Hr.
  destruct (is_pointer_v _); [|by cbn; rewrite Ht, Hr].
  destruct (AttrContainer.reference a2) as [?|?|?|[l|]|?] eqn:Hr2; cbn;
    rewrite ?Ht, ?Hr, ?Hr2; try done.
  destruct (cpp_delete l h []) as [h' [[]|e]]; cbn; by rewrite ?Ht, ?Hr, ?Hr2.
Qed.

Lemma deserialize_same_fields (conv : Conv) (c1 : list AttrContainer.node) :
  ∀ (c2 : list AttrContainer.node) (h : heap) (str : list byte),
    map (λ a, (AttrContainer.attr_type a, AttrContainer.reference a)) c1
    = map (λ a, (AttrContainer.attr_type a, AttrContainer.reference a)) c2 →
    (AttrContainer.deserialize conv c1 h str).1.2
    = (AttrContainer.deserialize conv c2 h str).1.2
    ∧ (AttrContainer.deserialize conv c1 h str).2
      = (AttrContainer.deserialize conv c2 h str).2
    ∧ map (λ a, (AttrContainer.attr_type a, AttrContainer.reference a))
        (AttrContainer.deserialize conv c1 h str).1.1
      = map (λ a, (AttrContainer.attr_type a, AttrContainer.reference a))
          (AttrContainer.deserialize conv c2 h str).1.1.
Proof.
  induction c1 as [|a1 c1 IH]; intros [|a2 c2] h str Hmap;
    try discriminate Hmap; [done|].
  injection Hmap as Ht Hr Hmap. cbn [AttrContainer.deserialize].
  destruct (release_same_fields a1 a2 h Ht Hr) as (Hh & He & Ht' & Hr' & _).
  destruct (AttrContainer.release a1 h) as [[b1 h1] r1],
    (AttrContainer.release a2 h) as [[b2 h2] r2].
  cbn in Hh, He, Ht', Hr'. subst h2 r2.
  destruct r1 as [[]|e]; cbn.
  - rewrite Ht', Hr'.
    destruct (conv_deserialize conv _ _ h1 str) as [h3 [[r str']|e]]; cbn.
    + specialize (IH c2 h3 str' Hmap).
      destruct (AttrContainer.deserialize conv c1 h3 str') as [[d1 g1] q1],
        (AttrContainer.deserialize conv c2 h3 str') as [[d2 g2] q2].
      cbn in *. destruct IH as (-> & -> & ->). by rewrite Ht'.
    + by rewrite Ht', Hr', Hmap.
  - by rewrite Ht', Hr', Hmap.
Qed.

(** X1. Construction binds the fields in order.  When [parser::nextId]
    stays within the string it is given, the constructor succeeds on every
    identifier string, also an empty one or one with fewer identifiers than
    fields: the chain has one node per field, with the field's type and
    reference, in the order of the fields; no name holds a comma, and the
    name of the first node is the text of the identifier string before its
    first comma. *)
Theorem constructor_binds_fields_in_order (nextId : string → nat)
    (fields : list (ty * value)) (idsStr : string) :
  (∀ s, nextId s ≤ String.length s) →
  ∃ c,
    AttrContainer_ctor nextId fields idsStr = Ok c
    ∧ map (λ a, (AttrContainer.attr_type a, AttrContainer.reference a)) c
      = fields
    ∧ Forall (λ a, std_string.find ","%char (AttrContainer.name a) = None) c
    ∧ match c with
      | [] => fields = []
      | a :: _ =>
          ∃ tail, idsStr = (AttrContainer.name a +:+ tail)
                  ∧ (tail = EmptyString ∨ ∃ tail', tail = String ","%char tail')
      end.
Proof.
  intros Hnext. revert idsStr.
  induction fields as [|[H head] types IH]; intros idsStr.
  - exists []. by cbn.
  - cbn [AttrContainer_ctor].
    destruct (substr_to_comma ","%char idsStr) as (id & tail & -> & Hs & Hno & Ht).
    unfold std_string.substr at 1. rewrite decide_True by apply Hnext.
    destruct (IH (std_string.from (nextId idsStr) idsStr))
      as (next & -> & Hmap & Hall & _).
    eexists. split; [done|]. cbn. rewrite Hmap.
    split_and!; [done|by constructor|by exists tail].
Qed.

(** X2. A position past the end aborts the construction.  When
    [parser::nextId] answers a position beyond the size of the identifier
    string, [substr] throws [std::out_of_range] and the constructor of a
    non-empty chain does not complete, also when the node is the last one
    and its tail holds no field. *)
Theorem constructor_out_of_range (nextId : string → nat) (H : ty)
    (head : value) (types : list (ty * value)) (idsStr : string) :
  String.length idsStr < nextId idsStr →
  AttrContainer_ctor nextId ((H, head) :: types) idsStr = Raise OutOfRange.
Proof.
  intros Hlt. cbn [AttrContainer_ctor].
  destruct (substr_to_comma ","%char idsStr) as (id & tail & -> & _).
  unfold std_string.substr. by rewrite decide_False by lia.
Qed.

(** X3. The identifiers play no part in the encoding.  Two chains built
    over the same fields from different identifier strings (and different
    identifier parsers) serialize to the same string, and deserialize with
    the same outcome, the same free store and the same values in their
    fields, whatever the convertor. *)
Theorem identifiers_do_not_affect_encoding (nextId1 nextId2 : string → nat)
    (fields : list (ty * value)) (ids1 ids2 : string)
    (c1 c2 : list AttrContainer.node) (conv : Conv) (h : heap)
    (str : list byte) :
  AttrContainer_ctor nextId1 fields ids1 = Ok c1 →
  AttrContainer_ctor nextId2 fields ids2 = Ok c2 →
  AttrContainer.serialize conv h c1 str = AttrContainer.serialize conv h c2 str
  ∧ (AttrContainer.deserialize conv c1 h str).1.2
    = (AttrContainer.deserialize conv c2 h str).1.2
  ∧ (AttrContainer.deserialize conv c1 h str).2
    = (AttrContainer.deserialize conv c2 h str).2
  ∧ map AttrContainer.reference (AttrContainer.deserialize conv c1 h str).1.1
    = map AttrContainer.reference
        (AttrContainer.deserialize conv c2 h str).1.1.
Proof.
  intros H1%ctor_fields H2%ctor_fields.
  assert (map (λ a, (AttrContainer.attr_type a, AttrContainer.reference a)) c1
          = map (λ a, (AttrContainer.attr_type a, AttrContainer.reference a))
              c2) as Hmap by congruence.
  split; [by apply serialize_same_fields|].
  destruct (deserialize_same_fields conv c1 c2 h str Hmap) as (Hh & Hr & Hd).
  split_and!; [done|done|].
  apply (f_equal (map snd)) in Hd.
  by rewrite !map_map in Hd.
Qed.

(** ** The chain under any convertor *)

Lemma release_shape (a : AttrContainer.node) (h : heap) :
  AttrContainer.attr_type (AttrContainer.release a h).1.1
  = AttrContainer.attr_type a
  ∧ AttrContainer.name (AttrContainer.release a h).1.1 = AttrContainer.name a.
Proof.
  unfold AttrContainer.release.
  destruct (is_pointer_v _); [|done].
  destruct (AttrContainer.reference a) as [?|?|?|[l|]|?]; try done.
  by destruct (cpp_delete l h []) as [h' [[]|e]].
Qed.

(** X4. Decoding never renames or retypes a field.  Whatever the convertor
    and the input, and whether the call returns or throws, [deserialize]
    leaves a chain with the same number of nodes, each with the static type
    and the name it had. *)
Theorem deserialize_keeps_types_and_names (conv : Conv)
    (c : list AttrContainer.node) (h : heap) (str : list byte) :
  map AttrContainer.attr_type (AttrContainer.deserialize conv c h str).1.1
  = map AttrContainer.attr_type c
  ∧ map AttrContainer.name (AttrContainer.deserialize conv c h str).1.1
    = map AttrContainer.name c.
Proof.
  revert h str. induction c as [|a next IH]; intros h str; [done|].
  cbn [AttrContainer.deserialize].
  destruct (release_shape a h) as [Ht Hn].
  destruct (AttrContainer.release a h) as [[a1 h1] [[]|e]]; cbn in Ht, Hn;
    [|by cbn; rewrite Ht, Hn].
  destruct (conv_deserialize conv _ _ h1 str) as [h2 [[r str']|e]];
    [|by cbn; rewrite Ht, Hn].
  specialize (IH h2 str').
  destruct (AttrContainer.deserialize conv next h2 str') as [[next' h3] res].
  cbn in *. destruct IH as [-> ->]. by rewrite Ht, Hn.
Qed.

(** X5. Chains compose by concatenation.  Serializing the chain of two
    groups of fields is serializing the first group, then the second on the
    string the first returns; deserializing it is deserializing the first
    group, then the second on the view and the free store the first leaves;
    when the first group throws, the fields of the second are left as they
    were. *)
Theorem chains_compose (conv : Conv) (c1 c2 : list AttrContainer.node)
    (h : heap) (str : list byte) :
  AttrContainer.serialize conv h (c1 ++ c2) str
  = AttrContainer.serialize conv h c2 (AttrContainer.serialize conv h c1 str)
  ∧ AttrContainer.deserialize conv (c1 ++ c2) h str
    = match AttrContainer.deserialize conv c1 h str with
      | (d1, h1, Ok str1) =>
          let '(d2, h2, res) := AttrContainer.deserialize conv c2 h1 str1 in
          (d1 ++ d2, h2, res)
      | (d1, h1, Raise e) => (d1 ++ c2, h1, Raise e)
      end.
Proof. split; [apply serialize_app|apply deserialize_app]. Qed.

(** X6. Two pointer fields on one pointee are deleted twice.  When two
    pointer fields of a chain hold the same non-null address, [deserialize]
    deletes the pointee for the first field, decodes the first field, and
    deletes the same address again for the second: unless the decoding of
    the first field made the address live again, the call ends in an
    invalid [delete], the second field still holding the address. *)
Theorem aliased_pointer_fields_deleted_twice (conv : Conv)
    (a b : AttrContainer.node) (next : list AttrContainer.node) (h h2 : heap)
    (l : loc) (str str' : list byte) (r : value) :
  is_pointer_v (AttrContainer.attr_type a) = true →
  is_pointer_v (AttrContainer.attr_type b) = true →
  AttrContainer.reference a = VPtr (Some l) →
  AttrContainer.reference b = VPtr (Some l) →
  live h l →
  conv_deserialize conv (AttrContainer.attr_type a) (VPtr None)
    (<[l := None]> h) str = (h2, Ok (r, str')) →
  ¬ live h2 l →
  AttrContainer.deserialize conv (a :: b :: next) h str
  = (AttrContainer.set_reference r a :: b :: next, h2, Raise InvalidFree).
Proof.
  intros Ha Hb Hra Hrb [v Hl] Hdec Hdead.
  cbn [AttrContainer.deserialize]. unfold AttrContainer.release at 1.
  rewrite Ha, Hra. unfold cpp_delete at 1. rewrite Hl. cbn.
  rewrite Hdec. unfold AttrContainer.release. rewrite Hb, Hrb.
  unfold cpp_delete. destruct (h2 !! l) as [[w|]|] eqn:Hl2; [|done|done].
  destruct Hdead. by exists w.
Qed.

(** ** Splitting a pack over two calls *)

Section SplitFacts.
Context {A : Type} (strategy : Strategy A).

Lemma serialize_fold_app (args1 args2 : list (Arg A)) (s : Ser) :
  serialize_fold strategy (args1 ++ args2) s
  = match serialize_fold strategy args1 s with
    | (s1, Ok _) => serialize_fold strategy args2 s1
    | (s1, Raise e) => (s1, Raise e)
    end.
Proof.
  revert s. induction args1 as [|arg rest IH]; intros s; [done|].
  cbn [app serialize_fold].
  by destruct (serialize_arg strategy arg s) as [s' [[]|e]].
Qed.

Lemma deserialize_fold_app (args1 args2 : list (Arg A)) (s : Ser) :
  deserialize_fold strategy (args1 ++ args2) s
  = match deserialize_fold strategy args1 s with
    | (args1', s1, Ok _) =>
        let '(args2', s2, r) := deserialize_fold strategy args2 s1 in
        (args1' ++ args2', s2, r)
    | (args1', s1, Raise e) => (args1' ++ args2, s1, Raise e)
    end.
Proof.
  revert s. induction args1 as [|arg rest IH]; intros s.
  - cbn. by destruct (deserialize_fold strategy args2 s) as [[? ?] ?].
  - cbn [app deserialize_fold].
    destruct (deserialize_arg strategy arg s) as [s' [arg'|e]]; [|done].
    rewrite IH.
    destruct (deserialize_fold strategy rest s') as [[rest' s1] [[]|e]];
      [|done].
    by destruct (deserialize_fold strategy args2 s1) as [[? ?] ?].
Qed.

End SplitFacts.

(** X7. A pack can be decoded in two calls.  For every strategy,
    [deserialize] on a pack is [deserialize] on its first arguments, then
    [deserialize] on the others from the position the first call returns, on
    the buffer and free store it leaves; when the first call throws, the
    other arguments are left as they were. *)
Theorem deserialize_split_pack {A : Type} (strategy : Strategy A) (m : Mem)
    (p : nat) (h : heap) (args1 args2 : list (Arg A)) :
  deserialize strategy m p h (args1 ++ args2)
  = match deserialize strategy m p h args1 with
    | (args1', s1, Ok p1) =>
        let '(args2', s2, r) :=
          deserialize strategy (mem s1) p1 (world s1) args2 in
        (args1' ++ args2', s2, r)
    | (args1', s1, Raise e) => (args1' ++ args2, s1, Raise e)
    end.
Proof.
  unfold deserialize. rewrite deserialize_fold_app.
  destruct (deserialize_fold strategy args1 _) as [[args1' s1] [[]|e]];
    [|done].
  destruct s1 as [m1 p1 h1]. cbn [mem pos world].
  by destruct (deserialize_fold strategy args2 _) as [[args2' s2] [[]|e]].
Qed.

(** X8. A pack can be encoded in two calls when no call trims.  For every
    strategy, [serialize] on a pack is [serialize] on its first arguments,
    then [serialize] on the others from the position the first call returns,
    provided the buffer type is not one [serialize] trims, or neither call
    starts at position zero. *)
Theorem serialize_split_pack {A : Type} (strategy : Strategy A) (mt : mem_t)
    (m : Mem) (p : nat) (h : heap) (args1 args2 : list (Arg A)) :
  negb (is_serializer_bytes_v mt) && Resizeable mt = false
  ∨ (p ≠ 0
     ∧ ∀ s1 p1, serialize strategy mt m p h args1 = (s1, Ok p1) → p1 ≠ 0) →
  serialize strategy mt m p h (args1 ++ args2)
  = match serialize strategy mt m p h args1 with
    | (s1, Ok p1) => serialize strategy mt (mem s1) p1 (world s1) args2
    | (s1, Raise e) => (s1, Raise e)
    end.
Proof.
  intros Hcond. unfold serialize in *. rewrite serialize_fold_app.
  destruct (serialize_fold strategy args1 _) as [s1 [[]|e]]; [|done].
  destruct Hcond as [Hmt|[Hp Hp1]].
  - rewrite Hmt. by destruct s1.
  - specialize (Hp1 _ _ eq_refl).
    rewrite (bool_decide_eq_false_2 (p = 0)) in * by done.
    assert ((if negb (is_serializer_bytes_v mt) && Resizeable mt then s1
             else s1) = s1) as Hs1 by by destruct (_ && _).
    rewrite Hs1 in *.
    rewrite (bool_decide_eq_false_2 (pos s1 = 0)) by done.
    by destruct s1.
Qed.

(** ** Structures one after the other *)

Lemma append_twice (slack : nat → nat) (mt : mem_t) (bs1 bs2 : list byte)
    (s : Ser) :
  let s1 := Serializer.append slack mt bs1 s in
  let s2 := Serializer.append slack mt bs2 s1 in
  pos s1 = pos s + length bs1
  ∧ pos s2 = pos s1 + length bs2
  ∧ bytes_at (mem s2) (pos s) (length bs1) = bs1
  ∧ bytes_at (mem s2) (pos s1) (length bs2) = bs2.
Proof.
  intros s1 s2.
  destruct (append_bytes slack mt bs1 s) as (Hpos1 & Hb1 & _ & Hroom1 & _).
  destruct (append_bytes slack mt bs2 s1) as (Hpos2 & Hb2 & _ & _ & Hother2).
  fold s1 in Hpos1, Hb1, Hroom1. fold s2 in Hpos2, Hb2, Hother2.
  split; [done|]. split; [done|]. split; [|done].
  etrans; [|exact Hb1]. apply bytes_at_ext. intros i Hi.
  destruct (Resizeable mt) eqn:Hres.
  - apply Hother2; [|lia]. specialize (Hroom1 (or_introl eq_refl)). lia.
  - subst s2. unfold Serializer.append at 1. rewrite Hres. cbn [andb mem].
    apply mem_data_memcpy_other. lia.
Qed.

(** X9. Structures written one after the other are read back one by one.
    When a second structure is written by [serializeStruct] at the position
    the first call returned, the second write leaves the bytes of the first
    in place, on a buffer that grows as on one that does not:
    [deserializeStruct] at the first position gives back the first object
    and the position of the second, and [deserializeStruct] there gives back
    the second object and the final position. *)
Theorem structs_one_after_the_other {T1 T2 : Type} `{TriviallyCopyable T1}
    `{TriviallyCopyable T2} (slack : nat → nat) (mt : mem_t) (m : Mem)
    (p : nat) (obj1 : T1) (obj2 : T2) :
  valid obj1 →
  valid obj2 →
  let '(m1, p1) := serializeStruct slack mt m p obj1 in
  let '(m2, p2) := serializeStruct slack mt m1 p1 obj2 in
  p1 = p + sizeof T1
  ∧ p2 = p + sizeof T1 + sizeof T2
  ∧ deserializeStruct m2 p = Ok (obj1, p1)
  ∧ deserializeStruct m2 p1 = Ok (obj2, p2).
Proof.
  intros Hv1 Hv2. unfold serializeStruct. cbn zeta.
  pose proof (to_bytes_length obj1) as Hlen1.
  pose proof (to_bytes_length obj2) as Hlen2.
  rewrite !firstn_all2 by lia.
  set (s := {| mem := m; pos := p; world := [] |}).
  destruct (append_twice slack mt (to_bytes obj1) (to_bytes obj2) s)
    as (Hpos1 & Hpos2 & Hb1 & Hb2).
  set (s1 := Serializer.append slack mt (to_bytes obj1) s) in *.
  assert ({| mem := mem s1; pos := pos s1; world := [] |} = s1) as ->
    by by subst s1.
  set (s2 := Serializer.append slack mt (to_bytes obj2) s1) in *.
  change (pos s) with p in *. rewrite Hlen1 in *. rewrite Hlen2 in *.
  split; [done|]. split; [lia|].
  unfold deserializeStruct.
  rewrite Hb1, Hb2, !of_to_bytes by done.
  split; [by rewrite Hpos1|by rewrite Hpos2].
Qed.

(** ** Bound serializers *)

(** X10. A bound serializer leaves exactly the record in the buffer.  With
    the buffer strategy, on a resizable buffer that is not the library's
    [Bytes], the function [bindSerialize] returns, called without a
    position, writes the attributes the accessors read off the object,
    as the object is at the call and in the order of the accessors; it
    returns the length of the record, and whatever the buffer held before,
    its content is then the record and nothing else. *)
Theorem bound_serializer_writes_record {O : Type} (slack : nat → nat)
    (mt : mem_t) (accessors : list (O → ty * value)) (obj : O) (m : Mem)
    (h : heap) :
  is_serializer_bytes_v mt = false →
  Resizeable mt = true →
  ∃ s,
    bindSerialize (Serializer.strategy slack mt)
      (map (λ accessor o, Plain (accessor o)) accessors) obj mt m None h
    = (s, Ok (length (record_encoding h
                        (map (λ accessor, accessor obj) accessors))))
    ∧ contents (mem s)
      = record_encoding h (map (λ accessor, accessor obj) accessors)
    ∧ world s = h.
Proof.
  intros Hbytes Hres. unfold bindSerialize, serialize. cbn [default].
  rewrite map_map.
  rewrite <- (map_map (λ accessor : O → ty * value, accessor obj) Plain).
  set (args := map (λ accessor, accessor obj) accessors).
  destruct (serialize_fold_plain slack mt args
              {| mem := m; pos := 0; world := h |})
    as (s' & -> & Hpos & Hworld & Hle & _ & Hb & _).
  { cbn. lia. }
  { by left. }
  cbn [pos mem world] in *.
  rewrite Hbytes, Hres, bool_decide_eq_true_2 by done. cbn [negb andb].
  eexists. split; [by rewrite Hpos|]. cbn [mem world pos].
  split; [|done].
  unfold contents. rewrite mem_size_resize. cbn [plus] in *.
  etrans; [|exact Hb]. apply bytes_at_ext. intros i Hi.
  apply mem_data_resize_old. lia.
Qed.

(** ** The type-level functions *)

Lemma otype_ind' (P : Cpp.otype → Prop) :
  (∀ n, P (Cpp.Fund n)) →
  (∀ n p a, P (Cpp.Class n p a)) →
  (∀ c o, P o → P (Cpp.Ptr c o)) →
  (∀ n args, Forall (λ x, P x.2) args → P (Cpp.Tmpl n args)) →
  (∀ c o k, P o → P (Cpp.StdArray c o k)) →
  (∀ ret cls params quals,
     P ret.2 → P cls → Forall (λ x, P x.2) params →
     P (Cpp.MemFn ret cls params quals)) →
  ∀ o, P o.
Proof.
  intros Hfund Hclass Hptr Htmpl Harr Hfn.
  fix IH 1.
  intros [n|n p a|c o|n args|c o k|ret cls params cq];
    [apply Hfund | apply Hclass | apply Hptr, IH | | apply Harr, IH | ].
  - apply Htmpl.
    induction args as [|x args IHargs]; constructor; [apply IH | apply IHargs].
  - apply Hfn; [apply IH | apply IH | ].
    induction params as [|x params IHparams]; constructor;
      [apply IH | apply IHparams].
Qed.

Lemma refkind_eqb_eq (a b : Cpp.refkind) : Cpp.refkind_eqb a b = true ↔ a = b.
Proof. by destruct a, b. Qed.

Lemma fn_quals_eqb_eq (a b : Cpp.fn_quals) :
  Cpp.fn_quals_eqb a b = true ↔ a = b.
Proof.
  destruct a as [c1 v1 r1 n1 e1], b as [c2 v2 r2 n2 e2].
  unfold Cpp.fn_quals_eqb. cbn.
  rewrite !andb_true_iff, !Bool.eqb_true_iff, refkind_eqb_eq.
  split; [by intros [[[[-> ->] ->] ->] ->]|by intros [= -> -> -> -> ->]].
Qed.

Lemma type_eqb_with_eq (f : Cpp.otype → Cpp.otype → bool) (x y : Cpp.type) :
  (∀ b, f x.2 b = true ↔ x.2 = b) →
  Cpp.type_eqb_with f x y = true ↔ x = y.
Proof.
  destruct x as [[r1 c1] o1], y as [[r2 c2] o2]. cbn. intros Hf.
  rewrite !andb_true_iff, refkind_eqb_eq, Bool.eqb_true_iff, Hf.
  split; [by intros [[-> ->] ->]|by intros [= -> -> ->]].
Qed.

Lemma pack_eqb_with_eq (f : Cpp.otype → Cpp.otype → bool)
    (l1 : list Cpp.type) :
  Forall (λ x, ∀ b, f x.2 b = true ↔ x.2 = b) l1 →
  ∀ l2, Cpp.pack_eqb_with f l1 l2 = true ↔ l1 = l2.
Proof.
  induction 1 as [|x l1 Hx _ IH]; intros [|y l2]; cbn; try done.
  rewrite andb_true_iff, (type_eqb_with_eq f x y Hx), IH.
  split; [by intros [-> ->]|by intros [= -> ->]].
Qed.

Lemma otype_eqb_eq (a : Cpp.otype) :
  ∀ b, Cpp.otype_eqb a b = true ↔ a = b.
Proof.
  induction a as [n|n p a|c o IH|n args IH|c o k IH|ret cls params cq
                   IHret IHcls IHparams] using otype_ind';
    intros [n'|n' p' a'|c' o'|n' args'|c' o' k'|ret' cls' params' cq'];
    cbn; try done.
  - rewrite String.eqb_eq. split; [by intros ->|by intros [= ->]].
  - rewrite !andb_true_iff, String.eqb_eq, !Bool.eqb_true_iff.
    split; [by intros [[-> ->] ->]|by intros [= -> -> ->]].
  - rewrite andb_true_iff, Bool.eqb_true_iff, IH.
    split; [by intros [-> ->]|by intros [= -> ->]].
  - rewrite andb_true_iff, String.eqb_eq, (pack_eqb_with_eq _ _ IH).
    split; [by intros [-> ->]|by intros [= -> ->]].
  - rewrite !andb_true_iff, Bool.eqb_true_iff, IH, Nat.eqb_eq.
    split; [by intros [[-> ->] ->]|by intros [= -> -> ->]].
  - rewrite !andb_true_iff, (type_eqb_with_eq _ _ _ IHret), IHcls,
      (pack_eqb_with_eq _ _ IHparams), fn_quals_eqb_eq.
    split; [by intros [[[-> ->] ->] ->]|by intros [= -> -> -> ->]].
Qed.

Lemma is_same_eq (x y : Cpp.type) : Cpp.is_same x y = true ↔ x = y.
Proof. apply type_eqb_with_eq. intros b. apply otype_eqb_eq. Qed.

Lemma contains_elem_of (T : Cpp.type) (Types : list Cpp.type) :
  Metafunctions.contains T Types = true ↔ T ∈ Types.
Proof.
  induction Types as [|H Tail IH]; cbn.
  - split; [done|]. by intros ?%elem_of_nil.
  - by rewrite orb_true_iff, is_same_eq, IH, elem_of_cons.
Qed.

Lemma base_t_plain (T : Cpp.type) : Mtf.base_t T = Cpp.plain T.2.
Proof. by destruct T as [[[] c] o]. Qed.

(** X11. [contains] decides membership in the pack.  The older
    [contains_v<T, Types...>] holds exactly when [T] itself is one of
    [Types], so never on an empty pack; the one of [type_transform.hpp]
    holds exactly when [T] stripped of its reference and of its [const] is
    one of [Types], so it gives the same answer for [T], [const T] and
    references to them, and the two agree on a type that has no qualifier. *)
Theorem contains_decides_membership (T : Cpp.type) (Types : list Cpp.type) :
  (Metafunctions.contains_v T Types = true ↔ T ∈ Types)
  ∧ (Mtf.contains_v T Types = true ↔ Cpp.plain T.2 ∈ Types)
  ∧ Mtf.contains_v T Types = Metafunctions.contains_v (Cpp.plain T.2) Types
  ∧ Metafunctions.contains_v T [] = false
  ∧ Mtf.contains_v T [] = false.
Proof.
  unfold Mtf.contains_v, Metafunctions.contains_v. rewrite base_t_plain.
  split_and!; [apply contains_elem_of|apply contains_elem_of|done..].
Qed.

Lemma remove_const_tuple_pack_spec (decl : string → Cpp.template)
    (name : string) (Types : list Cpp.type) :
  decl "std::pair" = {| Cpp.params := 2; Cpp.pack := false |} →
  Metafunctions.remove_const_tuple_pack decl name Types
  = if Cpp.pack_alone (decl name)
       || String.eqb name "std::pair" && (length Types =? 2)
       || (length Types =? 0)
    then Some (Cpp.plain (Cpp.Tmpl name (map Cpp.remove_const Types)))
    else None.
Proof.
  intros Hpair. unfold Cpp.pack_alone.
  induction Types as [|H Types IH].
  { cbn. by rewrite !orb_true_r. }
  cbn [Metafunctions.remove_const_tuple_pack map].
  unfold Metafunctions.names_instance, Metafunctions.tuple_push_front.
  rewrite IH. clear IH.
  destruct (String.eqb name "std::pair") eqn:Hname.
  - apply String.eqb_eq in Hname as ->. rewrite Hpair. cbn.
    by destruct Types as [|T2 [|T3 Types]].
  - destruct (decl name) as [n [|]] eqn:Hdecl; cbn; [|done].
    destruct n as [|k]; cbn; [by rewrite Hdecl|].
    destruct Types as [|T2 Types]; cbn; [done|].
    by destruct (k <=? length Types).
Qed.

Lemma remove_const_idemp (T : Cpp.type) :
  Cpp.remove_const (Cpp.remove_const T) = Cpp.remove_const T.
Proof. by destruct T as [[[] c] o]. Qed.

(** X12. [remove_const_tuple] strips the [const] of each element, on the
    templates its recursion can run on.  The recursion names [T<Types...>]
    on the pack without its head and stops at [T<>]: it has a result on the
    instances of a template declared with a parameter pack alone, as
    [std::tuple], and, through the specialisation, on a [std::pair]; the
    result is then the instance of the same template over the same elements
    in the same order, each without its top-level [const] (a reference
    element is kept as it is).  On an instance of any other template that
    has an argument, as [std::shared_ptr<T>] or [std::string], and on any
    type that is not an unqualified instance, [remove_const_tuple_t] does
    not exist.  Applying the function to its result changes nothing. *)
Theorem remove_const_tuple_strips_elements (decl : string → Cpp.template)
    (T : Cpp.type) :
  decl "std::pair" = {| Cpp.params := 2; Cpp.pack := false |} →
  match T with
  | (Cpp.NoRef, false, Cpp.Tmpl name Types) =>
      Metafunctions.remove_const_tuple decl T
      = if Cpp.pack_alone (decl name)
           || String.eqb name "std::pair" && (length Types =? 2)
           || (length Types =? 0)
        then Some (Cpp.plain (Cpp.Tmpl name (map Cpp.remove_const Types)))
        else None
  | _ => Metafunctions.remove_const_tuple decl T = None
  end
  ∧ match Metafunctions.remove_const_tuple decl T with
    | Some R => Metafunctions.remove_const_tuple decl R = Some R
    | None => True
    end.
Proof.
  intros Hpair.
  pose proof (remove_const_tuple_pack_spec decl) as Hspec.
  destruct T as [[[] []] []]; try (by split).
  cbn [Metafunctions.remove_const_tuple].
  split; [by apply Hspec|].
  rewrite (Hspec name args Hpair).
  destruct (_ || _ || _) eqn:Hc; [|done].
  cbn [Metafunctions.remove_const_tuple Cpp.plain].
  rewrite (Hspec name _ Hpair), length_map, Hc.
  do 3 f_equal. rewrite map_map.
  apply map_ext. intros; apply remove_const_idemp.
Qed.

Lemma is_shared_iff (X : Cpp.type) :
  Metafunctions.is_shared X = true ↔ ∃ T, X = Cpp.plain (Cpp.shared_ptr T).
Proof.
  split; [|by intros [T ->]].
  destruct X as [[[] []] [| | |name [|T [|T' args]]| |]]; try done.
  cbn. intros ->%String.eqb_eq. by exists T.
Qed.

Lemma is_unique_iff (X : Cpp.type) :
  Metafunctions.is_unique X = true ↔ ∃ T, X = Cpp.plain (Cpp.unique_ptr T).
Proof.
  split.
  - destruct X as [[[] []] [| | |name [|T [|D [|T' args]]]| |]]; try done.
    cbn. rewrite andb_true_iff, String.eqb_eq, is_same_eq.
    intros [-> ->]. by exists T.
  - intros [T ->].
    unfold Metafunctions.is_unique, Cpp.plain, Cpp.unique_ptr,
      Cpp.unique_ptr_with.
    apply andb_true_iff. split; [done|by apply is_same_eq].
Qed.

(** X13. The smart-pointer checks.  In the older header [is_smart_ptr_v],
    written as a template of its own, is the disjunction of [is_shared_v]
    and [is_unique_v], and the three hold for the unqualified pointer types
    only; in the newer one [is_smart_ptr_v<SP>] is the older check on
    [base_t<SP>], so [is_shared_v] holds exactly for [std::shared_ptr<T>]
    and [is_unique_v] exactly for [std::unique_ptr<T>], the instance with
    the default deleter, under any [const] or reference.  No type is both
    shared and unique. *)
Theorem smart_pointer_checks (SP : Cpp.type) :
  Metafunctions.is_smart_ptr_v SP
  = Metafunctions.is_shared_v SP || Metafunctions.is_unique_v SP
  ∧ Mtf.is_smart_ptr_v SP = Metafunctions.is_smart_ptr_v (Mtf.base_t SP)
  ∧ (Mtf.is_shared_v SP = true ↔ ∃ T, SP.2 = Cpp.shared_ptr T)
  ∧ (Mtf.is_unique_v SP = true ↔ ∃ T, SP.2 = Cpp.unique_ptr T)
  ∧ (Metafunctions.is_smart_ptr_v SP = true
     ↔ ∃ T, SP = Cpp.plain (Cpp.shared_ptr T)
            ∨ SP = Cpp.plain (Cpp.unique_ptr T))
  ∧ Mtf.is_shared_v SP && Mtf.is_unique_v SP = false.
Proof.
  assert (∀ X, Metafunctions.is_smart_ptr_v X
               = Metafunctions.is_shared_v X || Metafunctions.is_unique_v X)
    as Hor.
  { intros [[[] []] [| | |name [|T [|D [|T' args]]]| |]]; try done.
    cbn. by rewrite orb_false_r. }
  assert (∀ o1 o2 : Cpp.otype, o1 = o2 ↔ Cpp.plain o1 = Cpp.plain o2)
    as Hplain.
  { intros o1 o2. unfold Cpp.plain. split; [by intros ->|by intros [= ->]]. }
  split; [apply Hor|]. split; [unfold Mtf.is_smart_ptr_v; by rewrite Hor|].
  unfold Mtf.is_shared_v, Mtf.is_unique_v. rewrite base_t_plain.
  split; [|split; [|split]].
  - rewrite is_shared_iff. by setoid_rewrite <- Hplain.
  - rewrite is_unique_iff. by setoid_rewrite <- Hplain.
  - rewrite Hor, orb_true_iff. unfold Metafunctions.is_shared_v,
      Metafunctions.is_unique_v. rewrite is_shared_iff, is_unique_iff.
    split; [intros [[T ?]|[T ?]]|intros [T [?|?]]]; eauto.
  - destruct (Metafunctions.is_shared (Cpp.plain SP.2)) eqn:Hs; [|done].
    apply is_shared_iff in Hs as [T Hs]. injection Hs as ->. done.
Qed.

(** X14. The two versions of [is_concrete_ptr_v] agree.  The older header
    tests [std::is_pointer_v] on the type without its reference, the newer
    one on [base_t]; as a [const] pointer is a pointer, the two give the
    same answer on every type: it holds exactly for a pointer, under any
    qualifier, whose pointee is neither polymorphic nor abstract. *)
Theorem concrete_pointer_checks_agree (T : Cpp.type) :
  Metafunctions.is_concrete_ptr_v T = Mtf.is_concrete_ptr_v T
  ∧ (Mtf.is_concrete_ptr_v T = true
     ↔ ∃ c o, T.2 = Cpp.Ptr c o
              ∧ Cpp.is_polymorphic (Cpp.plain o) = false
              ∧ Cpp.is_abstract (Cpp.plain o) = false).
Proof.
  destruct T as [[r c0] o].
  split; [by destruct o|].
  unfold Mtf.is_concrete_ptr_v. rewrite base_t_plain. cbn [snd].
  destruct o as [n|n p a|c o|n args|c o k|ret cls params cq];
    try (split; [done|by intros (? & ? & [=] & _)]).
  cbn. rewrite andb_true_iff, !negb_true_iff.
  split.
  - intros [Hp Ha]. exists c, o. by destruct o.
  - intros (c' & o' & [= <- <-] & Hp & Ha). by destruct o.
Qed.

(** X15. [is_string_v] and [const].  The [is_string_v] of the newer header
    holds exactly for [std::string] under any [const] or reference; the one
    of the older header, which removes the reference only, holds exactly for
    [std::string] and the references to it, and rejects a [const
    std::string] and the references to one. *)
Theorem string_checks (T : Cpp.type) :
  (Mtf.is_string_v T = true ↔ T.2 = Cpp.std_string)
  ∧ (Metafunctions.is_string_v T = true
     ↔ T.2 = Cpp.std_string ∧ T.1.2 = false).
Proof.
  unfold Mtf.is_string_v, Metafunctions.is_string_v.
  rewrite !is_same_eq, base_t_plain.
  destruct T as [[r c] o]. unfold Cpp.remove_reference, Cpp.plain. cbn.
  split; (split; [by intros [= -> ->] || by intros [= ->]|]).
  - by intros ->.
  - by intros [-> ->].
Qed.

(** X16. The checks of the newer header see through qualifiers.  Each of
    [is_concrete_ptr_v], [is_string_v], [is_shared_v], [is_unique_v],
    [is_smart_ptr_v], [is_std_array_v] and [is_serializer_bytes_v] gives on
    a type, whatever its [const] and reference, the answer it gives on the
    bare object type; so [is_serializer_bytes_v<decltype(mem)>], which
    [serialize] tests on the reference [mem] is passed by, holds exactly
    when the buffer is an instance of [serializer::tools::Bytes], and
    [is_std_array_v] exactly for the instances of [std::array], where the
    [is_std_array_v] of the older header holds for those without qualifier
    only. *)
Theorem checks_see_through_qualifiers (r : Cpp.refkind) (c : bool)
    (o : Cpp.otype) :
  Mtf.is_concrete_ptr_v (r, c, o) = Mtf.is_concrete_ptr_v (Cpp.plain o)
  ∧ Mtf.is_string_v (r, c, o) = Mtf.is_string_v (Cpp.plain o)
  ∧ Mtf.is_shared_v (r, c, o) = Mtf.is_shared_v (Cpp.plain o)
  ∧ Mtf.is_unique_v (r, c, o) = Mtf.is_unique_v (Cpp.plain o)
  ∧ Mtf.is_smart_ptr_v (r, c, o) = Mtf.is_smart_ptr_v (Cpp.plain o)
  ∧ Mtf.is_std_array_v (r, c, o) = Mtf.is_std_array_v (Cpp.plain o)
  ∧ Mtf.is_serializer_bytes_v (r, c, o)
    = Mtf.is_serializer_bytes_v (Cpp.plain o)
  ∧ (Mtf.is_serializer_bytes_v (r, c, o) = true ↔ ∃ T, o = Cpp.Bytes T)
  ∧ (Mtf.is_std_array_v (r, c, o) = true
     ↔ ∃ c' T N, o = Cpp.StdArray c' T N)
  ∧ (Metafunctions.is_std_array_v (r, c, o) = true
     ↔ r = Cpp.NoRef ∧ c = false ∧ ∃ c' T N, o = Cpp.StdArray c' T N).
Proof.
  unfold Mtf.is_concrete_ptr_v, Mtf.is_string_v, Mtf.is_shared_v,
    Mtf.is_unique_v, Mtf.is_smart_ptr_v, Mtf.is_std_array_v,
    Mtf.is_serializer_bytes_v, Mtf.is_shared_v, Mtf.is_unique_v,
    Metafunctions.is_std_array_v.
  rewrite !base_t_plain. cbn [snd].
  split_and!; try done.
  - unfold Cpp.plain, Mtf.is_serializer_bytes. split.
    + destruct o as [| | |name [|T [|T' args]]| |]; try done.
      intros ->%String.eqb_eq. by exists T.
    + by intros [T ->].
  - split; [|by intros (c' & T & N & ->)].
    destruct o as [| | | |c' T N|]; try done. intros _. by exists c', T, N.
  - split; [|by intros (-> & -> & c' & T & N & ->)].
    destruct r, c, o as [| | | |c' T N|]; try done.
    intros _. split_and!; [done|done|]. by exists c', T, N.
Qed.

(** X17. A setter and the type of its argument.  [is_setter_v<T>] holds
    exactly when [setter_arg_type_t<T>] exists: for the type, itself without
    qualifier, of a pointer to a member function that takes exactly one
    parameter and is declared with no qualifier, neither [const] nor
    [volatile], no ref-qualifier, no [noexcept] and no ellipsis; the type
    is then that parameter, with its [const] and reference. *)
Theorem setter_argument (T : Cpp.type) :
  (Mtf.is_setter_v T = true ↔ is_Some (Mtf.setter_arg_type T))
  ∧ (Mtf.is_setter_v T = true
     ↔ ∃ R C Arg, T = Cpp.plain (Cpp.MemFn R C [Arg] Cpp.no_quals)
                  ∧ Mtf.setter_arg_type T = Some Arg).
Proof.
  unfold Mtf.is_setter_v. split.
  - destruct T as [[[] []] [| | | | |R C [|Arg [|Arg' params]] quals]];
      cbn; try (split; [done|by intros [? [=]]]).
    destruct (Cpp.fn_quals_eqb quals Cpp.no_quals);
      split; try done; by intros [? [=]].
  - split.
    + destruct T as [[[] []] [| | | | |R C [|Arg [|Arg' params]] quals]];
        try done.
      cbn. intros Hq. rewrite Hq.
      apply fn_quals_eqb_eq in Hq as ->. by exists R, C, Arg.
    + by intros (R & C & Arg & -> & _).
Qed.

(** ** The container fixture *)

Section FixtureFacts.
Context {Simple double : Type}.
Implicit Types (cs : list (WithContainer.call Simple double)).
Implicit Types (o : WithContainer.t Simple double).

Lemma run_cons c cs o :
  WithContainer.run (c :: cs) o
  = WithContainer.run1 c o ≫= WithContainer.run cs.
Proof. done. Qed.

Lemma run1_arr_length c o o' :
  WithContainer.run1 c o = Some o' →
  length (WithContainer.arr o') = length (WithContainer.arr o).
Proof.
  destruct c; cbn; try by intros [= <-].
  unfold WithContainer.addArr. case_decide; [|done].
  intros [= <-]. cbn. by rewrite length_insert.
Qed.

End FixtureFacts.

(** X18. Each container of the fixture accumulates its own values.  After
    any sequence of calls of the mutators, in any interleaving, [getVec]
    returns the initial content followed by the integers passed to
    [addInt] in the order of the calls, and likewise [getLst] for
    [addDouble], [getClassVec] for [addSimple] and [getVec2D] for [addVec];
    [getEmptyVec] returns what it returned at the start, no mutator
    touching it, and the array keeps its size. *)
Theorem fixture_containers_accumulate {Simple double : Type}
    (cs : list (WithContainer.call Simple double))
    (o0 o : WithContainer.t Simple double) :
  WithContainer.run cs o0 = Some o →
  WithContainer.getVec o = WithContainer.getVec o0 ++ WithContainer.ints cs
  ∧ WithContainer.getLst o
    = WithContainer.getLst o0 ++ WithContainer.doubles cs
  ∧ WithContainer.getClassVec o
    = WithContainer.getClassVec o0 ++ WithContainer.simples cs
  ∧ WithContainer.getVec2D o
    = WithContainer.getVec2D o0 ++ WithContainer.vecs cs
  ∧ WithContainer.getEmptyVec o = WithContainer.getEmptyVec o0
  ∧ length (WithContainer.getArr o) = length (WithContainer.getArr o0).
Proof.
  unfold WithContainer.getVec, WithContainer.getLst,
    WithContainer.getClassVec, WithContainer.getVec2D,
    WithContainer.getEmptyVec, WithContainer.getArr.
  revert o0. induction cs as [|c cs IH]; intros o0.
  - intros [= <-]. cbn. by rewrite !app_nil_r.
  - rewrite run_cons.
    destruct (WithContainer.run1 c o0) as [o1|] eqn:Hc; [|done].
    cbn [mbind option_bind]. intros Hrun.
    destruct (IH o1 Hrun) as (-> & -> & -> & -> & -> & ->).
    destruct c as [s|d|i|v|i n]; cbn in Hc.
    1-4: injection Hc as <-; cbn;
      by rewrite <- ?app_assoc.
    unfold WithContainer.addArr in Hc. case_decide; [|done].
    injection Hc as <-. cbn. by rewrite length_insert.
Qed.

(** X19. [addArr] is defined on the indices of the array, and the last
    write wins.  A sequence of calls has a defined behaviour exactly when
    every index passed to [addArr] lies between 0 and 9; then each element
    of the array holds the value of the last [addArr] on its index, or the
    value it had at the start when there was none. *)
Theorem fixture_array_last_write_wins {Simple double : Type}
    (cs : list (WithContainer.call Simple double))
    (o0 : WithContainer.t Simple double) :
  length (WithContainer.getArr o0) = 10 →
  (is_Some (WithContainer.run cs o0)
   ↔ Forall (λ c, match c with
                  | WithContainer.AddArr i _ => (0 ≤ i < 10)%Z
                  | _ => True
                  end) cs)
  ∧ ∀ o k,
      WithContainer.run cs o0 = Some o →
      k < 10 →
      WithContainer.getArr o !! k
      = match last (WithContainer.written k cs) with
        | Some n => Some n
        | None => WithContainer.getArr o0 !! k
        end.
Proof.
  unfold WithContainer.getArr.
  revert o0. induction cs as [|c cs IH]; intros o0 Hlen.
  - split; [by split; [constructor|eexists]|]. by intros o k [= <-] _.
  - rewrite run_cons, Forall_cons. split.
    + destruct (WithContainer.run1 c o0) as [o1|] eqn:Hc;
        cbn [mbind option_bind].
      * pose proof (run1_arr_length _ _ _ Hc) as Hlen1.
        rewrite (proj1 (IH o1 ltac:(lia))).
        destruct c as [s|d|i|v|i n]; cbn in Hc; try tauto.
        unfold WithContainer.addArr in Hc. case_decide; [tauto|done].
      * destruct c as [s|d|i|v|i n]; cbn in Hc; try done.
        unfold WithContainer.addArr in Hc. case_decide; [done|].
        split; [by intros []|tauto].
    + intros o k.
      destruct (WithContainer.run1 c o0) as [o1|] eqn:Hc; [|done].
      cbn [mbind option_bind]. intros Hrun Hk.
      pose proof (run1_arr_length _ _ _ Hc) as Hlen1.
      rewrite (proj2 (IH o1 ltac:(lia)) o k Hrun Hk).
      destruct c as [s|d|i|v|i n]; cbn in Hc.
      1-4: by injection Hc as <-.
      unfold WithContainer.addArr in Hc. case_decide as Hi; [|done].
      injection Hc as <-. cbn [WithContainer.arr].
      change (WithContainer.written k (WithContainer.AddArr i n :: cs))
        with (match (if decide (i = Z.of_nat k) then Some n else None) with
              | Some y => y :: WithContainer.written k cs
              | None => WithContainer.written k cs
              end).
      case_decide as Hik.
      * rewrite last_cons.
        destruct (last (WithContainer.written k cs)); [done|].
        subst i. rewrite Nat2Z.id.
        apply list_lookup_insert_eq. lia.
      * destruct (last (WithContainer.written k cs)); [done|].
        apply list_lookup_insert_ne. lia.
Qed.

(* ===================================================================== *)
(** * Part V. The theorems of Part IV at sample inputs                    *)
(* ===================================================================== *)

Lemma constructor_binds_fields_in_order_witness :
  (∀ s, past_comma s ≤ String.length s)
  ∧ ∃ c,
      AttrContainer_ctor past_comma Sample.record1 "x, s" = Ok c
      ∧ map (λ a, (AttrContainer.attr_type a, AttrContainer.reference a)) c
        = Sample.record1.
Proof.
  split; [exact past_comma_le|].
  destruct (constructor_binds_fields_in_order past_comma Sample.record1
              "x, s" past_comma_le) as (c & Hc & Hmap & _).
  by exists c.
Defined.

Lemma constructor_out_of_range_witness :
  String.length "x" < S (String.length "x")
  ∧ AttrContainer_ctor (λ s, S (String.length s))
      [(TRaw 4, Sample.int32_le Byte.x07)] "x" = Raise OutOfRange.
Proof.
  assert (String.length "x" < S (String.length "x")) as Hlt by (cbn; lia).
  split; [exact Hlt|].
  exact (constructor_out_of_range (λ s, S (String.length s)) (TRaw 4)
           (Sample.int32_le Byte.x07) [] "x" Hlt).
Defined.

Lemma identifiers_do_not_affect_encoding_witness :
  ∃ c1 c2,
    AttrContainer_ctor past_comma Sample.record1 "x, s" = Ok c1
    ∧ AttrContainer_ctor String.length Sample.record1 "this->x" = Ok c2
    ∧ map AttrContainer.name c1 ≠ map AttrContainer.name c2
    ∧ AttrContainer.serialize spec_convertor Sample.store0 c1 []
      = AttrContainer.serialize spec_convertor Sample.store0 c2 [].
Proof.
  eexists _, _.
  split; [vm_compute; reflexivity|]. split; [vm_compute; reflexivity|].
  split; [discriminate|].
  refine (proj1 (identifiers_do_not_affect_encoding past_comma String.length
                   Sample.record1 "x, s" "this->x" _ _ spec_convertor
                   Sample.store0 [] _ _)); vm_compute; reflexivity.
Defined.

Lemma aliased_pointer_fields_deleted_twice_witness :
  live Sample.store0 0
  ∧ AttrContainer.deserialize spec_convertor [Sample.host_p; Sample.other_q]
      Sample.store0 [Byte.x00]
    = ([AttrContainer.set_reference (VPtr None) Sample.host_p;
        Sample.other_q], <[0 := None]> Sample.store0, Raise InvalidFree).
Proof.
  assert (live Sample.store0 0) as Hl by (eexists; reflexivity).
  split; [exact Hl|].
  apply (aliased_pointer_fields_deleted_twice spec_convertor Sample.host_p
           Sample.other_q [] Sample.store0 (<[0 := None]> Sample.store0) 0
           [Byte.x00] [] (VPtr None) eq_refl eq_refl eq_refl eq_refl Hl).
  - reflexivity.
  - intros [v Hv]. discriminate Hv.
Defined.

Lemma serialize_split_pack_witness :
  (negb (is_serializer_bytes_v Sample.tools_Bytes)
   && Resizeable Sample.tools_Bytes = false
   ∨ (0 ≠ 0
      ∧ ∀ s1 p1,
          serialize (Serializer.strategy Sample.doubling Sample.tools_Bytes)
            Sample.tools_Bytes (Sample.zeros 4) 0 Sample.store0
            (map Plain Sample.record1) = (s1, Ok p1) → p1 ≠ 0))
  ∧ serialize (Serializer.strategy Sample.doubling Sample.tools_Bytes)
      Sample.tools_Bytes (Sample.zeros 4) 0 Sample.store0
      (map Plain Sample.record1 ++ map Plain Sample.record2)
    = match serialize
              (Serializer.strategy Sample.doubling Sample.tools_Bytes)
              Sample.tools_Bytes (Sample.zeros 4) 0 Sample.store0
              (map Plain Sample.record1) with
      | (s1, Ok p1) =>
          serialize (Serializer.strategy Sample.doubling Sample.tools_Bytes)
            Sample.tools_Bytes (mem s1) p1 (world s1)
            (map Plain Sample.record2)
      | (s1, Raise e) => (s1, Raise e)
      end.
Proof.
  assert (negb (is_serializer_bytes_v Sample.tools_Bytes)
          && Resizeable Sample.tools_Bytes = false) as Hmt by reflexivity.
  split; [by left|].
  apply serialize_split_pack. by left.
Defined.

Lemma structs_one_after_the_other_witness :
  valid Sample.point
  ∧ let '(m1, p1) :=
      serializeStruct Sample.doubling Sample.std_vector (Sample.zeros 0) 0
        Sample.point in
    let '(m2, p2) :=
      serializeStruct Sample.doubling Sample.std_vector m1 p1 Sample.point in
    p1 = 8 ∧ p2 = 16
    ∧ deserializeStruct m2 0 = Ok (Sample.point, p1)
    ∧ deserializeStruct m2 p1 = Ok (Sample.point, p2).
Proof.
  assert (valid Sample.point) as Hv
    by (split; unfold Point.in_int32; cbn; lia).
  split; [exact Hv|].
  exact (structs_one_after_the_other Sample.doubling Sample.std_vector
           (Sample.zeros 0) 0 Sample.point Sample.point Hv Hv).
Defined.

Lemma bound_serializer_writes_record_witness :
  is_serializer_bytes_v Sample.std_vector = false
  ∧ Resizeable Sample.std_vector = true
  ∧ ∃ s,
      bindSerialize (Serializer.strategy Sample.doubling Sample.std_vector)
        (map (λ accessor o, Plain (accessor o))
           [λ o : Point.t, (TRaw 4, VRaw (Point.int32_bytes (Point.x o)));
            λ o : Point.t, (TRaw 4, VRaw (Point.int32_bytes (Point.y o)))])
        Sample.point Sample.std_vector (Sample.zeros 64) None []
      = (s, Ok 8)
      ∧ contents (mem s) = to_bytes Sample.point.
Proof.
  split; [reflexivity|]. split; [reflexivity|].
  destruct (bound_serializer_writes_record Sample.doubling Sample.std_vector
              [λ o : Point.t, (TRaw 4, VRaw (Point.int32_bytes (Point.x o)));
               λ o : Point.t, (TRaw 4, VRaw (Point.int32_bytes (Point.y o)))]
              Sample.point (Sample.zeros 64) [] eq_refl eq_refl)
    as (s & Hs & Hc & _).
  exists s. split; [exact Hs|]. rewrite Hc. reflexivity.
Defined.

Lemma fixture_containers_accumulate_witness :
  ∃ o : WithContainer.t unit unit,
    WithContainer.run
      [WithContainer.AddInt 1; WithContainer.AddArr 2 5;
       WithContainer.AddVec [4%Z]; WithContainer.AddInt 3]
      WithContainer.init = Some o
    ∧ WithContainer.getVec o = [1; 3]%Z
    ∧ WithContainer.getEmptyVec o = [].
Proof.
  eexists. split; [reflexivity|].
  match goal with
  | |- WithContainer.getVec ?o = _ ∧ _ =>
      destruct (fixture_containers_accumulate
                  [WithContainer.AddInt 1; WithContainer.AddArr 2 5;
                   WithContainer.AddVec [4%Z]; WithContainer.AddInt 3]
                  WithContainer.init o eq_refl) as (Hvec & _ & _ & _ & He & _)
  end.
  split; [exact Hvec|exact He].
Defined.

Lemma fixture_array_last_write_wins_witness :
  length (WithContainer.getArr (@WithContainer.init unit unit)) = 10
  ∧ (is_Some (WithContainer.run
                [WithContainer.AddArr 2 5; WithContainer.AddArr 10 1]
                (@WithContainer.init unit unit))
     ↔ Forall (λ c : WithContainer.call unit unit,
                 match c with
                 | WithContainer.AddArr i _ => (0 ≤ i < 10)%Z
                 | _ => True
                 end)
         [WithContainer.AddArr 2 5; WithContainer.AddArr 10 1]).
Proof.
  assert (length (WithContainer.getArr (@WithContainer.init unit unit)) = 10)
    as Hlen by reflexivity.
  split; [exact Hlen|].
  exact (proj1 (fixture_array_last_write_wins
                  [WithContainer.AddArr 2 5; WithContainer.AddArr 10 1]
                  WithContainer.init Hlen)).
Defined.

Lemma remove_const_tuple_strips_elements_witness :
  Cpp.std_templates "std::pair" = {| Cpp.params := 2; Cpp.pack := false |}
  ∧ Metafunctions.remove_const_tuple Cpp.std_templates
      (Cpp.plain (Cpp.tuple [(Cpp.NoRef, true, Cpp.Fund "int");
                             (Cpp.LRef, true, Cpp.std_string)]))
    = Some (Cpp.plain (Cpp.tuple [(Cpp.NoRef, false, Cpp.Fund "int");
                                  (Cpp.LRef, true, Cpp.std_string)])).
Proof.
  assert (Cpp.std_templates "std::pair"
          = {| Cpp.params := 2; Cpp.pack := false |}) as Hpair by reflexivity.
  split; [exact Hpair|].
  exact (proj1 (remove_const_tuple_strips_elements Cpp.std_templates
                  (Cpp.plain (Cpp.tuple [(Cpp.NoRef, true, Cpp.Fund "int");
                                         (Cpp.LRef, true, Cpp.std_string)]))
                  Hpair)).
Defined.

(** ** Computations *)

(** [remove_const_tuple_t<std::tuple<const int, const std::string &>>] and
    [remove_const_tuple_t<std::pair<const int, double>>] exist; the
    recursion has no result on [std::shared_ptr<const int>], on
    [std::string], nor on an instance of a template of two parameters. *)
Example remove_const_tuple_of_tuple :
  Metafunctions.remove_const_tuple Cpp.std_templates
    (Cpp.plain (Cpp.tuple [(Cpp.NoRef, true, Cpp.Fund "int");
                           (Cpp.LRef, true, Cpp.std_string)]))
  = Some (Cpp.plain (Cpp.tuple [(Cpp.NoRef, false, Cpp.Fund "int");
                                (Cpp.LRef, true, Cpp.std_string)]))
  ∧ Metafunctions.remove_const_tuple Cpp.std_templates
      (Cpp.plain (Cpp.pair (Cpp.NoRef, true, Cpp.Fund "int")
                    (Cpp.plain (Cpp.Fund "double"))))
    = Some (Cpp.plain (Cpp.pair (Cpp.plain (Cpp.Fund "int"))
                         (Cpp.plain (Cpp.Fund "double"))))
  ∧ Metafunctions.remove_const_tuple Cpp.std_templates
      (Cpp.plain (Cpp.shared_ptr (Cpp.NoRef, true, Cpp.Fund "int"))) = None
  ∧ Metafunctions.remove_const_tuple Cpp.std_templates
      (Cpp.plain Cpp.std_string) = None
  ∧ Metafunctions.remove_const_tuple
      (λ _, {| Cpp.params := 2; Cpp.pack := false |})
      (Cpp.plain (Cpp.Tmpl "Two" [(Cpp.NoRef, true, Cpp.Fund "int");
                                  Cpp.plain (Cpp.Fund "double")])) = None.
Proof. by split_and!. Qed.

(** [is_string_v<const std::string &>] in the two headers, and
    [is_unique_v] on a [std::unique_ptr] with a deleter of its own. *)
Example qualified_string_and_custom_deleter :
  Metafunctions.is_string_v (Cpp.LRef, true, Cpp.std_string) = false
  ∧ Mtf.is_string_v (Cpp.LRef, true, Cpp.std_string) = true
  ∧ Mtf.is_unique_v
      (Cpp.plain (Cpp.unique_ptr_with (Cpp.plain (Cpp.Fund "int"))
                    (Cpp.plain (Cpp.Class "Deleter" false false))))
    = false.
Proof. by split_and!. Qed.

(** The same two records written from position zero in one call and in two:
    the call that starts past zero does not trim, and the buffer keeps the
    room the last growth left. *)
Example split_at_zero_is_not_trimmed :
  mem_size (mem (serialize
                   (Serializer.strategy Sample.doubling Sample.std_vector)
                   Sample.std_vector (Sample.zeros 0) 0 Sample.store0
                   (map Plain Sample.record1 ++ map Plain Sample.record2)).1)
  = 35
  ∧ match serialize (Serializer.strategy Sample.doubling Sample.std_vector)
            Sample.std_vector (Sample.zeros 0) 0 Sample.store0
            (map Plain Sample.record1) with
    | (s1, Ok p1) =>
        p1 = 14
        ∧ mem_size (mem (serialize
                           (Serializer.strategy Sample.doubling
                              Sample.std_vector)
                           Sample.std_vector (mem s1) p1 (world s1)
                           (map Plain Sample.record2)).1) = 60
    | (_, Raise _) => False
    end.
Proof. vm_compute. done. Qed.

(** The names the constructor gives, with a position function that stops
    past the comma: the blank that follows the comma stays in the name. *)
Example constructor_names :
  AttrContainer_ctor past_comma Sample.record1 "x, s"
  = Ok [Sample.field (TRaw 4) (Sample.int32_le Byte.x07) "x";
        Sample.field TString (VString [Byte.x68; Byte.x69]) " s"].
Proof. reflexivity. Qed.
